(** * The embed-content pipeline of plugins/embedbase/plugin.js

    A shallow embedding of the JSONP transport ([Jsonp]), of the response
    conversion and the request coordinator ([loadContent] and its handlers)
    and of the cache of frame contents, followed by the properties that the
    specification states about them. Further parts of the plugin come after
    these: the validation of a URL, the frame of a widget (its height, its
    content, the listener of [ready]), the style sheet and the preview card,
    with properties of their own.

    JavaScript objects that are shared and mutated (provider responses, the
    response cache, the registry of JSONP callbacks, the per-URL arrays of
    frame contents) live in explicit stores; closures are named by the
    number of the call that created them; callbacks of the caller are
    opaque, so calling one is recorded as an effect. *)

From Stdlib Require Import ZArith String Ascii List Lia Bool.
From stdpp Require Import base gmap list strings.

Local Open Scope string_scope.
Local Open Scope list_scope.

(** ** JavaScript values and completions *)

(** A function either returns normally or throws. *)
Inductive completion (A : Type) : Type :=
  | Normal (a : A)
  | Throw (e : string).
Arguments Normal {A} a.
Arguments Throw {A} e.

Definition TypeError : string := "TypeError".

(** The double quote character, and the same as a one-character string. *)
Definition quote_char : ascii := ascii_of_nat 34.
Definition dquote : string := String quote_char EmptyString.

(** A string-valued property of an object: [None] is [undefined] (the
    property is missing). *)
Definition prop := option string.

(** [v == s] for a property [v] and a string literal [s]. *)
Definition loose_eq (v : prop) (s : string) : bool :=
  match v with
  | Some t => String.eqb t s
  | None => false
  end.

(** [v || d] for a property [v]: the empty string and [undefined] are falsy. *)
Definition or_else (v : prop) (d : string) : string :=
  match v with
  | Some (String c t) => String c t
  | _ => d
  end.

(** Whether the text [s] begins with [pat]. *)
Fixpoint starts_with (pat s : string) : bool :=
  match pat with
  | EmptyString => true
  | String a p =>
      match s with
      | EmptyString => false
      | String b t => Ascii.eqb a b && starts_with p t
      end
  end.

(** [s.replace( /pat/g, rep )] for a pattern without metacharacters: the
    occurrences of [pat] are found from left to right and do not overlap.
    [skip] counts the characters of the current occurrence that are still to
    be passed over. *)
Fixpoint replace_from (pat rep : string) (skip : nat) (s : string) : string :=
  match s with
  | EmptyString => EmptyString
  | String c t =>
      match skip with
      | S k => replace_from pat rep k t
      | O =>
          if starts_with pat s
          then rep +:+ replace_from pat rep (String.length pat - 1) t
          else String c (replace_from pat rep 0 t)
      end
  end.

Definition replace_all (pat rep s : string) : string := replace_from pat rep 0 s.

(** ** Provider responses *)

(** The oEmbed response, with the properties that the pipeline reads. *)
Record provider_response := ProviderResponse {
  r_type : prop;
  r_url : prop;
  r_title : prop;
  r_html : prop;
}.

Definition set_html (r : provider_response) (h : string) : provider_response :=
  {| r_type := r_type r; r_url := r_url r; r_title := r_title r; r_html := Some h |}.

(** Response objects are shared between the request, the event data and the
    response cache: they live in a heap and are passed by reference. *)
Abbreviation ref := nat (only parsing).

Definition iframe_open : string := "<iframe".
Definition iframe_nofocus : string :=
  "<iframe tabindex=" +:+ dquote +:+ "-1" +:+ dquote.

Section Conversion.

(** [CKEDITOR.tools.htmlEncodeAttr] is defined in core/tools.js, outside of
    the plugin: the conversion is stated for any encoder. *)
Variable htmlEncodeAttr : prop -> string.

Definition img_markup (src alt : string) : string :=
  "<img src=" +:+ dquote +:+ src +:+ dquote +:+ " " +:+
  "alt=" +:+ dquote +:+ alt +:+ dquote +:+ " style=" +:+ dquote +:+
  "max-width:100%;height:auto" +:+ dquote +:+ " />".

(** [_responseToHtml( url, response )]: the embeddable HTML, or [null]
    ([None]). For [video] and [rich] the rewritten fragment is stored back
    into the response object. Reading a property of something that is not
    an object, or calling [replace] on a missing [html], throws. *)
Definition _responseToHtml (url : string) (response : ref)
    (heap : gmap ref provider_response) :
    completion (option string) * gmap ref provider_response :=
  match heap !! response with
  | None => (Throw TypeError, heap)
  | Some r =>
      if loose_eq (r_type r) "photo" then
        (Normal (Some (img_markup (htmlEncodeAttr (r_url r))
                                  (htmlEncodeAttr (Some (or_else (r_title r) EmptyString))))),
         heap)
      else if loose_eq (r_type r) "video" || loose_eq (r_type r) "rich" then
        match r_html r with
        | None => (Throw TypeError, heap)
        | Some h =>
            let h' := replace_all iframe_open iframe_nofocus h in
            (Normal (Some h'), <[response := set_html r h']> heap)
        end
      else (Normal None, heap)
  end.

End Conversion.

(** ** The JSONP transport *)

Module Jsonp.

(** The variables shared by the closures that one [sendRequest] call
    creates. Functions given by the caller are named by a number. *)
Record closure := Closure {
  scriptElement : option nat;
  callback : nat;
  errorCallback : option nat;
}.

(** The part of the page that the transport touches. The script element
    made for the callback key [k] is the node [k]. *)
Record state := State {
  nextNumber : nat;
  jsonpCallbacks : gset nat;
  body : list nat;
  requests : gmap nat closure;
  timeouts : list (nat * ref);
}.

(** A call of a function of the caller: request [k] calls [f]. *)
Inductive call :=
  | Callback (k f : nat) (response : ref)
  | ErrorCallback (k f : nat).

Definition initial : state :=
  {| nextNumber := 0; jsonpCallbacks := ∅; body := []; requests := ∅; timeouts := [] |}.

(** [cleanUp()] of the request with key [callbackKey]. *)
Definition cleanUp (callbackKey : nat) (s : state) : state :=
  match requests s !! callbackKey with
  | Some c =>
      match scriptElement c with
      | Some el =>
          {| nextNumber := nextNumber s;
             jsonpCallbacks := jsonpCallbacks s ∖ {[callbackKey]};
             body := filter (λ n, n ≠ el) (body s);
             requests := <[callbackKey :=
                {| scriptElement := None; callback := callback c;
                   errorCallback := errorCallback c |}]> (requests s);
             timeouts := timeouts s |}
      | None => s
      end
  | None => s
  end.

(** [_attachScript( url, errorCallback )]: the new script element is
    appended to the body of the document. *)
Definition _attachScript (script : nat) (body : list nat) : list nat :=
  body ++ [script].

(** [sendRequest( urlTemplate, urlParams, callback, errorCallback )]: takes
    the next number as callback key, registers the callback, appends the
    script to the body and returns the request, named by its key. The URL
    of the script is [urlTemplate.output( urlParams )] and plays no role
    afterwards. A script that is run while it is appended only calls the
    registered callback, which defers: that is the event [ProviderCalls]
    right after the call. *)
Definition sendRequest (callback : nat) (errorCallback : option nat) (s : state)
    : nat * state :=
  let callbackKey := nextNumber s in
  (callbackKey,
   {| nextNumber := S callbackKey;
      jsonpCallbacks := {[callbackKey]} ∪ jsonpCallbacks s;
      body := _attachScript callbackKey (body s);
      requests := <[callbackKey :=
         {| scriptElement := Some callbackKey; callback := callback;
            errorCallback := errorCallback |}]> (requests s);
      timeouts := timeouts s |}).

(** The function stored at [CKEDITOR._.jsonpCallbacks[ k ]]: the call of
    [callback] is deferred with [setTimeout]. *)
Definition jsonpCallback (k : nat) (response : ref) (s : state) : state :=
  {| nextNumber := nextNumber s; jsonpCallbacks := jsonpCallbacks s;
     body := body s; requests := requests s;
     timeouts := timeouts s ++ [(k, response)] |}.

(** The function given to [setTimeout]: [cleanUp(); callback( response )]. *)
Definition deferred (k : nat) (response : ref) (s : state) : state * list call :=
  let s' := cleanUp k s in
  (s', match requests s !! k with
       | Some c => [Callback k (callback c) response]
       | None => []
       end).

(** The listener of the script's [error] event:
    [cleanUp(); errorCallback && errorCallback()]. *)
Definition onError (k : nat) (s : state) : state * list call :=
  let s' := cleanUp k s in
  (s', match requests s !! k with
       | Some c => match errorCallback c with
                   | Some f => [ErrorCallback k f]
                   | None => []
                   end
       | None => []
       end).

(** What happens to the transport between two of its own turns. *)
Inductive event :=
  | ProviderCalls (k : nat) (response : ref)
      (* the loaded script evaluates CKEDITOR._.jsonpCallbacks[ k ]( response ) *)
  | ScriptError (k : nat)
      (* the browser fires error on the script element of request k *)
  | Timeout
      (* the scheduler runs the oldest function given to setTimeout *)
  | Cancel (k : nat).
      (* the holder of the request calls request.cancel() *)

(** One turn. A provider script that names a deleted callback fails on its
    own; an event for a request that was never sent has no listener. *)
Definition step (s : state) (e : event) : state * list call :=
  match e with
  | ProviderCalls k response =>
      if decide (k ∈ jsonpCallbacks s) then (jsonpCallback k response s, [])
      else (s, [])
  | ScriptError k => onError k s
  | Timeout =>
      match timeouts s with
      | [] => (s, [])
      | (k, response) :: rest =>
          deferred k response
            {| nextNumber := nextNumber s; jsonpCallbacks := jsonpCallbacks s;
               body := body s; requests := requests s; timeouts := rest |}
      end
  | Cancel k => (cleanUp k s, [])
  end.

(** A sequence of turns, with the calls made, oldest first. *)
Fixpoint run (s : state) (es : list event) : state * list call :=
  match es with
  | [] => (s, [])
  | e :: es' =>
      let '(s1, c1) := step s e in
      let '(s2, c2) := run s1 es' in
      (s2, c1 ++ c2)
  end.

End Jsonp.

(** ** The notification aggregator *)

Module Aggregator.

(** Modelled from the spec: [CKEDITOR.plugins.notificationAggregator] and
    its tasks are defined in plugins/notificationaggregator, outside of the
    plugin. A progress task is one unit of work tracked by the aggregator: it
    is outstanding until it is done or canceled. *)
Inductive task := Outstanding | Done | Canceled.

Definition is_outstanding (t : task) : bool :=
  match t with Outstanding => true | _ => false end.

(** Modelled from the spec: [aggregator.isFinished()], which the missing
    class defines. An aggregator groups the tasks of the outstanding
    requests into one progress unit, here the list of its tasks, each named
    by its position; it is finished when none of them is outstanding. *)
Definition isFinished (a : list task) : bool :=
  forallb (λ t, negb (is_outstanding t)) a.

(** Modelled from the spec: [aggregator.createTask()], which the missing
    class defines: one more outstanding task in the group. *)
Definition createTask (a : list task) : nat * list task :=
  (length a, a ++ [Outstanding]).

(** Modelled from the spec: [task.done()] and [task.cancel()], which the
    missing class defines. The outcome [o] is recorded for an outstanding
    task and a task that is already resolved stays as it is; the aggregator
    is torn down when the last task of the group finishes: the boolean tells
    whether it fires [finished]. *)
Definition resolve (o : task) (i : nat) (a : list task) : list task * bool :=
  match a !! i with
  | Some Outstanding => let a' := <[i := o]> a in (a', isFinished a')
  | _ => (a, false)
  end.

End Aggregator.

(** ** The request coordinator *)

(** The options of [loadContent]. The two callbacks are functions of the
    caller: only their presence is known. *)
Record opts := Opts {
  opt_callback : bool;
  opt_errorCallback : bool;
  opt_noNotifications : bool;
}.

(** The request object. A task is named by its aggregator and its position
    in it; [req_cancel] is the JSONP request that [cancel()] cancels. *)
Record request := Request {
  req_noNotifications : bool;
  req_url : string;
  req_task : option (nat * nat);
  req_response : option ref;
  req_cancel : option nat;
}.

(** The variables of one [loadContent] call, shared by its closures
    ([finishLoading], [request.errorCallback]): the widget [that], [url],
    [opts] and [request]. *)
Record invocation := Invocation {
  that : nat;
  inv_url : string;
  inv_opts : opts;
  inv_request : request;
}.

(** What the pipeline does to its surroundings. *)
Inductive effect :=
  | OptsCallback (call : nat)
  | OptsErrorCallback (call : nat) (msg : prop)
  | ShowNotification (msg : prop) (url : string)
  | Warn (code : string)
  | SetContent (widget : nat) (url content : string)
  | SetRestoreHtml (widget : nat)
  | AddContent (widget : nat) (content : prop)
  | Finished (a : nat)
  | NotificationHide (a : nat)
  | RequestCanceled (call : nat)
  | Uncaught (e : string).

(** The state of the page: the heap of response objects, the response cache
    [_cache] of the widget definition, the transport, the [loadContent]
    calls made so far, the functions that [loadContent] gave to [setTimeout],
    the variable [aggregator] of the definition and the aggregators
    constructed so far, the registry [editor.widgets.instances] and the
    effects so far, oldest first. [_cache] is an object used as a map: the
    field holds its own properties, one for each URL that a response has
    been cached for. *)
Record world := World {
  heap : gmap ref provider_response;
  _cache : gmap string ref;
  jsonp : Jsonp.state;
  calls : list invocation;
  pending : list (nat * ref);
  aggregator : option nat;
  aggregators : list (list Aggregator.task);
  instances : gset nat;
  effects : list effect;
}.

Definition with_heap (h : gmap ref provider_response) (w : world) : world :=
  {| heap := h; _cache := _cache w; jsonp := jsonp w; calls := calls w;
     pending := pending w; aggregator := aggregator w;
     aggregators := aggregators w; instances := instances w; effects := effects w |}.

Definition with_cache (c : gmap string ref) (w : world) : world :=
  {| heap := heap w; _cache := c; jsonp := jsonp w; calls := calls w;
     pending := pending w; aggregator := aggregator w;
     aggregators := aggregators w; instances := instances w; effects := effects w |}.

Definition with_jsonp (j : Jsonp.state) (w : world) : world :=
  {| heap := heap w; _cache := _cache w; jsonp := j; calls := calls w;
     pending := pending w; aggregator := aggregator w;
     aggregators := aggregators w; instances := instances w; effects := effects w |}.

Definition with_calls (c : list invocation) (w : world) : world :=
  {| heap := heap w; _cache := _cache w; jsonp := jsonp w; calls := c;
     pending := pending w; aggregator := aggregator w;
     aggregators := aggregators w; instances := instances w; effects := effects w |}.

Definition with_pending (p : list (nat * ref)) (w : world) : world :=
  {| heap := heap w; _cache := _cache w; jsonp := jsonp w; calls := calls w;
     pending := p; aggregator := aggregator w;
     aggregators := aggregators w; instances := instances w; effects := effects w |}.

Definition with_aggregator (a : option nat) (l : list (list Aggregator.task))
    (w : world) : world :=
  {| heap := heap w; _cache := _cache w; jsonp := jsonp w; calls := calls w;
     pending := pending w; aggregator := a;
     aggregators := l; instances := instances w; effects := effects w |}.

Definition with_instances (i : gset nat) (w : world) : world :=
  {| heap := heap w; _cache := _cache w; jsonp := jsonp w; calls := calls w;
     pending := pending w; aggregator := aggregator w;
     aggregators := aggregators w; instances := i; effects := effects w |}.

Definition emit (e : list effect) (w : world) : world :=
  {| heap := heap w; _cache := _cache w; jsonp := jsonp w; calls := calls w;
     pending := pending w; aggregator := aggregator w;
     aggregators := aggregators w; instances := instances w;
     effects := effects w ++ e |}.

Definition initial : world :=
  {| heap := ∅; _cache := ∅; jsonp := Jsonp.initial; calls := []; pending := [];
     aggregator := None; aggregators := []; instances := ∅; effects := [] |}.

Definition set_task (t : option (nat * nat)) (r : request) : request :=
  {| req_noNotifications := req_noNotifications r; req_url := req_url r;
     req_task := t; req_response := req_response r; req_cancel := req_cancel r |}.

Definition set_response (x : ref) (r : request) : request :=
  {| req_noNotifications := req_noNotifications r; req_url := req_url r;
     req_task := req_task r; req_response := Some x; req_cancel := req_cancel r |}.

Definition set_cancel (k : nat) (r : request) : request :=
  {| req_noNotifications := req_noNotifications r; req_url := req_url r;
     req_task := req_task r; req_response := req_response r; req_cancel := Some k |}.

Definition with_request (f : request → request) (i : invocation) : invocation :=
  {| that := that i; inv_url := inv_url i; inv_opts := inv_opts i;
     inv_request := f (inv_request i) |}.

(** An assignment to a property of the request of call [call]. *)
Definition update_request (call : nat) (f : request → request) (w : world) : world :=
  match calls w !! call with
  | Some i => with_calls (<[call := with_request f i]> (calls w)) w
  | None => w
  end.

(** The names of the properties that every object inherits from
    [Object.prototype], as the language defines them. [_cache] is made by
    the literal [{}], so that reading one of these names from it finds a
    value although nothing was cached under the name. *)
Definition inherited (name : string) : bool :=
  existsb (String.eqb name)
    ["constructor"; "hasOwnProperty"; "isPrototypeOf"; "propertyIsEnumerable";
     "toLocaleString"; "toString"; "valueOf"; "__proto__"; "__defineGetter__";
     "__defineSetter__"; "__lookupGetter__"; "__lookupSetter__"].

(** What an inherited property holds: a function of the language, or the
    prototype itself under [__proto__]. Each of them is an object and
    counts as true, and none has a property [type], [url], [title] or
    [html]. *)
Definition builtin : provider_response :=
  {| r_type := None; r_url := None; r_title := None; r_html := None |}.

(** [_getCachedResponse( url )], that is [this._cache[ url ]]: the own
    property of that name, else the inherited one, else [undefined]. The
    pipeline handles what it gets as a response object, by reference: an
    inherited value is entered into the heap when it is handed out. The
    pipeline never compares two responses and never assigns to an object
    without [type], so that it cannot tell two such entries apart. *)
Definition _getCachedResponse (url : string) (w : world) : option ref * world :=
  match _cache w !! url with
  | Some x => (Some x, w)
  | None =>
      if inherited url
      then let x := fresh (dom (heap w)) in
           (Some x, with_heap (<[x := builtin]> (heap w)) w)
      else (None, w)
  end.

(** [_cacheResponse( url, response )], that is
    [this._cache[ url ] = response]: a new own property, or a new value for
    the one that is there. An assignment to the name [__proto__] would
    replace the prototype of the object instead; no run of the page gets
    there, since a lookup of an inherited name always finds a value, no
    request is sent for it and nothing is cached under it (see
    [cache_keys_are_not_inherited]). *)
Definition _cacheResponse (url : string) (response : ref) (w : world) : world :=
  with_cache (<[url := response]> (_cache w)) w.

(** [_setContent( url, content )] on the widget [that]. *)
Definition _setContent (that : nat) (url content : string) (w : world) : world :=
  emit [SetContent that url content] w.

(** [task.done()] ([o] is [Done]) and [task.cancel()] ([o] is [Canceled]) for
    the task [t]. The listener that [_createTask] put on [finished] hides the
    notification of the aggregator held by the variable [aggregator]. *)
Definition resolve_task (o : Aggregator.task) (t : nat * nat) (w : world) : world :=
  match aggregators w !! t.1 with
  | Some tasks =>
      let '(tasks', fin) := Aggregator.resolve o t.2 tasks in
      let w' := with_aggregator (aggregator w) (<[t.1 := tasks']> (aggregators w)) w in
      if fin
      then emit (Finished t.1 ::
                 match aggregator w with Some a => [NotificationHide a] | None => [] end) w'
      else w'
  | None => w
  end.

(** [new CKEDITOR.plugins.notificationAggregator( ... )], assigned to the
    variable [aggregator]. *)
Definition new_aggregator (w : world) : world :=
  with_aggregator (Some (length (aggregators w))) (aggregators w ++ [[]]) w.

(** [_createTask()]: a new aggregator is made when there is none or when the
    current one is finished; the task comes from the current aggregator. *)
Definition _createTask (w : world) : option (nat * nat) * world :=
  let w1 :=
    match aggregator w with
    | Some a =>
        match aggregators w !! a with
        | Some tasks => if Aggregator.isFinished tasks then new_aggregator w else w
        | None => new_aggregator w
        end
    | None => new_aggregator w
    end in
  match aggregator w1 with
  | Some a =>
      match aggregators w1 !! a with
      | Some tasks =>
          let '(i, tasks') := Aggregator.createTask tasks in
          (Some (a, i), with_aggregator (Some a) (<[a := tasks']> (aggregators w1)) w1)
      | None => (None, w1)
      end
  | None => (None, w1)
  end.

(** The data of the [handleResponse] event. *)
Record evtData := EvtData {
  ed_url : string;
  ed_html : string;
  ed_response : option ref;
  ed_errorMessage : prop;
}.

Section Pipeline.

Variable htmlEncodeAttr : prop -> string.

(** [_generateContent( response )] only reads the response and returns the
    markup of a preview card or [null]; its result is used on Internet
    Explorer alone, to choose the content that is installed. It is left
    open: what follows holds for any such function. *)
Variable _generateContent : provider_response -> prop.

(** [CKEDITOR.env.ie]. *)
Variable ie : bool.

(** [_handleError( request, messageTypeOrMessage )]. *)
Definition _handleError (r : request) (msg : prop) (w : world) : world :=
  match req_task r with
  | Some t =>
      let w1 := resolve_task Aggregator.Canceled t w in
      if negb (req_noNotifications r)
      then emit [ShowNotification msg (req_url r)] w1
      else w1
  | None => w
  end.

(** [request.errorCallback( msg )] of the call [call]. *)
Definition request_errorCallback (call : nat) (msg : prop) (w : world) : world :=
  match calls w !! call with
  | Some i =>
      let w1 := _handleError (inv_request i) msg w in
      if opt_errorCallback (inv_opts i)
      then emit [OptsErrorCallback call msg] w1
      else w1
  | None => w
  end.

(** The listener that [init] puts on [handleResponse]. The boolean tells
    whether the event was canceled. *)
Definition handleResponse_listener (d : evtData) (h : gmap ref provider_response)
    : completion (bool * evtData) * gmap ref provider_response :=
  match ed_html d with
  | String _ _ => (Normal (false, d), h)
  | EmptyString =>
      match ed_response d with
      | None => (Throw TypeError, h)
      | Some x =>
          match _responseToHtml htmlEncodeAttr (ed_url d) x h with
          | (Throw e, h') => (Throw e, h')
          | (Normal (Some retHtml), h') =>
              (Normal (false,
                       {| ed_url := ed_url d; ed_html := retHtml;
                          ed_response := ed_response d;
                          ed_errorMessage := ed_errorMessage d |}), h')
          | (Normal None, h') =>
              (Normal (true,
                       {| ed_url := ed_url d; ed_html := ed_html d;
                          ed_response := ed_response d;
                          ed_errorMessage := Some "unsupportedUrl" |}), h')
          end
      end
  end.

(** [_handleResponse( request )] for the request of the call [call]. *)
Definition _handleResponse (call : nat) (w : world) : completion bool * world :=
  match calls w !! call with
  | None => (Throw TypeError, w)
  | Some i =>
      let request := inv_request i in
      let d := {| ed_url := req_url request; ed_html := EmptyString;
                  ed_response := req_response request;
                  ed_errorMessage := None |} in
      match handleResponse_listener d (heap w) with
      | (Throw e, h) => (Throw e, with_heap h w)
      | (Normal (false, d'), h) =>
          let w1 := with_heap h w in
          let w2 := match req_task request with
                    | Some t => resolve_task Aggregator.Done t w1
                    | None => w1
                    end in
          let content : prop :=
            if ie
            then match req_response request with
                 | Some x => match h !! x with
                             | Some r => _generateContent r
                             | None => None
                             end
                 | None => None
                 end
            else None in
          match content with
          | Some (String c s) =>
              (Normal true,
               _setContent (that i) (req_url request) (String c s)
                 (emit [SetRestoreHtml (that i)] w2))
          | _ =>
              (Normal true,
               _setContent (that i) (req_url request) (ed_html d') w2)
          end
      | (Normal (true, d'), h) =>
          (Normal false, request_errorCallback call (ed_errorMessage d') (with_heap h w))
      end
  end.

(** [finishLoading( response )] of the call [call]. An exception leaves the
    function and is reported by the page. *)
Definition finishLoading (call : nat) (response : ref) (w : world) : world :=
  match calls w !! call with
  | None => w
  | Some i =>
      let w1 := update_request call (set_response response) w in
      if decide (that i ∈ instances w1) then
        match _handleResponse call w1 with
        | (Throw e, w2) => emit [Uncaught e] w2
        | (Normal true, w2) =>
            let w3 := _cacheResponse (inv_url i) response w2 in
            let w4 := if opt_callback (inv_opts i)
                      then emit [OptsCallback call] w3 else w3 in
            if negb ie
            then emit [AddContent (that i)
                         (match heap w4 !! response with
                          | Some r => r_html r
                          | None => None
                          end)] w4
            else w4
        | (Normal false, w2) => w2
        end
      else
        let w2 := emit [Warn "embedbase-widget-invalid"] w1 in
        match req_task (inv_request i) with
        | Some t => resolve_task Aggregator.Done t w2
        | None => w2
        end
  end.

(** [_sendRequest( request )], the listener of [sendRequest]: the callback
    given to the transport is [request.callback], that is [finishLoading]
    of the call, and the error callback is the function that calls
    [request.errorCallback( 'fetchingFailed' )]; both are named [call]. *)
Definition _sendRequest (call : nat) (w : world) : world :=
  let '(k, j) := Jsonp.sendRequest call (Some call) (jsonp w) in
  update_request call (set_cancel k) (with_jsonp j w).

(** [loadContent( url, opts )] on the widget [that]: returns the request
    (named by the number of the call) or [undefined] ([None]). *)
Definition loadContent (that : nat) (url : string) (o : opts) (w : world)
    : option nat * world :=
  let '(cachedResponse, wl) := _getCachedResponse url w in
  let call := length (calls wl) in
  let request := {| req_noNotifications := opt_noNotifications o; req_url := url;
                    req_task := None; req_response := None; req_cancel := None |} in
  let w0 := with_calls (calls wl ++
              [{| that := that; inv_url := url; inv_opts := o;
                  inv_request := request |}]) wl in
  match cachedResponse with
  | Some r => (None, with_pending (pending w0 ++ [(call, r)]) w0)
  | None =>
      let w1 := if negb (opt_noNotifications o)
                then let '(t, w') := _createTask w0 in
                     update_request call (set_task t) w'
                else w0 in
      (Some call, _sendRequest call w1)
  end.

(** A call made by the transport. *)
Definition dispatch (c : Jsonp.call) (w : world) : world :=
  match c with
  | Jsonp.Callback _ f response => finishLoading f response w
  | Jsonp.ErrorCallback _ f => request_errorCallback f (Some "fetchingFailed") w
  end.

(** What happens between two turns of the page. *)
Inductive event :=
  | Load (that : nat) (url : string) (o : opts)
      (* a caller invokes loadContent on a widget *)
  | ProviderResponds (k : nat) (r : provider_response)
      (* the loaded script calls the callback of key k with a new object *)
  | Transport (e : Jsonp.event)
      (* an event of the transport; a timeout runs the oldest deferred callback *)
  | CachedTimeout
      (* the scheduler runs the oldest function that loadContent deferred *)
  | RequestCancel (call : nat)
      (* the holder of the request calls the cancel() that _sendRequest set *)
  | WidgetCreated (id : nat)
  | WidgetDestroyed (id : nat).

Definition transport_step (e : Jsonp.event) (w : world) : world :=
  let '(j, cs) := Jsonp.step (jsonp w) e in
  foldl (λ w' c, dispatch c w') (with_jsonp j w) cs.

(** One turn of the page. Timers of the transport and timers of
    [loadContent] are kept apart; each kind runs oldest first. *)
Definition step (w : world) (e : event) : world :=
  match e with
  | Load that url o => (loadContent that url o w).2
  | ProviderResponds k r =>
      let x := fresh (dom (heap w)) in
      transport_step (Jsonp.ProviderCalls k x) (with_heap (<[x := r]> (heap w)) w)
  | Transport e' => transport_step e' w
  | CachedTimeout =>
      match pending w with
      | [] => w
      | (call, response) :: rest => finishLoading call response (with_pending rest w)
      end
  | RequestCancel call =>
      match calls w !! call with
      | Some i =>
          match req_cancel (inv_request i) with
          | Some k => emit [RequestCanceled call] (transport_step (Jsonp.Cancel k) w)
          | None => w
          end
      | None => w
      end
  | WidgetCreated id => with_instances ({[id]} ∪ instances w) w
  | WidgetDestroyed id => with_instances (instances w ∖ {[id]}) w
  end.

Definition run (w : world) (es : list event) : world := foldl step w es.

End Pipeline.

(** ** The cache of frame contents *)

Module FrameCache.

(** The part of the document model that the liveness check reads. The
    classes [CKEDITOR.dom.element], [document] and [window] are defined in
    core/dom, outside of the plugin; what their methods return is given by
    the page:
    - [defaultView n] is the native window behind
      [n.getDocument().getWindow()], that is the property [$] of that
      wrapper, or [None] when the document has no window any more;
    - [frameElement v] is the frame element that [getFrame()] returns for
      the window [v];
    - [contained n] is [n.getDocument().getDocumentElement().contains( n )]. *)
Record page := Page {
  defaultView : nat → option nat;
  frameElement : nat → option nat;
  contained : nat → bool;
}.

(** The values that occur in [isDetached]. *)
Inductive value :=
  | Undefined
  | Null
  | Boolean (b : bool)
  | Native (n : nat)
  | Window (native : option nat)
  | Element (n : nat).

Definition truthy (v : value) : bool :=
  match v with
  | Undefined | Null => false
  | Boolean b => b
  | Native _ | Window _ | Element _ => true
  end.

(** [!v]. *)
Definition negate (v : value) : value := Boolean (negb (truthy v)).

(** [v.$]: the native object of a wrapper; a boolean has no such property;
    reading a property of [undefined] or [null] throws. *)
Definition dollar (v : value) : completion value :=
  match v with
  | Window (Some n) => Normal (Native n)
  | Window None => Normal Null
  | Element n => Normal (Native n)
  | Native _ | Boolean _ => Normal Undefined
  | Undefined | Null => Throw TypeError
  end.

(** Modelled from the spec: [CKEDITOR.dom.window.getFrame] (core/dom, outside
    of the plugin) gives the frame element that hosts the window. Only a
    window wrapper has the method: calling it on anything else throws. *)
Definition getFrame (p : page) (v : value) : completion value :=
  match v with
  | Window (Some n) =>
      Normal (match frameElement p n with Some f => Element f | None => Null end)
  | _ => Throw TypeError
  end.

(** Modelled from the spec: [element.getDocument().getWindow()] (core/dom,
    outside of the plugin) gives the hosting window of the element's
    document, always as a wrapper object. *)
Definition getWindow (p : page) (element : nat) : value :=
  Window (defaultView p element).

(** [isDetached( element )]. *)
Definition isDetached (p : page) (element : nat) : completion bool :=
  let window := negate (getWindow p element) in
  match dollar window with
  | Throw e => Throw e
  | Normal d =>
      if negb (truthy d) then Normal true
      else
        match getFrame p window with
        | Throw e => Throw e
        | Normal (Element el) => Normal (contained p el)
        | Normal _ => Throw TypeError
        end
  end.

(** Modelled from the spec: [CKEDITOR.tools.array.find( array, fn )]
    (core/tools.js, outside of the plugin) scans the list for the first
    entry for which [fn] returns a true value; [undefined] when none does. *)
Fixpoint find (fn : nat → completion bool) (array : list nat)
    : completion (option nat) :=
  match array with
  | [] => Normal None
  | x :: rest =>
      match fn x with
      | Throw e => Throw e
      | Normal true => Normal (Some x)
      | Normal false => find fn rest
      end
  end.

(** Modelled from the spec: [CKEDITOR.tools.array.indexOf( array, value )]
    (core/tools.js, outside of the plugin) gives the first position of the
    entry in the list, or -1. *)
Fixpoint indexOf (array : list nat) (x : nat) : Z :=
  match array with
  | [] => (-1)%Z
  | y :: rest =>
      if decide (y = x) then 0%Z
      else let i := indexOf rest x in
           if (i <? 0)%Z then (-1)%Z else (i + 1)%Z
  end.

(** [array.splice( index, 1 )]: a negative index counts from the end. *)
Definition splice1 (index : Z) (array : list nat) : list nat :=
  let start :=
    if (index <? 0)%Z then Z.to_nat (Z.max 0 (Z.of_nat (length array) + index))
    else Z.to_nat index in
  take start array ++ drop (S start) array.

(** [editor._.cachedFrameContents] is an object used as a map, given here
    by its own properties: the arrays of contents, one for each URL. It is
    made by the literal [{}]: for a URL that names an inherited property
    and has no array of its own, the two functions below find the inherited
    value in place of an array. They are defined for the URLs that name no
    inherited property. *)

(** [cacheFrameContents( editor, url, element )] on
    [editor._.cachedFrameContents]. *)
Definition cacheFrameContents (url : string) (element : nat)
    (c : gmap string (list nat)) : gmap string (list nat) :=
  match c !! url with
  | None => <[url := [element]]> c
  | Some cache => <[url := cache ++ [element]]> c
  end.

(** [getCachedFrameContents( editor, url )]: the contents or [null], and
    the cache afterwards. *)
Definition getCachedFrameContents (p : page) (url : string)
    (c : gmap string (list nat)) : completion (option nat) * gmap string (list nat) :=
  match c !! url with
  | None => (Normal None, c)
  | Some cache =>
      match find (isDetached p) cache with
      | Throw e => (Throw e, c)
      | Normal None => (Normal None, c)
      | Normal (Some contents) =>
          let index := indexOf cache contents in
          (Normal (Some contents), <[url := splice1 index cache]> c)
      end
  end.


End FrameCache.

(** ** Notions used in the statements *)

(** Whether the character [c] occurs in [s]. *)
Fixpoint has_char (c : ascii) (s : string) : bool :=
  match s with
  | EmptyString => false
  | String a t => Ascii.eqb a c || has_char c t
  end.

(** The pieces of [s] between the occurrences of [c]. *)
Fixpoint split_on (c : ascii) (s : string) : list string :=
  match s with
  | EmptyString => [EmptyString]
  | String a t =>
      if Ascii.eqb a c then EmptyString :: split_on c t
      else match split_on c t with
           | x :: xs => String a x :: xs
           | [] => [String a EmptyString]
           end
  end.

(** Whether [pat] occurs in [s], at any position. *)
Fixpoint occurs (pat s : string) : bool :=
  match s with
  | EmptyString => starts_with pat EmptyString
  | String _ t => starts_with pat s || occurs pat t
  end.

(** Modelled from the spec: the encoding of the characters of an attribute
    value, used by [entity_encode] below. *)
Fixpoint encode_chars (s : string) : string :=
  match s with
  | EmptyString => EmptyString
  | String c t =>
      (if Ascii.eqb c "&" then "&amp;"
       else if Ascii.eqb c ">" then "&gt;"
       else if Ascii.eqb c "<" then "&lt;"
       else if Ascii.eqb c quote_char then "&quot;"
       else String c EmptyString) +:+ encode_chars t
  end.

(** Modelled from the spec: [CKEDITOR.tools.htmlEncodeAttr] is defined in
    core/tools.js, outside of the plugin, and the specification only names
    it as the encoding of HTML attribute values. This encoder replaces the
    ampersand, the angle brackets and the double quote by their entities and
    gives the empty text for a missing value; it shows that the assumptions
    made on the encoder can be met. *)
Definition entity_encode (v : prop) : string :=
  match v with
  | Some s => encode_chars s
  | None => EmptyString
  end.

(** The effects that hand a result to the caller or to the widget. *)
Definition is_delivery (e : effect) : bool :=
  match e with
  | OptsCallback _ | OptsErrorCallback _ _ | ShowNotification _ _
  | SetContent _ _ _ | SetRestoreHtml _ | AddContent _ _ => true
  | _ => false
  end.

(** The request [k] has been cleaned up: its variable [scriptElement] is
    [null]. *)
Definition cleaned (k : nat) (s : Jsonp.state) : Prop :=
  ∃ c, Jsonp.requests s !! k = Some c ∧ Jsonp.scriptElement c = None.

(** A request that is cleaned up, deregistered, and whose script [el] is out
    of the body. *)
Definition retired (k el : nat) (s : Jsonp.state) : Prop :=
  cleaned k s ∧ (k ∉ Jsonp.jsonpCallbacks s) ∧ (el ∉ Jsonp.body s).

(** The request [k] still has its script element. *)
Definition live (k : nat) (s : Jsonp.state) : Prop :=
  ∃ c el, Jsonp.requests s !! k = Some c ∧ Jsonp.scriptElement c = Some el.

(** The request [k] is cleaned up and its callback is out of the registry. *)
Definition off (k : nat) (s : Jsonp.state) : Prop :=
  cleaned k s ∧ (k ∉ Jsonp.jsonpCallbacks s).

(** Whether a call is a call of the success callback, or of any callback, of
    the request [k]. *)
Definition is_success (k : nat) (c : Jsonp.call) : bool :=
  match c with
  | Jsonp.Callback k' _ _ => bool_decide (k' = k)
  | Jsonp.ErrorCallback _ _ => false
  end.

Definition is_call_of (k : nat) (c : Jsonp.call) : bool :=
  match c with
  | Jsonp.Callback k' _ _ | Jsonp.ErrorCallback k' _ => bool_decide (k' = k)
  end.

(** Whether an event is a completion signal of the exchange of request [k]:
    the provider script calls the registered callback, or the script element
    reports an error. *)
Definition is_signal (k : nat) (e : Jsonp.event) : bool :=
  match e with
  | Jsonp.ProviderCalls k' _ | Jsonp.ScriptError k' => bool_decide (k' = k)
  | _ => false
  end.

Definition is_provider_call (k : nat) (e : Jsonp.event) : bool :=
  match e with
  | Jsonp.ProviderCalls k' _ => bool_decide (k' = k)
  | _ => false
  end.

Definition is_script_error (k : nat) (e : Jsonp.event) : bool :=
  match e with
  | Jsonp.ScriptError k' => bool_decide (k' = k)
  | _ => false
  end.

Definition is_cancel (k : nat) (e : Jsonp.event) : bool :=
  match e with
  | Jsonp.Cancel k' => bool_decide (k' = k)
  | _ => false
  end.

(** How many elements of a list pass a test. *)
Fixpoint count_if {A : Type} (p : A → bool) (l : list A) : nat :=
  match l with
  | [] => 0
  | x :: l' => (if p x then 1 else 0) + count_if p l'
  end.

(** The deferred callbacks of request [k] that wait in the timer queue. *)
Definition timers_of (k : nat) (s : Jsonp.state) : nat :=
  count_if (λ t : nat * ref, bool_decide (t.1 = k)) (Jsonp.timeouts s).

(** Callback keys in use are numbers that were already taken. *)
Definition keys_below (s : Jsonp.state) : Prop :=
  (∀ t, t ∈ Jsonp.timeouts s → t.1 < Jsonp.nextNumber s)
  ∧ (∀ k, k ∈ Jsonp.jsonpCallbacks s → k < Jsonp.nextNumber s)
  ∧ (∀ k, is_Some (Jsonp.requests s !! k) → k < Jsonp.nextNumber s).

(** Several [loadContent] calls made one after the other in one turn; each
    is given by its widget, its URL and its options. *)
Definition load_all (reqs : list (nat * string * opts)) (w : world) : world :=
  foldl (λ (w' : world) (r : nat * string * opts),
           (loadContent r.1.1 r.1.2 r.2 w').2) w reqs.

(** Tasks of the aggregator [a] are resolved one after the other: [(true, i)]
    is [done()] and [(false, i)] is [cancel()] on task [i]. *)
Definition resolve_all (a : nat) (ops : list (bool * nat)) (w : world) : world :=
  foldl (λ (w' : world) (op : bool * nat),
           resolve_task (if op.1 then Aggregator.Done else Aggregator.Canceled)
             (a, op.2) w') w ops.

(** How often the aggregator [a] has announced that it is finished. *)
Definition count_finished (a : nat) (l : list effect) : nat :=
  count_if (λ e, match e with Finished a' => bool_decide (a' = a) | _ => false end) l.

(** The number of outstanding tasks. *)
Definition outstanding (ts : list Aggregator.task) : nat :=
  count_if Aggregator.is_outstanding ts.

(** Whether an aggregator goes from [x] outstanding tasks, at least one, to
    [y] outstanding tasks, none: 1 if so, else 0. *)
Definition finishes (x y : nat) : nat :=
  if (0 <? x)%nat && (y =? 0)%nat then 1 else 0.

(** [r'] is [r] up to its [html]. *)
Definition same_but_html (r r' : provider_response) : Prop :=
  r_type r' = r_type r ∧ r_url r' = r_url r ∧ r_title r' = r_title r.

(** Every response of the heap [h] is still in [h'], up to its [html]. *)
Definition keeps (h h' : gmap nat provider_response) : Prop :=
  ∀ y r, h !! y = Some r → ∃ r', h' !! y = Some r' ∧ same_but_html r r'.

(** ** Sample data

    The responses of the examples in the specification, and a world whose
    heap holds one of them. *)

Definition sample_photo : provider_response :=
  {| r_type := Some "photo"; r_url := Some "https://x/img.png";
     r_title := Some "T"; r_html := None |}.

Definition sample_video : provider_response :=
  {| r_type := Some "video"; r_url := None; r_title := None;
     r_html := Some ("<iframe src=" +:+ dquote +:+ "//vid.example/embed/1" +:+ dquote
                     +:+ "></iframe>") |}.


Definition sample_link : provider_response :=
  {| r_type := Some "link"; r_url := None; r_title := None; r_html := None |}.

Definition sample_opts : opts :=
  {| opt_callback := true; opt_errorCallback := true; opt_noNotifications := false |}.

Definition holding (r : provider_response) : world :=
  with_heap {[0 := r]} initial.

(** The page after a widget has loaded the video of the end-to-end scenario
    of the specification: the response is cached under its URL. *)
Definition sample_loaded : world :=
  run entity_encode (λ _, None) false initial
    [WidgetCreated 7; Load 7 "https://vid.example/1" sample_opts;
     ProviderResponds 0 sample_video; Transport Jsonp.Timeout].

(** The page when the response for a widget arrives after the widget has
    been destroyed. *)
Definition sample_stale : world :=
  run entity_encode (λ _, None) false initial
    [WidgetCreated 7; Load 7 "https://vid.example/1" sample_opts;
     WidgetDestroyed 7; ProviderResponds 0 sample_video].

(** The transport after one request has been sent from the initial page:
    its callback key is 0. *)
Definition sample_sent : Jsonp.state := (Jsonp.sendRequest 0 (Some 0) Jsonp.initial).2.

(** A page in which every frame is still part of its document. *)
Definition attached_page : FrameCache.page :=
  {| FrameCache.defaultView := λ _, Some 1;
     FrameCache.frameElement := λ _, Some 2;
     FrameCache.contained := λ _, true |}.

(** The page after the same widget has asked for the cached URL once more
    and the deferred [finishLoading] has run. *)
Definition sample_reloaded : world :=
  run entity_encode (λ _, None) false sample_loaded
    [Load 7 "https://vid.example/1" sample_opts; CachedTimeout].

(** ** The transport in use

    What the holder of the transport does, or what happens to it, between
    two turns: a request is sent, or one of the events of [Jsonp.event]. *)

Inductive jsonp_op :=
  | Send (callback : nat) (errorCallback : option nat)
  | Happens (e : Jsonp.event).

Definition jsonp_do (s : Jsonp.state) (o : jsonp_op) : Jsonp.state * list Jsonp.call :=
  match o with
  | Send f g => ((Jsonp.sendRequest f g s).2, [])
  | Happens e => Jsonp.step s e
  end.

Fixpoint jsonp_exec (s : Jsonp.state) (os : list jsonp_op)
    : Jsonp.state * list Jsonp.call :=
  match os with
  | [] => (s, [])
  | o :: os' =>
      let '(s1, c1) := jsonp_do s o in
      let '(s2, c2) := jsonp_exec s1 os' in
      (s2, c1 ++ c2)
  end.

(** The registry and the body hold exactly the requests that are not
    cleaned up, each script once, and the script of request [k] is the
    node [k]. *)
Definition tidy (s : Jsonp.state) : Prop :=
  (∀ k, k ∈ Jsonp.jsonpCallbacks s ↔ live k s)
  ∧ (∀ k, k ∈ Jsonp.body s ↔ live k s)
  ∧ NoDup (Jsonp.body s)
  ∧ (∀ k c el, Jsonp.requests s !! k = Some c → Jsonp.scriptElement c = Some el → el = k).

(** ** The cache of frame contents in use *)

(** [cacheFrameContents] is called for one URL with each of the elements
    [es], one after the other. *)
Definition cache_all (url : string) (es : list nat)
    (c : gmap string (list nat)) : gmap string (list nat) :=
  foldl (λ c' e, FrameCache.cacheFrameContents url e c') c es.

(** [getCachedFrameContents] is called [n] times for one URL: the results,
    first call first, and the cache afterwards. *)
Fixpoint take_n (p : FrameCache.page) (url : string) (n : nat)
    (c : gmap string (list nat))
    : list (completion (option nat)) * gmap string (list nat) :=
  match n with
  | O => ([], c)
  | S n' =>
      let '(r, c1) := FrameCache.getCachedFrameContents p url c in
      let '(rs, c2) := take_n p url n' c1 in
      (r :: rs, c2)
  end.

(** ** The response cache in use *)

(** A response that [_responseToHtml] turns into markup: a photo, or a
    video or rich response that has its [html]. *)
Definition convertible (r : provider_response) : Prop :=
  loose_eq (r_type r) "photo" = true
  ∨ ((loose_eq (r_type r) "video" || loose_eq (r_type r) "rich") = true
     ∧ is_Some (r_html r)).

(** Every cached response is an object of the heap that can be converted. *)
Definition cache_sound (w : world) : Prop :=
  ∀ url x, _cache w !! url = Some x → ∃ r, heap w !! x = Some r ∧ convertible r.

(** Every response of the heap [h] is still in [h'], with its [type] and,
    if it had one, with an [html]. *)
Definition extends (h h' : gmap nat provider_response) : Prop :=
  ∀ y r, h !! y = Some r →
    ∃ r', h' !! y = Some r' ∧ r_type r' = r_type r
          ∧ (is_Some (r_html r) → is_Some (r_html r')).

(** What [_handleResponse] installs on the widget: the markup of the
    response or, on Internet Explorer, the generated card when there is
    one, announced by the attribute [data-restore-html]. *)
Definition installs (gen : provider_response → prop) (ie : bool) (that : nat)
    (url markup : string) (r : option provider_response) : list effect :=
  match (if ie then r ≫= gen else None) with
  | Some (String c s) => [SetRestoreHtml that; SetContent that url (String c s)]
  | _ => [SetContent that url markup]
  end.

(** A page on which one widget has been created and nothing else has
    happened. *)
Definition sample_created : world :=
  run entity_encode (λ _, None) false initial [WidgetCreated 7].

(** ** The validation of a URL *)

(** The lower-case form of a letter of ASCII; any other character is
    itself. *)
Definition to_lower (c : ascii) : ascii :=
  let n := nat_of_ascii c in
  if (65 <=? n)%nat && (n <=? 90)%nat then ascii_of_nat (n + 32) else c.

Definition to_upper (c : ascii) : ascii :=
  let n := nat_of_ascii c in
  if (97 <=? n)%nat && (n <=? 122)%nat then ascii_of_nat (n - 32) else c.

Fixpoint lower_string (s : string) : string :=
  match s with
  | EmptyString => EmptyString
  | String c t => String (to_lower c) (lower_string t)
  end.

Fixpoint upper_string (s : string) : string :=
  match s with
  | EmptyString => EmptyString
  | String c t => String (to_upper c) (upper_string t)
  end.

(** Whether the character [c] of a text matches the character [p] of a
    pattern that has the flag [i]. The characters of the patterns below are
    characters of ASCII, for which the comparison of the flag is the
    comparison up to the case of the letters of ASCII. *)
Definition eqb_i (p c : ascii) : bool := Ascii.eqb (to_lower p) (to_lower c).

(** Whether the text [s] begins with [pat], up to case. *)
Fixpoint starts_with_i (pat s : string) : bool :=
  match pat with
  | EmptyString => true
  | String a p =>
      match s with
      | EmptyString => false
      | String b t => eqb_i a b && starts_with_i p t
      end
  end.

(** [urlRegExp.test( url )] for the pattern [/^((https?:)?\/\/|www\.)/i]:
    the text begins with [//], with [http://], with [https://] or with
    [www.], up to case. *)
Definition urlRegExp_test (url : string) : bool :=
  starts_with_i "https://" url || starts_with_i "http://" url
  || starts_with_i "//" url || starts_with_i "www." url.

(** [isUrlValid( url )]. Firing [validateUrl] runs the listeners of the
    page: [validateUrl url] tells whether the event comes back without
    having been canceled. The result goes with the URLs for which the event
    was fired. *)
Definition isUrlValid (validateUrl : string → bool) (url : string)
    : bool * list string :=
  if urlRegExp_test url then (validateUrl url, [url]) else (false, []).

(** ** The height of the frame *)

(** What [resize] does to the editor and to the frame. *)
Inductive editor_event :=
  | LockSnapshot
  | SetHeight (height : Z)
  | UnlockSnapshot
  | UpdateSnapshot.

(** [getHeight()] in [addResizeListener]: [elHeight] is the scroll height
    of the container and [docHeight] that of the body of the frame. *)
Definition getHeight (elHeight docHeight : Z) : Z :=
  if (elHeight <? docHeight)%Z && (0 <? elHeight)%Z then elHeight else docHeight.

(** [resize()] in [addResizeListener], with the two heights as they are
    when it runs. *)
Definition resize (elHeight docHeight : Z) : list editor_event :=
  [LockSnapshot; SetHeight (getHeight elHeight docHeight); UnlockSnapshot; UpdateSnapshot].

(** [addResizeListener()]: one [resize()], and the variable
    [lastContentElementHeight] of the closure, which starts [undefined]. *)
Definition addResizeListener (reading : Z * Z) : option Z * list editor_event :=
  (None, resize reading.1 reading.2).

(** The function given to [setInterval]; [reading] holds the scroll heights
    of the container and of the body when it runs. *)
Definition interval_tick (lastContentElementHeight : option Z) (reading : Z * Z)
    : option Z * list editor_event :=
  match lastContentElementHeight with
  | Some l =>
      if (reading.1 =? l)%Z then (lastContentElementHeight, [])
      else (Some reading.1, resize reading.1 reading.2)
  | None => (Some reading.1, resize reading.1 reading.2)
  end.

(** The interval runs once for each of the readings. *)
Fixpoint poll (last : option Z) (readings : list (Z * Z)) : option Z * list editor_event :=
  match readings with
  | [] => (last, [])
  | r :: rs =>
      let '(l1, e1) := interval_tick last r in
      let '(l2, e2) := poll l1 rs in
      (l2, e1 ++ e2)
  end.

(** The snapshot lock is taken and released in turns, the height is set
    only while it is taken, and snapshots are updated only while it is not:
    [locked] tells whether the lock is taken before the events. *)
Fixpoint well_locked (locked : bool) (es : list editor_event) : bool :=
  match es with
  | [] => negb locked
  | LockSnapshot :: es' => negb locked && well_locked true es'
  | UnlockSnapshot :: es' => locked && well_locked false es'
  | SetHeight _ :: es' => locked && well_locked locked es'
  | UpdateSnapshot :: es' => negb locked && well_locked locked es'
  end.

Definition is_set_height (e : editor_event) : bool :=
  match e with SetHeight _ => true | _ => false end.

(** ** The style sheet of the plugin *)

Inductive style_effect :=
  | AppendStyleSheet (href : string)
  | AddContentsCss (editor : nat) (href : string).

(** [loadStyles( editor, plugin )], on the variable [stylesLoaded] and the
    effects so far. [addContentsCss] tells whether the editor has the method
    of that name, and [path] is [plugin.path]. *)
Definition loadStyles (editor : nat) (addContentsCss : bool) (path : string)
    (st : bool * list style_effect) : bool * list style_effect :=
  let localPath := "styles/embedbase.css" in
  let st1 := if negb st.1
             then (true, st.2 ++ [AppendStyleSheet (path +:+ localPath)])
             else st in
  if addContentsCss
  then (st1.1, st1.2 ++ [AddContentsCss editor (path +:+ localPath)])
  else st1.

(** The plugin is initialised for several editors, one after the other. *)
Definition init_all (editors : list (nat * bool * string))
    (st : bool * list style_effect) : bool * list style_effect :=
  foldl (λ st' e, loadStyles e.1.1 e.1.2 e.2 st') st editors.

Definition is_append (e : style_effect) : bool :=
  match e with AppendStyleSheet _ => true | _ => false end.

(** ** The content of the frame *)

(** The text [s] without its first [n] characters. *)
Fixpoint drop_string (n : nat) (s : string) : string :=
  match n, s with
  | S n', String _ t => drop_string n' t
  | _, _ => s
  end.

(** A text is a sequence of bytes and is read as UTF-8. The patterns below
    are made of characters of ASCII, which take one byte each and are part
    of no other character, so that a pattern is looked for byte by byte. The
    line terminators of the language are the line feed, the carriage return
    and the line and paragraph separators U+2028 and U+2029, which take
    three bytes each. *)
Definition line_feed : string := String "010" EmptyString.
Definition carriage_return : string := String "013" EmptyString.
Definition line_separator : string :=
  String "226" (String "128" (String "168" EmptyString)).
Definition paragraph_separator : string :=
  String "226" (String "128" (String "169" EmptyString)).

(** Whether the text [s] begins with a line terminator: [.] matches any
    character but these. *)
Definition is_line_terminator (s : string) : bool :=
  starts_with line_feed s || starts_with carriage_return s
  || starts_with line_separator s || starts_with paragraph_separator s.

(** Whether the text [s] begins with a character that the group [(.|\n)]
    does not match: a line terminator other than the line feed. *)
Definition is_group_stop (s : string) : bool :=
  starts_with carriage_return s
  || starts_with line_separator s || starts_with paragraph_separator s.

(** The text [src=] with the double quote that opens the value. *)
Definition src_attr : string := Eval cbv in ("src=" +:+ dquote).

(** The greedy [.*] and the text [src_attr] behind it, at the beginning of
    [s]: the text behind the last [src_attr] that starts on the first line
    of [s]; [best] is the text behind the last one that has been passed. *)
Fixpoint last_src (s : string) (best : option string) : option string :=
  match s with
  | EmptyString => best
  | String c t =>
      if is_line_terminator s then best
      else last_src t (if starts_with src_attr s then Some (drop_string 5 s) else best)
  end.

(** The capture group at the beginning of [s], any characters but the
    double quote: the text up to the first double quote, or all of it. *)
Fixpoint until_quote (s : string) : string :=
  match s with
  | EmptyString => EmptyString
  | String c t => if Ascii.eqb c quote_char then EmptyString else String c (until_quote t)
  end.

(** [content.match( ... )] with the pattern that is made of [<script], the
    greedy [.*], [src_attr] and the capture group, followed by
    [scriptUrl && scriptUrl[ 1 ]]: the match starts at the first [<script]
    that has a [src_attr] behind it on its line; [None] is [null]. *)
Fixpoint match_script_src (content : string) : option string :=
  match content with
  | EmptyString => None
  | String _ t =>
      if starts_with "<script" content
      then match last_src (drop_string 7 content) None with
           | Some rest => Some (until_quote rest)
           | None => match_script_src t
           end
      else match_script_src t
  end.

(** [(.|\n)*?<\/script>] with the flag [i] at the beginning of [s], where
    [*?] is lazy: the length of the shortest match, in bytes. The group
    matches any character but the carriage return and the two
    separators. *)
Fixpoint close_script (s : string) : option nat :=
  if starts_with_i "</script>" s then Some 9
  else match s with
       | EmptyString => None
       | String c t => if is_group_stop s then None else option_map S (close_script t)
       end.

(** [content.replace( /<script(.|\n)*?<\/script>/gmi, '' )]: the matches
    are found from left to right and do not overlap. [skip] counts the
    characters of the current match that are still to be passed over. *)
Fixpoint strip_scripts_from (skip : nat) (s : string) : string :=
  match s with
  | EmptyString => EmptyString
  | String c t =>
      match skip with
      | S k => strip_scripts_from k t
      | O =>
          if starts_with_i "<script" s
          then match close_script (drop_string 7 s) with
               | Some n => strip_scripts_from (6 + n) t
               | None => String c (strip_scripts_from 0 t)
               end
          else String c (strip_scripts_from 0 t)
      end
  end.

Definition strip_scripts (content : string) : string := strip_scripts_from 0 content.

(** The document of the frame of a widget: the element [documentElement],
    the texts of the style elements of its head, and the children that
    [addContent] appends to its body. *)
Inductive frame_node :=
  | Container (html : string)
  | ScriptElement (src : option string).

Record frame_document := FrameDocument {
  documentElement : nat;
  frame_head : list string;
  frame_body : list frame_node;
}.

(** What [addContent] does to the widget besides. *)
Inductive frame_effect :=
  | RestoreHtml (widget : nat)
  | ResizeListener (widget : nat).

Definition frame_style : string :=
  "html, body {height: 100%;}body {position: relative;display: block;margin: 0;background: none transparent;overflow: hidden;}object, embed, iframe {margin: 0;padding: 0;background: white;color: white;}".

(** The function that [addContent( content )] gives to the promise of
    [appendIframe], run with the frame that the promise resolves with: [d]
    is the document of that frame and [url] is [that.data.url]. Calling
    [match] on a content that is [undefined] throws, before anything is
    done. *)
Definition addContent_then (that : nat) (url : string) (content : prop)
    (d : frame_document) (c : gmap string (list nat))
    : completion (frame_document * gmap string (list nat) * list frame_effect) :=
  match content with
  | None => Throw TypeError
  | Some text =>
      let scriptUrl := match_script_src text in
      let c' := FrameCache.cacheFrameContents url (documentElement d) c in
      let text' := strip_scripts text in
      Normal ({| documentElement := documentElement d;
                 frame_head := frame_head d ++ [frame_style];
                 frame_body := frame_body d ++ [Container text'; ScriptElement scriptUrl] |},
              c', [RestoreHtml that; ResizeListener that])
  end.

(** Whether [pat] occurs in [s] up to case, at any position. *)
Fixpoint occurs_i (pat s : string) : bool :=
  match s with
  | EmptyString => starts_with_i pat EmptyString
  | String _ t => starts_with_i pat s || occurs_i pat t
  end.

(** Whether the character [c] is different from every character of [q], and
    the same up to case. *)
Fixpoint matches_none (q : string) (c : ascii) : bool :=
  match q with
  | EmptyString => true
  | String x q' => negb (Ascii.eqb x c) && matches_none q' c
  end.

Fixpoint matches_none_i (q : string) (c : ascii) : bool :=
  match q with
  | EmptyString => true
  | String x q' => negb (eqb_i x c) && matches_none_i q' c
  end.

(** Whether a text has a line terminator, and whether it has a character
    that the group [(.|\n)] does not match. *)
Fixpoint has_line_terminator (s : string) : bool :=
  match s with
  | EmptyString => false
  | String c t => is_line_terminator s || has_line_terminator t
  end.

Fixpoint has_group_stop (s : string) : bool :=
  match s with
  | EmptyString => false
  | String c t => is_group_stop s || has_group_stop t
  end.

(** The bytes of the line terminators, and whether the first byte of a text
    is none of them, so that no line terminator that begins before the text
    ends in it. *)
Definition terminator_bytes : string :=
  line_feed +:+ carriage_return +:+ line_separator +:+ paragraph_separator.

Definition safe_head (s : string) : bool :=
  match s with
  | EmptyString => true
  | String c _ => matches_none terminator_bytes c
  end.

(** Whether no character of [u] matches the character [a] of a pattern, up
    to case. *)
Fixpoint none_matches_i (a : ascii) (u : string) : bool :=
  match u with
  | EmptyString => true
  | String c t => negb (eqb_i a c) && none_matches_i a t
  end.

(** ** The preview card *)

(** The response with the further properties that [_generateContent]
    reads. *)
Record card_response := CardResponse {
  c_response : provider_response;
  c_provider_name : prop;
  c_description : prop;
  c_thumbnail_url : prop;
}.

(** A property used as a text: [undefined] reads as the text undefined. *)
Definition to_text (v : prop) : string :=
  match v with
  | Some s => s
  | None => "undefined"
  end.

(** Whether a property counts as true: it is there and is not empty. *)
Definition truthy_text (v : prop) : bool :=
  match v with
  | Some (String _ _) => true
  | _ => false
  end.

(** [s] between double quotes. *)
Definition quoted (s : string) : string := dquote +:+ s +:+ dquote.

(** The lazy capture group and the double quote behind it, at the beginning
    of [s]: the text up to the first double quote of the line. *)
Fixpoint line_until_quote (s : string) : option string :=
  match s with
  | EmptyString => None
  | String c t =>
      if Ascii.eqb c quote_char then Some EmptyString
      else if is_line_terminator s then None
      else option_map (String c) (line_until_quote t)
  end.

(** The lazy [.*?], the text [src_attr], the lazy capture group and the
    double quote, at the beginning of [s]: the value behind the first
    [src_attr] of the line. *)
Fixpoint first_src (s : string) : option string :=
  match s with
  | EmptyString => None
  | String c t =>
      if starts_with src_attr s then line_until_quote (drop_string 5 s)
      else if is_line_terminator s then None
      else first_src t
  end.

(** The pattern of [_generateContent] for the script URL, run with [exec]
    on the text [html], followed by [scriptUrl && scriptUrl[ 1 ]]: the match
    starts at the first [<script] that has a [src_attr] with a closed value
    behind it on its line; [None] is [null]. *)
Fixpoint exec_script_src (html : string) : option string :=
  match html with
  | EmptyString => None
  | String _ t =>
      if starts_with "<script" html
      then match first_src (drop_string 7 html) with
           | Some u => Some u
           | None => exec_script_src t
           end
      else exec_script_src t
  end.

(** The lazy group of the pattern for the provider name and what ends it, a
    slash or the end of the text: the text up to the first slash, or all of
    it; a line terminator makes it fail. *)
Fixpoint until_slash (s : string) : option string :=
  match s with
  | EmptyString => Some EmptyString
  | String c t =>
      if Ascii.eqb c "/" then Some EmptyString
      else if is_line_terminator s then None
      else option_map (String c) (until_slash t)
  end.

(** [/\/\/(www\.)?(.*?)(\/|$)/.exec( url )] followed by
    [providerName && providerName[ 2 ]]: the match starts at the first two
    slashes behind which the group can be matched, first with [www.] taken
    when it is there, then without. *)
Fixpoint exec_provider (url : string) : option string :=
  match url with
  | EmptyString => None
  | String _ t =>
      if starts_with "//" url
      then let rest := drop_string 2 url in
           match until_slash (if starts_with "www." rest then drop_string 4 rest else rest) with
           | Some name => Some name
           | None =>
               match until_slash rest with
               | Some name => Some name
               | None => exec_provider t
               end
           end
      else exec_provider t
  end.

(** The text that tells a compact widget: [style=], a double quote and
    [height]. *)
Definition style_height : string := Eval cbv in ("style=" +:+ dquote +:+ "height").

Definition iframely_script : string := "//if-cdn.com/embed.js".

Section Card.

(** [encodeURIComponent] is a function of the language. *)
Variable encodeURIComponent : prop → string.

(** The provider name that [_generateContent] shows. *)
Definition providerName (r : card_response) : prop :=
  if truthy_text (c_provider_name r) then c_provider_name r
  else exec_provider (to_text (r_url (c_response r))).

Definition thumbnailClass (r : card_response) : string :=
  "cke_widget_embed_thumbnail" +:+
  (if occurs style_height (to_text (r_html (c_response r)))
   then " cke_widget_embed_compact" else EmptyString).

(** [captionContent] before the opening tag is put in front of it. *)
Definition captionContent (r : card_response) : string :=
  (if truthy_text (r_title (c_response r))
   then "<p class=" +:+ quoted "cke_widget_embed_title" +:+ ">"
        +:+ to_text (r_title (c_response r)) +:+ "</p>"
   else EmptyString)
  +:+ (if truthy_text (c_description r)
       then "<p class=" +:+ quoted "cke_widget_embed_description" +:+ ">"
            +:+ to_text (c_description r) +:+ "</p>"
       else EmptyString)
  +:+ (if truthy_text (providerName r)
       then "<p class=" +:+ quoted "cke_widget_embed_provider" +:+ ">"
            +:+ "<img class=" +:+ quoted "cke_widget_embed_favicon" +:+ " "
            +:+ "src=" +:+ dquote +:+ "https://www.google.com/s2/favicons?domain="
            +:+ encodeURIComponent (r_url (c_response r)) +:+ dquote +:+ " "
            +:+ "onerror=" +:+ quoted "this.style.display='none'" +:+ ">"
            +:+ to_text (providerName r) +:+ "</p>"
       else EmptyString).

(** [_generateContent( response )]: the markup of the preview card, or
    [null]. *)
Definition _generateContent (r : card_response) : prop :=
  let scriptUrl := exec_script_src (to_text (r_html (c_response r))) in
  if negb (bool_decide (scriptUrl = Some iframely_script)) then None
  else
    let thumbnail := truthy_text (c_thumbnail_url r) in
    let caption :=
      match captionContent r with
      | EmptyString => EmptyString
      | String c s =>
          (if thumbnail
           then "<figcaption class=" +:+ quoted "cke_widget_embed_caption" +:+ ">"
           else "<div class=" +:+ quoted "cke_widget_embed_container cke_widget_embed_caption"
                +:+ ">")
          +:+ String c s
      end in
    let newContent :=
      (if thumbnail
       then "<figure class=" +:+ quoted "cke_widget_embed_container" +:+ ">"
            +:+ "<img class=" +:+ quoted (thumbnailClass r) +:+ " src="
            +:+ quoted (to_text (c_thumbnail_url r)) +:+ ">"
       else EmptyString)
      +:+ caption
      +:+ (match caption with
           | EmptyString => EmptyString
           | String _ _ => if thumbnail then "</figcaption>" else "</div>"
           end)
      +:+ (if thumbnail then "</figure>" else EmptyString) in
    match newContent with
    | EmptyString => None
    | String c s => Some (String c s)
    end.

End Card.

(** The response of the pipeline as [_generateContent] reads it when it has
    none of the further properties. *)
Definition plain_card (r : provider_response) : card_response :=
  {| c_response := r; c_provider_name := None; c_description := None;
     c_thumbnail_url := None |}.

(** Whether a text is empty. *)
Definition is_empty (s : string) : bool :=
  match s with EmptyString => true | String _ _ => false end.

(** Whether the card has anything to show: a thumbnail, a title, a
    description or a provider name. *)
Definition card_shows (r : card_response) : bool :=
  truthy_text (c_thumbnail_url r) || truthy_text (r_title (c_response r))
  || truthy_text (c_description r) || truthy_text (providerName r).

(** ** The widget is ready *)

(** What the listener of [ready] does to the widget and to the frame,
    outside Internet Explorer and for a widget that has a URL. *)
Inductive ready_effect :=
  | DataRestoreHtml (widget : nat)
  | RestoreContents (parent contents widget : nat)
  | AddContentCall (widget : nat) (content : prop).

(** The options [{ noNotifications: true }]. *)
Definition quiet_opts : opts :=
  {| opt_callback := false; opt_errorCallback := false; opt_noNotifications := true |}.

(** The function that the listener of [ready] gives to the promise of
    [appendIframe], run with the frame that the promise resolves with:
    [has_src] tells whether the frame has the attribute [src] and
    [documentElement] is the document element of the frame. The state is the
    page and [editor._.cachedFrameContents]. A reference that is not in the
    heap stands for no object. *)
Definition ready_then (p : FrameCache.page) (that : nat) (url : string)
    (has_src : bool) (documentElement : nat)
    (w : world) (c : gmap string (list nat))
    : completion (world * gmap string (list nat) * list ready_effect) :=
  if has_src then Normal (w, c, [])
  else
    match FrameCache.getCachedFrameContents p url c with
    | (Throw e, _) => Throw e
    | (Normal (Some contents), c1) =>
        Normal (w, FrameCache.cacheFrameContents url documentElement c1,
                [DataRestoreHtml that; RestoreContents documentElement contents that])
    | (Normal None, c1) =>
        match _getCachedResponse url w with
        | (Some x, w1) =>
            match heap w1 !! x with
            | Some r => Normal (w1, c1, [AddContentCall that (r_html r)])
            | None => Throw TypeError
            end
        | (None, _) => Normal ((loadContent that url quiet_opts w).2, c1, [])
        end
    end.

(** ** The names in the response cache *)

(** The URLs of the [loadContent] calls made so far. *)
Definition urls (w : world) : list string := map inv_url (calls w).

(** No inherited name is in use as the URL of a response: nothing is cached
    under one, no request of the transport is under way for one, and a
    deferred [finishLoading] for one holds an object without [type]. *)
Definition names_sound (w : world) : Prop :=
  (∀ url x, _cache w !! url = Some x → inherited url = false)
  ∧ (∀ k c, Jsonp.requests (jsonp w) !! k = Some c →
       ∃ url, urls w !! Jsonp.callback c = Some url ∧ inherited url = false)
  ∧ (∀ call x, (call, x) ∈ pending w →
       ∃ url, urls w !! call = Some url
              ∧ (inherited url = true → ∃ r, heap w !! x = Some r ∧ r_type r = None)).

(** * Properties *)

(** ** Strings *)

Lemma split_on_free (c : ascii) (s : string) :
  has_char c s = false → split_on c s = [s].
Proof.
  induction s as [|a t IH]; simpl; [done|].
  intros [Ha Ht]%orb_false_elim. rewrite Ha, (IH Ht). done.
Qed.

Lemma split_on_app (c : ascii) (s1 s2 : string) :
  has_char c s1 = false → split_on c (s1 +:+ String c s2) = s1 :: split_on c s2.
Proof.
  induction s1 as [|a t IH]; simpl.
  - intros _. by rewrite Ascii.eqb_refl.
  - intros [Ha Ht]%orb_false_elim. rewrite Ha, (IH Ht). done.
Qed.

Lemma has_char_app (c : ascii) (s1 s2 : string) :
  has_char c (s1 +:+ s2) = has_char c s1 || has_char c s2.
Proof.
  induction s1 as [|a t IH]; simpl; [done|]. by rewrite IH, orb_assoc.
Qed.

Lemma encode_chars_no_quote (s : string) : has_char quote_char (encode_chars s) = false.
Proof.
  induction s as [|c t IH]; simpl; [done|].
  rewrite has_char_app, IH, orb_false_r.
  repeat (case_match; [done|]). simpl. rewrite orb_false_r. done.
Qed.

Lemma entity_encode_no_quote (v : prop) : has_char quote_char (entity_encode v) = false.
Proof. destruct v; [apply encode_chars_no_quote | done]. Qed.



Lemma append_nil_l (s : string) : EmptyString +:+ s = s.
Proof. reflexivity. Qed.

Lemma append_cons (c : ascii) (s t : string) : String c s +:+ t = String c (s +:+ t).
Proof. reflexivity. Qed.

Lemma img_markup_split (src alt : string) :
  has_char quote_char src = false → has_char quote_char alt = false →
  split_on quote_char (img_markup src alt) =
    ["<img src="; src; " alt="; alt; " style="; "max-width:100%;height:auto"; " />"].
Proof.
  intros Hs Ha. unfold img_markup, dquote.
  rewrite !append_cons, !append_nil_l. simpl.
  rewrite (split_on_app _ src) by done. simpl.
  rewrite (split_on_app _ alt) by done. reflexivity.
Qed.


Lemma starts_with_cons (a b : ascii) (p t : string) :
  starts_with (String a p) (String b t) = Ascii.eqb a b && starts_with p t.
Proof. reflexivity. Qed.




(** ** The default conversion *)

Lemma or_else_default (v : prop) : or_else v EmptyString = default EmptyString v.
Proof. by destruct v as [[|c t]|]. Qed.

(** C10: for a response of type photo, the markup has the encoded [url] as
    the value of [src] and the encoded [title] as the value of [alt],
    whatever the two hold; a missing title gives the encoding of the empty
    text, which is an empty [alt] value for an encoder that makes nothing of
    nothing, and nothing is thrown. When the encoder never yields a double
    quote, the quotes of the markup are those of the template, whatever the
    provider sent. *)
Theorem photo_markup_encoded (enc : prop → string) (url : string) (x : ref)
    (h : gmap ref provider_response) (r : provider_response)
    (Hquote : ∀ v, has_char quote_char (enc v) = false)
    (Hempty : enc (Some EmptyString) = EmptyString)
    (Hx : h !! x = Some r) (Hphoto : r_type r = Some "photo") :
  ∃ markup,
    _responseToHtml enc url x h = (Normal (Some markup), h)
    ∧ markup = img_markup (enc (r_url r)) (enc (Some (default EmptyString (r_title r))))
    ∧ (∀ t, r_title r = Some t →
       markup = img_markup (enc (r_url r)) (enc (Some t))
       ∧ split_on quote_char markup =
           ["<img src="; enc (r_url r); " alt="; enc (Some t);
            " style="; "max-width:100%;height:auto"; " />"])
    ∧ (r_title r = None →
       split_on quote_char markup =
         ["<img src="; enc (r_url r); " alt="; EmptyString;
          " style="; "max-width:100%;height:auto"; " />"]).
Proof.
  exists (img_markup (enc (r_url r)) (enc (Some (default EmptyString (r_title r))))).
  split; [|split; [reflexivity|split]].
  - unfold _responseToHtml. rewrite Hx, Hphoto. simpl. by rewrite or_else_default.
  - intros t Ht. rewrite Ht. simpl. split; [done|].
    apply img_markup_split; apply Hquote.
  - intros Ht. rewrite img_markup_split by apply Hquote.
    rewrite Ht. simpl. by rewrite Hempty.
Qed.

Lemma photo_markup_encoded_witness :
  ∃ markup,
    _responseToHtml entity_encode "u" 0
      {[0 := ProviderResponse (Some "photo")
               (Some ("https://x/a.png?" +:+ dquote +:+ "><" +:+ dquote))
               (Some ("A " +:+ dquote +:+ "b" +:+ dquote +:+ " <c> & d")) None]}
    = (Normal (Some markup),
       {[0 := ProviderResponse (Some "photo")
                (Some ("https://x/a.png?" +:+ dquote +:+ "><" +:+ dquote))
                (Some ("A " +:+ dquote +:+ "b" +:+ dquote +:+ " <c> & d")) None]})
    ∧ split_on quote_char markup =
        ["<img src="; "https://x/a.png?&quot;&gt;&lt;&quot;"; " alt=";
         "A &quot;b&quot; &lt;c&gt; &amp; d";
         " style="; "max-width:100%;height:auto"; " />"].
Proof.
  edestruct (photo_markup_encoded entity_encode "u" 0
               {[0 := ProviderResponse (Some "photo")
                        (Some ("https://x/a.png?" +:+ dquote +:+ "><" +:+ dquote))
                        (Some ("A " +:+ dquote +:+ "b" +:+ dquote +:+ " <c> & d")) None]}
               (ProviderResponse (Some "photo")
                  (Some ("https://x/a.png?" +:+ dquote +:+ "><" +:+ dquote))
                  (Some ("A " +:+ dquote +:+ "b" +:+ dquote +:+ " <c> & d")) None))
    as (m & H1 & _ & H2 & _);
    [apply entity_encode_no_quote | reflexivity | apply lookup_singleton_eq
    | reflexivity | ].
  exists m. split; [exact H1 | exact (proj2 (H2 _ eq_refl))].
Defined.

(** ** Requests and worlds *)

Lemma update_request_eq (call : nat) (f : request → request) (w : world) (i : invocation) :
  calls w !! call = Some i →
  update_request call f w = with_calls (<[call := with_request f i]> (calls w)) w.
Proof. intros H. unfold update_request. by rewrite H. Qed.

Lemma update_request_lookup (call : nat) (f : request → request) (w : world) (i : invocation) :
  calls w !! call = Some i →
  calls (update_request call f w) !! call = Some (with_request f i).
Proof.
  intros H. rewrite (update_request_eq _ _ _ _ H). simpl.
  apply list_lookup_insert_eq. by eapply lookup_lt_Some.
Qed.

Lemma with_heap_same (w : world) : with_heap (heap w) w = w.
Proof. by destruct w. Qed.

Lemma resolve_task_effects (o : Aggregator.task) (t : nat * nat) (w : world) :
  ∃ l, effects (resolve_task o t w) = effects w ++ l
       ∧ Forall (λ e, is_delivery e = false) l.
Proof.
  unfold resolve_task. destruct (aggregators w !! t.1) as [tasks|].
  - destruct (Aggregator.resolve o t.2 tasks) as [tasks' [|]].
    + eexists. split; [reflexivity|].
      destruct (aggregator w); repeat constructor.
    + exists []. split; [simpl; by rewrite app_nil_r | constructor].
  - exists []. split; [by rewrite app_nil_r | constructor].
Qed.

Lemma resolve_task_cache (o : Aggregator.task) (t : nat * nat) (w : world) :
  _cache (resolve_task o t w) = _cache w ∧ heap (resolve_task o t w) = heap w
  ∧ calls (resolve_task o t w) = calls w ∧ jsonp (resolve_task o t w) = jsonp w.
Proof.
  unfold resolve_task. destruct (aggregators w !! t.1) as [tasks|]; [|done].
  destruct (Aggregator.resolve o t.2 tasks) as [tasks' [|]]; done.
Qed.




(** ** [loadContent] *)

Lemma createTask_frame (w : world) :
  calls (_createTask w).2 = calls w ∧ jsonp (_createTask w).2 = jsonp w
  ∧ effects (_createTask w).2 = effects w ∧ pending (_createTask w).2 = pending w
  ∧ heap (_createTask w).2 = heap w ∧ _cache (_createTask w).2 = _cache w
  ∧ instances (_createTask w).2 = instances w.
Proof.
  unfold _createTask, new_aggregator.
  repeat (case_match; simpl in *; simplify_eq); done.
Qed.

Lemma update_request_frame (call : nat) (f : request → request) (w : world) :
  jsonp (update_request call f w) = jsonp w
  ∧ effects (update_request call f w) = effects w
  ∧ pending (update_request call f w) = pending w
  ∧ heap (update_request call f w) = heap w
  ∧ _cache (update_request call f w) = _cache w
  ∧ instances (update_request call f w) = instances w
  ∧ aggregator (update_request call f w) = aggregator w
  ∧ aggregators (update_request call f w) = aggregators w.
Proof. unfold update_request. by destruct (calls w !! call). Qed.

Lemma sendRequest_eq (call : nat) (w : world) (i : invocation) :
  calls w !! call = Some i →
  _sendRequest call w =
    with_calls (<[call := with_request (set_cancel (Jsonp.nextNumber (jsonp w))) i]> (calls w))
      (with_jsonp (Jsonp.sendRequest call (Some call) (jsonp w)).2 w).
Proof.
  intros H. unfold _sendRequest. simpl.
  rewrite (update_request_eq _ _ _ i) by done. done.
Qed.

Lemma getCachedResponse_hit (url : string) (w : world) (x : ref) :
  _cache w !! url = Some x → _getCachedResponse url w = (Some x, w).
Proof. intros H. unfold _getCachedResponse. by rewrite H. Qed.

Lemma getCachedResponse_inherited (url : string) (w : world) :
  _cache w !! url = None → inherited url = true →
  _getCachedResponse url w =
    (Some (fresh (dom (heap w))),
     with_heap (<[fresh (dom (heap w)) := builtin]> (heap w)) w).
Proof. intros H1 H2. unfold _getCachedResponse. by rewrite H1, H2. Qed.

Lemma getCachedResponse_miss (url : string) (w : world) :
  _cache w !! url = None → inherited url = false → _getCachedResponse url w = (None, w).
Proof. intros H1 H2. unfold _getCachedResponse. by rewrite H1, H2. Qed.

(** The lookup finds nothing exactly when the URL has no response cached
    and names no inherited property. *)
Lemma getCachedResponse_none (url : string) (w : world) :
  (_getCachedResponse url w).1 = None ↔ _cache w !! url = None ∧ inherited url = false.
Proof.
  unfold _getCachedResponse.
  destruct (_cache w !! url) as [x|]; [split; [done|by intros [? ?]]|].
  destruct (inherited url); [split; [done|by intros [? ?]]|done].
Qed.

(** The lookup changes nothing but the heap, where it may enter an inherited
    value. *)
Lemma getCachedResponse_frame (url : string) (w : world) :
  _cache (_getCachedResponse url w).2 = _cache w
  ∧ jsonp (_getCachedResponse url w).2 = jsonp w
  ∧ calls (_getCachedResponse url w).2 = calls w
  ∧ pending (_getCachedResponse url w).2 = pending w
  ∧ aggregator (_getCachedResponse url w).2 = aggregator w
  ∧ aggregators (_getCachedResponse url w).2 = aggregators w
  ∧ instances (_getCachedResponse url w).2 = instances w
  ∧ effects (_getCachedResponse url w).2 = effects w
  ∧ (heap (_getCachedResponse url w).2 = heap w
     ∨ heap (_getCachedResponse url w).2 = <[fresh (dom (heap w)) := builtin]> (heap w)).
Proof.
  unfold _getCachedResponse. destruct (_cache w !! url); [by repeat split; try left|].
  destruct (inherited url); simpl; repeat split; by (left + right).
Qed.

(** What [loadContent] leaves as it is. *)
Lemma loadContent_frame (t : nat) (url : string) (o : opts) (w : world) :
  heap (loadContent t url o w).2 = heap (_getCachedResponse url w).2
  ∧ _cache (loadContent t url o w).2 = _cache w
  ∧ effects (loadContent t url o w).2 = effects w
  ∧ instances (loadContent t url o w).2 = instances w.
Proof.
  pose proof (getCachedResponse_frame url w) as (Hc0 & _ & _ & _ & _ & _ & Hi0 & He0 & _).
  unfold loadContent. destruct (_getCachedResponse url w) as [[x|] wl]; simpl in *; [done|].
  unfold _sendRequest. simpl.
  match goal with
  | |- context [update_request ?c ?f ?w'] =>
      pose proof (update_request_frame c f w') as (_ & -> & _ & -> & -> & -> & _)
  end. simpl.
  destruct (negb (opt_noNotifications o)); [|done].
  match goal with
  | |- context [_createTask ?w'] =>
      pose proof (createTask_frame w') as (_ & _ & He & _ & Hh & Hc & Hi);
      destruct (_createTask w') as [t' w'']
  end.
  match goal with
  | |- context [update_request ?c ?f ?w'] =>
      pose proof (update_request_frame c f w') as (_ & -> & _ & -> & -> & -> & _)
  end. simpl in *. by rewrite He, Hh, Hc, Hi.
Qed.

Lemma getCachedResponse_none_cache (url : string) (w w' : world) :
  _cache w' = _cache w → (_getCachedResponse url w).1 = None →
  (_getCachedResponse url w').1 = None.
Proof. intros Hc. rewrite !getCachedResponse_none, Hc. done. Qed.

(** [loadContent] for a URL for which the lookup finds nothing. *)
Lemma loadContent_sent (that0 : nat) (url : string) (o : opts) (w : world) :
  (_getCachedResponse url w).1 = None →
  let call := length (calls w) in
  let k := Jsonp.nextNumber (jsonp w) in
  (loadContent that0 url o w).1 = Some call
  ∧ (∃ i, calls (loadContent that0 url o w).2 !! call = Some i
          ∧ that i = that0 ∧ inv_url i = url ∧ inv_opts i = o
          ∧ req_url (inv_request i) = url
          ∧ req_cancel (inv_request i) = Some k)
  ∧ jsonp (loadContent that0 url o w).2 = (Jsonp.sendRequest call (Some call) (jsonp w)).2
  ∧ k ∈ Jsonp.jsonpCallbacks (jsonp (loadContent that0 url o w).2)
  ∧ Jsonp.body (jsonp (loadContent that0 url o w).2) = Jsonp.body (jsonp w) ++ [k].
Proof.
  intros [Hc Hn]%getCachedResponse_none.
  unfold loadContent. rewrite (getCachedResponse_miss url w Hc Hn).
  simpl. split; [done|].
  set (i0 := {| that := that0; inv_url := url; inv_opts := o;
                inv_request := {| req_noNotifications := opt_noNotifications o;
                                  req_url := url; req_task := None;
                                  req_response := None; req_cancel := None |} |}).
  set (w0 := with_calls (calls w ++ [i0]) w).
  assert (H0 : calls w0 !! length (calls w) = Some i0).
  { simpl. by rewrite lookup_app_r, Nat.sub_diag by lia. }
  assert (∃ w1 i1, (if negb (opt_noNotifications o)
                    then let '(t, w') := _createTask w0 in
                         update_request (length (calls w)) (set_task t) w'
                    else w0) = w1
                   ∧ calls w1 !! length (calls w) = Some i1
                   ∧ that i1 = that0 ∧ inv_url i1 = url ∧ inv_opts i1 = o
                   ∧ req_url (inv_request i1) = url
                   ∧ jsonp w1 = jsonp w) as (w1 & i1 & -> & Hi1 & ? & ? & ? & ? & Hj).
  { destruct (opt_noNotifications o); simpl.
    - exists w0, i0. done.
    - destruct (_createTask w0) as [t w'] eqn:E.
      pose proof (createTask_frame w0) as (Hc0 & Hj & _). rewrite E in Hc0, Hj. simpl in *.
      assert (Hl : calls w' !! length (calls w) = Some i0) by (by rewrite Hc0).
      eexists _, _. split; [reflexivity|].
      rewrite (update_request_lookup _ _ _ _ Hl).
      pose proof (update_request_frame (length (calls w)) (set_task t) w') as (-> & _).
      done. }
  rewrite (sendRequest_eq _ _ _ Hi1). simpl. rewrite Hj.
  split; [|split; [|split]]; [|done|set_solver|done].
  eexists. split; [apply list_lookup_insert_eq; by eapply lookup_lt_Some|done].
Qed.

(** C7 fails on the code: nothing has been cached on the page, and yet
    [loadContent] for the URL [constructor] returns [undefined] and sends
    no request, because the lookup in [_cache] finds the property of that
    name that every object inherits; the deferred [finishLoading] then
    reports [unsupportedUrl] to the caller. It is so for every inherited
    name. For every other URL the claim holds: with a cached response
    [loadContent] returns [undefined] and leaves the transport as it is (no
    callback key is taken, no callback is registered, no script is
    appended); without one it returns the request, which has been handed to
    [Jsonp.sendRequest]. *)
Theorem inherited_name_is_never_requested :
  _cache initial = ∅
  ∧ (loadContent 7 "constructor" sample_opts initial).1 = None
  ∧ jsonp (loadContent 7 "constructor" sample_opts initial).2 = jsonp initial
  ∧ effects (run entity_encode (λ _, None) false initial
               [WidgetCreated 7; Load 7 "constructor" sample_opts; CachedTimeout])
    = [OptsErrorCallback 0 (Some "unsupportedUrl")]
  ∧ ∀ (that0 : nat) (url : string) (o : opts) (w : world),
      match _cache w !! url with
      | Some _ =>
          (loadContent that0 url o w).1 = None
          ∧ jsonp (loadContent that0 url o w).2 = jsonp w
      | None =>
          if inherited url
          then (loadContent that0 url o w).1 = None
               ∧ jsonp (loadContent that0 url o w).2 = jsonp w
               ∧ aggregators (loadContent that0 url o w).2 = aggregators w
               ∧ ∃ x, pending (loadContent that0 url o w).2 =
                        pending w ++ [(length (calls w), x)]
                      ∧ heap (loadContent that0 url o w).2 !! x = Some builtin
          else
            let call := length (calls w) in
            let k := Jsonp.nextNumber (jsonp w) in
            (loadContent that0 url o w).1 = Some call
            ∧ (∃ i, calls (loadContent that0 url o w).2 !! call = Some i
                    ∧ that i = that0 ∧ inv_url i = url ∧ inv_opts i = o
                    ∧ req_url (inv_request i) = url
                    ∧ req_cancel (inv_request i) = Some k)
            ∧ jsonp (loadContent that0 url o w).2 =
                (Jsonp.sendRequest call (Some call) (jsonp w)).2
            ∧ k ∈ Jsonp.jsonpCallbacks (jsonp (loadContent that0 url o w).2)
            ∧ Jsonp.body (jsonp (loadContent that0 url o w).2) = Jsonp.body (jsonp w) ++ [k]
      end.
Proof.
  split; [reflexivity|]. split; [reflexivity|]. split; [reflexivity|].
  split; [vm_compute; reflexivity|].
  intros that0 url o w. destruct (_cache w !! url) as [x|] eqn:Hc.
  - unfold loadContent. by rewrite (getCachedResponse_hit url w x Hc).
  - destruct (inherited url) eqn:Hn.
    + unfold loadContent. rewrite (getCachedResponse_inherited url w Hc Hn).
      simpl. repeat (split; [done|]).
      eexists. split; [done|]. apply lookup_insert_eq.
    + apply loadContent_sent. by apply getCachedResponse_none.
Qed.

(** C2: with a cached response, [loadContent] has no effect of its own: it
    calls no callback, installs nothing and leaves the transport alone; it
    hands [finishLoading( cachedResponse )] to [setTimeout], after the
    functions that are already waiting, and that function runs in a later
    turn of the scheduler. *)
Theorem loadContent_cache_hit_is_deferred (enc : prop → string)
    (gen : provider_response → prop) (ie : bool)
    (that0 : nat) (url : string) (o : opts) (w : world) (x : ref)
    (Hhit : _cache w !! url = Some x) :
  let w' := (loadContent that0 url o w).2 in
  let call := length (calls w) in
  effects w' = effects w
  ∧ pending w' = pending w ++ [(call, x)]
  ∧ jsonp w' = jsonp w
  ∧ heap w' = heap w ∧ _cache w' = _cache w ∧ aggregators w' = aggregators w
  ∧ (pending w = [] →
     step enc gen ie w' CachedTimeout =
       finishLoading enc gen ie call x (with_pending [] w')).
Proof.
  unfold loadContent. rewrite (getCachedResponse_hit url w x Hhit). simpl.
  repeat split; try done.
  intros ->. reflexivity.
Qed.

Lemma loadContent_cache_hit_is_deferred_witness :
  effects (loadContent 7 "https://vid.example/1" sample_opts sample_loaded).2 =
    effects sample_loaded
  ∧ pending (loadContent 7 "https://vid.example/1" sample_opts sample_loaded).2 = [(1, 0)]
  ∧ jsonp (loadContent 7 "https://vid.example/1" sample_opts sample_loaded).2 =
      jsonp sample_loaded.
Proof.
  assert (H : _cache sample_loaded !! "https://vid.example/1" = Some 0)
    by (vm_compute; reflexivity).
  destruct (loadContent_cache_hit_is_deferred entity_encode (λ _, None) false
              7 "https://vid.example/1" sample_opts sample_loaded 0 H)
    as (H1 & H2 & H3 & _).
  split; [exact H1|split; [exact H2|exact H3]].
Defined.

(** ** Responses that arrive late *)

Lemma resolve_task_resolved (o : Aggregator.task) (a t : nat) (w : world)
    (tasks : list Aggregator.task) :
  o ≠ Aggregator.Outstanding →
  aggregators w !! a = Some tasks → t < length tasks →
  ∃ tasks', aggregators (resolve_task o (a, t) w) !! a = Some tasks'
            ∧ ∃ s, tasks' !! t = Some s ∧ s ≠ Aggregator.Outstanding.
Proof.
  intros Ho Ha Ht. unfold resolve_task. simpl. rewrite Ha.
  unfold Aggregator.resolve.
  destruct (lookup_lt_is_Some_2 tasks t Ht) as [s Hs]. rewrite Hs.
  assert (Hlt : a < length (aggregators w)) by (by eapply lookup_lt_Some).
  destruct s.
  - exists (<[t := o]> tasks). split.
    + destruct (Aggregator.isFinished (<[t:=o]> tasks)); simpl;
        by rewrite list_lookup_insert_eq.
    + exists o. split; [by rewrite list_lookup_insert_eq | done].
  - exists tasks. split; [simpl; by rewrite list_lookup_insert_eq|].
    by exists Aggregator.Done.
  - exists tasks. split; [simpl; by rewrite list_lookup_insert_eq|].
    by exists Aggregator.Canceled.
Qed.

(** C8: when the widget of the call is no longer in
    [editor.widgets.instances], [finishLoading] warns and returns: it calls
    neither callback, installs no content and shows no notification, and it
    leaves the heap and the response cache as they are; the task of the
    request, when there is one, is resolved with [done()]. *)
Theorem stale_response_is_discarded (enc : prop → string)
    (gen : provider_response → prop) (ie : bool)
    (call : nat) (x : ref) (w : world) (i : invocation)
    (Hcall : calls w !! call = Some i) (Hgone : that i ∉ instances w) :
  let w' := finishLoading enc gen ie call x w in
  (∃ l, effects w' = effects w ++ Warn "embedbase-widget-invalid" :: l
        ∧ Forall (λ e, is_delivery e = false) l)
  ∧ heap w' = heap w ∧ _cache w' = _cache w ∧ jsonp w' = jsonp w
  ∧ w' = match req_task (inv_request i) with
         | Some t => resolve_task Aggregator.Done t
                       (emit [Warn "embedbase-widget-invalid"]
                          (update_request call (set_response x) w))
         | None => emit [Warn "embedbase-widget-invalid"]
                     (update_request call (set_response x) w)
         end
  ∧ (∀ a t tasks, req_task (inv_request i) = Some (a, t) →
       aggregators w !! a = Some tasks → t < length tasks →
       ∃ tasks', aggregators w' !! a = Some tasks'
                 ∧ ∃ s, tasks' !! t = Some s ∧ s ≠ Aggregator.Outstanding).
Proof.
  simpl. unfold finishLoading. rewrite Hcall.
  pose proof (update_request_frame call (set_response x) w)
    as (Hj & He & Hp & Hh & Hc & Hi & Ha & Has).
  rewrite Hi. rewrite decide_False by done.
  set (w1 := update_request call (set_response x) w) in *.
  destruct (req_task (inv_request i)) as [[a t]|] eqn:Et.
  - pose proof (resolve_task_effects Aggregator.Done (a, t)
                  (emit [Warn "embedbase-widget-invalid"] w1)) as (l & Hl & HF).
    pose proof (resolve_task_cache Aggregator.Done (a, t)
                  (emit [Warn "embedbase-widget-invalid"] w1)) as (H1 & H2 & H3 & H4).
    split; [|split; [|split; [|split; [|split]]]].
    + exists l. split; [|done]. rewrite Hl. simpl. rewrite He.
      by rewrite <- app_assoc.
    + rewrite H2. simpl. done.
    + rewrite H1. simpl. done.
    + rewrite H4. simpl. done.
    + done.
    + intros a' t' tasks [= <- <-] Hta Hlt.
      apply (resolve_task_resolved _ _ _ _ tasks); [done| |done].
      simpl. by rewrite Has.
  - split; [|split; [|split; [|split; [|split]]]]; simpl; try done.
    exists []. simpl. by rewrite He.
Qed.

Lemma stale_response_is_discarded_witness :
  _cache (finishLoading entity_encode (λ _, None) false 0 0 sample_stale) =
    _cache sample_stale
  ∧ ∃ tasks', aggregators (finishLoading entity_encode (λ _, None) false 0 0 sample_stale)
                !! 0 = Some tasks'
              ∧ ∃ s, tasks' !! 0 = Some s ∧ s ≠ Aggregator.Outstanding.
Proof.
  assert (Hcall : calls sample_stale !! 0 =
            Some {| that := 7; inv_url := "https://vid.example/1"; inv_opts := sample_opts;
                    inv_request := {| req_noNotifications := false;
                                      req_url := "https://vid.example/1";
                                      req_task := Some (0, 0); req_response := None;
                                      req_cancel := Some 0 |} |})
    by (vm_compute; reflexivity).
  assert (Hgone : 7 ∉ instances sample_stale).
  { apply (bool_decide_eq_false_1 (7 ∈ instances sample_stale)). vm_compute. reflexivity. }
  destruct (stale_response_is_discarded entity_encode (λ _, None) false 0 0
              sample_stale _ Hcall Hgone) as (_ & _ & Hc & _ & _ & Ht).
  split; [exact Hc|].
  apply (Ht 0 0 [Aggregator.Outstanding]); [reflexivity | vm_compute; reflexivity | simpl; lia].
Defined.

(** ** The transport *)

Lemma cleanUp_noop (k : nat) (s : Jsonp.state) : cleaned k s → Jsonp.cleanUp k s = s.
Proof. intros (c & Hc & Hn). unfold Jsonp.cleanUp. by rewrite Hc, Hn. Qed.

Lemma cleanUp_cleans (k el : nat) (c : Jsonp.closure) (s : Jsonp.state) :
  Jsonp.requests s !! k = Some c → Jsonp.scriptElement c = Some el →
  (k ∉ Jsonp.jsonpCallbacks (Jsonp.cleanUp k s))
  ∧ (el ∉ Jsonp.body (Jsonp.cleanUp k s))
  ∧ cleaned k (Jsonp.cleanUp k s).
Proof.
  intros Hc He. unfold Jsonp.cleanUp. rewrite Hc, He. simpl.
  split; [|split].
  - intros [_ H]%elem_of_difference. by apply H, elem_of_singleton.
  - rewrite list_elem_of_filter. tauto.
  - eexists. split; [apply lookup_insert_eq | done].
Qed.

Lemma cleanUp_idem (k : nat) (s : Jsonp.state) :
  Jsonp.cleanUp k (Jsonp.cleanUp k s) = Jsonp.cleanUp k s.
Proof.
  destruct (Jsonp.requests s !! k) as [c|] eqn:Hc.
  - destruct (Jsonp.scriptElement c) as [el|] eqn:He.
    + apply cleanUp_noop. by eapply cleanUp_cleans.
    + rewrite (cleanUp_noop k s); [|by exists c]. apply cleanUp_noop. by exists c.
  - assert (Hs : Jsonp.cleanUp k s = s) by (unfold Jsonp.cleanUp; by rewrite Hc).
    by rewrite !Hs.
Qed.

Lemma cleanUp_retired (k el k' : nat) (s : Jsonp.state) :
  retired k el s → retired k el (Jsonp.cleanUp k' s).
Proof.
  intros (Hc & Hk & Hb). destruct (decide (k' = k)) as [->|Hne].
  - rewrite cleanUp_noop by done. done.
  - unfold Jsonp.cleanUp. destruct (Jsonp.requests s !! k') as [c'|]; [|done].
    destruct (Jsonp.scriptElement c') as [el'|]; [|done].
    destruct Hc as (c & Hc & Hn). split; [|split]; simpl.
    + exists c. simpl. by rewrite lookup_insert_ne.
    + by intros [H _]%elem_of_difference.
    + rewrite list_elem_of_filter. tauto.
Qed.

Lemma step_retired (k el : nat) (s : Jsonp.state) (e : Jsonp.event) :
  retired k el s → retired k el (Jsonp.step s e).1.
Proof.
  intros H. destruct e as [k' r|k'| |k']; simpl.
  - case_decide; done.
  - by apply cleanUp_retired.
  - destruct (Jsonp.timeouts s) as [|[k' r] rest]; [done|]. simpl.
    by apply cleanUp_retired.
  - by apply cleanUp_retired.
Qed.

Lemma run_retired (k el : nat) (es : list Jsonp.event) (s : Jsonp.state) :
  retired k el s → retired k el (Jsonp.run s es).1.
Proof.
  revert s. induction es as [|e es IH]; intros s H; [done|]. simpl.
  pose proof (step_retired k el s e H) as H1.
  destruct (Jsonp.step s e) as [s1 c1]. specialize (IH s1 H1).
  destruct (Jsonp.run s1 es) as [s2 c2]. done.
Qed.

(** C6: the first of success (the deferred callback runs), error and cancel
    removes the callback from the registry and the script from the body and
    sets [scriptElement] to [null]; whatever happens afterwards, the request
    stays that way, a clean-up changes nothing, and [cancel()] changes
    nothing and calls nothing (so neither throws nor calls the error
    callback). Cleaning up twice is the same as cleaning up once. *)
Theorem cleanup_is_idempotent (s : Jsonp.state) (k el : nat) (c : Jsonp.closure)
    (e : Jsonp.event) (es : list Jsonp.event)
    (Hk : Jsonp.requests s !! k = Some c) (Hel : Jsonp.scriptElement c = Some el)
    (He : e = Jsonp.Cancel k ∨ e = Jsonp.ScriptError k
          ∨ (e = Jsonp.Timeout ∧ ∃ r rest, Jsonp.timeouts s = (k, r) :: rest)) :
  let s1 := (Jsonp.step s e).1 in
  let s2 := (Jsonp.run s1 es).1 in
  ((k ∉ Jsonp.jsonpCallbacks s1) ∧ (el ∉ Jsonp.body s1) ∧ cleaned k s1)
  ∧ ((k ∉ Jsonp.jsonpCallbacks s2) ∧ (el ∉ Jsonp.body s2) ∧ cleaned k s2)
  ∧ Jsonp.cleanUp k s2 = s2
  ∧ Jsonp.step s2 (Jsonp.Cancel k) = (s2, [])
  ∧ ∀ s', Jsonp.cleanUp k (Jsonp.cleanUp k s') = Jsonp.cleanUp k s'.
Proof.
  simpl.
  assert (H1 : retired k el (Jsonp.step s e).1).
  { unfold retired.
    destruct He as [-> | [-> | (-> & r & rest & Ht)]]; simpl.
    - pose proof (cleanUp_cleans k el c s Hk Hel). tauto.
    - pose proof (cleanUp_cleans k el c s Hk Hel). tauto.
    - rewrite Ht. simpl.
      pose proof (cleanUp_cleans k el c
        {| Jsonp.nextNumber := Jsonp.nextNumber s;
           Jsonp.jsonpCallbacks := Jsonp.jsonpCallbacks s;
           Jsonp.body := Jsonp.body s; Jsonp.requests := Jsonp.requests s;
           Jsonp.timeouts := rest |} Hk Hel). tauto. }
  pose proof (run_retired k el es _ H1) as H2.
  split; [unfold retired in H1; tauto|].
  split; [unfold retired in H2; tauto|].
  destruct H2 as (Hc & _).
  split; [by apply cleanUp_noop|].
  split; [simpl; by rewrite cleanUp_noop|].
  apply cleanUp_idem.
Qed.

Lemma cleanup_is_idempotent_witness :
  Jsonp.step (Jsonp.run (Jsonp.step sample_sent (Jsonp.ProviderCalls 0 5)).1
                [Jsonp.Timeout]).1 (Jsonp.Cancel 0)
  = ((Jsonp.run (Jsonp.step sample_sent (Jsonp.ProviderCalls 0 5)).1 [Jsonp.Timeout]).1, []).
Proof.
  pose proof (cleanup_is_idempotent
                (Jsonp.step sample_sent (Jsonp.ProviderCalls 0 5)).1 0 0
                {| Jsonp.scriptElement := Some 0; Jsonp.callback := 0;
                   Jsonp.errorCallback := Some 0 |}
                Jsonp.Timeout []) as H.
  simpl in H. apply H.
  - vm_compute. reflexivity.
  - reflexivity.
  - right. right. split; [reflexivity|]. exists 5, []. vm_compute. reflexivity.
Defined.

Lemma count_if_app {A : Type} (p : A → bool) (l1 l2 : list A) :
  count_if p (l1 ++ l2) = count_if p l1 + count_if p l2.
Proof. induction l1 as [|x l1 IH]; simpl; [done|]. rewrite IH. lia. Qed.

Lemma run_app (s : Jsonp.state) (es1 es2 : list Jsonp.event) :
  Jsonp.run s (es1 ++ es2) =
    ((Jsonp.run (Jsonp.run s es1).1 es2).1,
     (Jsonp.run s es1).2 ++ (Jsonp.run (Jsonp.run s es1).1 es2).2).
Proof.
  revert s. induction es1 as [|e es1 IH]; intros s; simpl.
  - by destruct (Jsonp.run s es2).
  - destruct (Jsonp.step s e) as [s1 c1]. rewrite IH.
    destruct (Jsonp.run s1 es1) as [s2 c2]. simpl.
    by rewrite app_assoc.
Qed.

Lemma run_step (s : Jsonp.state) (e : Jsonp.event) (es : list Jsonp.event) :
  Jsonp.run s (e :: es) =
    ((Jsonp.run (Jsonp.step s e).1 es).1,
     (Jsonp.step s e).2 ++ (Jsonp.run (Jsonp.step s e).1 es).2).
Proof.
  simpl. destruct (Jsonp.step s e) as [s1 c1]. simpl.
  by destruct (Jsonp.run s1 es) as [s2 c2].
Qed.

Lemma cleanUp_timeouts (k : nat) (s : Jsonp.state) :
  Jsonp.timeouts (Jsonp.cleanUp k s) = Jsonp.timeouts s.
Proof.
  unfold Jsonp.cleanUp. destruct (Jsonp.requests s !! k) as [c|]; [|done].
  by destruct (Jsonp.scriptElement c).
Qed.

(** Each call of a callback of request [k] uses up a completion signal of
    its exchange, or a deferred callback that was already waiting. *)
Lemma calls_bounded (k : nat) (es : list Jsonp.event) (s : Jsonp.state) :
  (count_if (is_call_of k) (Jsonp.run s es).2 ≤ timers_of k s + count_if (is_signal k) es)%nat.
Proof.
  revert s. induction es as [|e es IH]; intros s; simpl; [lia|].
  destruct (Jsonp.step s e) as [s1 c1] eqn:Es.
  specialize (IH s1). destruct (Jsonp.run s1 es) as [s2 c2]. simpl in *.
  rewrite count_if_app.
  assert (count_if (is_call_of k) c1 + timers_of k s1
          ≤ timers_of k s + (if is_signal k e then 1 else 0))%nat; [|lia].
  clear IH. unfold timers_of.
  destruct e as [k' r|k'| |k']; simpl in Es.
  - case_decide; simplify_eq; simpl; [|lia].
    rewrite count_if_app. simpl. case_bool_decide; lia.
  - unfold Jsonp.onError in Es. simplify_eq. rewrite cleanUp_timeouts. simpl.
    destruct (Jsonp.requests s !! k') as [c|]; [|simpl; lia].
    destruct (Jsonp.errorCallback c); simpl; case_bool_decide; lia.
  - destruct (Jsonp.timeouts s) as [|[k' r] rest] eqn:Et.
    + simplify_eq. rewrite Et. simpl. lia.
    + unfold Jsonp.deferred in Es. simplify_eq. rewrite cleanUp_timeouts. simpl.
      destruct (Jsonp.requests s !! k'); simpl; case_bool_decide; lia.
  - simplify_eq. rewrite cleanUp_timeouts. simpl. lia.
Qed.

Lemma cleanUp_off (k k' : nat) (s : Jsonp.state) : off k s → off k (Jsonp.cleanUp k' s).
Proof.
  intros [Hc Hk]. destruct (decide (k' = k)) as [->|Hne];
    [by rewrite cleanUp_noop|].
  unfold Jsonp.cleanUp. destruct (Jsonp.requests s !! k') as [c'|]; [|done].
  destruct (Jsonp.scriptElement c') as [el'|]; [|done].
  destruct Hc as (c & Hc & Hn). split.
  - exists c. simpl. by rewrite lookup_insert_ne.
  - simpl. by intros [H _]%elem_of_difference.
Qed.

Lemma cleanUp_live (k k' : nat) (s : Jsonp.state) :
  live k s → if decide (k' = k) then off k (Jsonp.cleanUp k' s)
             else live k (Jsonp.cleanUp k' s).
Proof.
  intros (c & el & Hc & He). case_decide as Hk.
  - subst k'. pose proof (cleanUp_cleans k el c s Hc He). unfold off. tauto.
  - unfold Jsonp.cleanUp. destruct (Jsonp.requests s !! k') as [c'|]; [|by exists c, el].
    destruct (Jsonp.scriptElement c') as [el'|]; [|by exists c, el].
    exists c, el. simpl. by rewrite lookup_insert_ne.
Qed.

(** The state of a request after a turn: a request that is off stays off,
    a live request stays live or goes off, and [cancel()] turns it off. *)
Lemma step_state (k : nat) (s : Jsonp.state) (e : Jsonp.event) :
  (off k s → off k (Jsonp.step s e).1)
  ∧ (live k s → live k (Jsonp.step s e).1 ∨ off k (Jsonp.step s e).1)
  ∧ (live k s ∨ off k s → is_cancel k e = true → off k (Jsonp.step s e).1).
Proof.
  assert (Hany : ∀ k' s', (off k s' → off k (Jsonp.cleanUp k' s'))
                 ∧ (live k s' → live k (Jsonp.cleanUp k' s') ∨ off k (Jsonp.cleanUp k' s'))).
  { intros k' s'. split; [apply cleanUp_off|].
    intros H. pose proof (cleanUp_live k k' s' H) as H'. case_decide; tauto. }
  destruct e as [k' r|k'| |k']; simpl.
  - case_decide; simpl; (split; [done|split; [by left|done]]).
  - split; [apply Hany|split; [apply Hany|done]].
  - destruct (Jsonp.timeouts s) as [|[k' r] rest]; simpl;
      [split; [done|split; [by left|done]]|].
    split; [|split; [|done]].
    + intros H. by apply (proj1 (Hany k' _)).
    + intros H. by apply (proj2 (Hany k' _)).
  - split; [apply Hany|split; [apply Hany|]].
    intros H Hk%bool_decide_eq_true. subst k'. destruct H as [H|H].
    + pose proof (cleanUp_live k k s H) as H'. by rewrite decide_True in H'.
    + by apply cleanUp_off.
Qed.

(** Deferred callbacks of request [k] appear only when the provider script
    calls the registered callback. *)
Lemma step_timers (k : nat) (s : Jsonp.state) (e : Jsonp.event) :
  timers_of k s = 0 →
  is_provider_call k e = false ∨ (k ∉ Jsonp.jsonpCallbacks s) →
  timers_of k (Jsonp.step s e).1 = 0
  ∧ count_if (is_success k) (Jsonp.step s e).2 = 0
  ∧ (is_script_error k e = false → count_if (is_call_of k) (Jsonp.step s e).2 = 0).
Proof.
  unfold timers_of. intros Ht He.
  destruct e as [k' r|k'| |k']; simpl.
  - case_decide as Hin; simpl; [|done].
    rewrite count_if_app, Ht. simpl.
    rewrite bool_decide_false; [done|].
    intros ->. destruct He as [He|He]; [|done].
    simpl in He. by apply bool_decide_eq_false in He.
  - rewrite cleanUp_timeouts. split; [done|].
    destruct (Jsonp.requests s !! k') as [c|]; [|done].
    destruct (Jsonp.errorCallback c); simpl; [|done].
    split; [done|]. by intros ->.
  - destruct (Jsonp.timeouts s) as [|[k' r] rest] eqn:Et;
      [simpl; by rewrite Et|]. simpl in *.
    rewrite cleanUp_timeouts. simpl.
    destruct (decide (k' = k)) as [Heq|Hne];
      [rewrite bool_decide_true in Ht by done; simpl in Ht; lia|].
    rewrite bool_decide_false in Ht by done. simpl in Ht.
    split; [done|].
    destruct (Jsonp.requests s !! k'); simpl; [|done].
    by rewrite bool_decide_false.
  - by rewrite cleanUp_timeouts.
Qed.

(** Once request [k] is off and none of its deferred callbacks is waiting,
    its success callback is never called, and no callback of it at all as
    long as its script element signals no error. *)
Lemma run_off (k : nat) (es : list Jsonp.event) (s : Jsonp.state) :
  off k s → timers_of k s = 0 →
  count_if (is_success k) (Jsonp.run s es).2 = 0
  ∧ (existsb (is_script_error k) es = false →
     count_if (is_call_of k) (Jsonp.run s es).2 = 0).
Proof.
  revert s. induction es as [|e es IH]; intros s Hoff Ht; [done|]. simpl.
  pose proof (step_state k s e) as (Hs & _).
  pose proof (step_timers k s e Ht (or_intror (proj2 Hoff))) as (Ht' & Hsucc & Hcall).
  destruct (Jsonp.step s e) as [s1 c1]. simpl in *.
  specialize (IH s1 (Hs Hoff) Ht') as [IH1 IH2].
  destruct (Jsonp.run s1 es) as [s2 c2]. simpl in *.
  rewrite !count_if_app, Hsucc, IH1. split; [done|].
  intros [He Hes]%orb_false_elim. by rewrite Hcall, IH2.
Qed.

(** Before the provider script calls the registered callback, no deferred
    callback of the request is waiting and its success callback is not
    called. *)
Lemma run_before_response (k : nat) (es : list Jsonp.event) (s : Jsonp.state) :
  live k s ∨ off k s → timers_of k s = 0 →
  existsb (is_provider_call k) es = false →
  (live k (Jsonp.run s es).1 ∨ off k (Jsonp.run s es).1)
  ∧ timers_of k (Jsonp.run s es).1 = 0
  ∧ count_if (is_success k) (Jsonp.run s es).2 = 0.
Proof.
  revert s. induction es as [|e es IH]; intros s Hs Ht Hes; [done|]. simpl in *.
  apply orb_false_elim in Hes as [He Hes].
  pose proof (step_state k s e) as (Hoff & Hlive & _).
  pose proof (step_timers k s e Ht (or_introl He)) as (Ht' & Hsucc & _).
  destruct (Jsonp.step s e) as [s1 c1]. simpl in *.
  assert (Hs1 : live k s1 ∨ off k s1) by (destruct Hs; [auto | right; auto]).
  specialize (IH s1 Hs1 Ht' Hes) as (IH1 & IH2 & IH3).
  destruct (Jsonp.run s1 es) as [s2 c2]. simpl in *.
  rewrite count_if_app, Hsucc, IH3. done.
Qed.

Lemma keys_below_initial : keys_below Jsonp.initial.
Proof.
  split; [|split]; simpl.
  - intros t H. by apply elem_of_nil in H.
  - intros k H. by apply elem_of_empty in H.
  - intros k [c H]. by rewrite lookup_empty in H.
Qed.

Lemma keys_below_sendRequest (f : nat) (g : option nat) (s : Jsonp.state) :
  keys_below s → keys_below (Jsonp.sendRequest f g s).2.
Proof.
  intros (Ht & Hk & Hr). split; [|split]; simpl.
  - intros t H. specialize (Ht t H). lia.
  - intros k [H|H]%elem_of_union.
    + apply elem_of_singleton in H. lia.
    + specialize (Hk k H). lia.
  - intros k H. destruct (decide (Jsonp.nextNumber s = k)) as [<-|Hne]; [lia|].
    rewrite lookup_insert_ne in H by done. specialize (Hr k H). lia.
Qed.

Lemma keys_below_cleanUp (k : nat) (s : Jsonp.state) :
  keys_below s → keys_below (Jsonp.cleanUp k s).
Proof.
  intros (Ht & Hk & Hr). unfold Jsonp.cleanUp.
  destruct (Jsonp.requests s !! k) as [c|] eqn:Hc; [|done].
  destruct (Jsonp.scriptElement c); [|done].
  split; [|split]; simpl.
  - done.
  - intros k' [H _]%elem_of_difference. by apply Hk.
  - intros k' H. destruct (decide (k = k')) as [<-|Hne].
    + apply Hr. by exists c.
    + rewrite lookup_insert_ne in H by done. by apply Hr.
Qed.

Lemma keys_below_step (s : Jsonp.state) (e : Jsonp.event) :
  keys_below s → keys_below (Jsonp.step s e).1.
Proof.
  intros H. destruct e as [k r|k| |k]; simpl.
  - case_decide as Hin; [|done]. destruct H as (Ht & Hk & Hr).
    split; [|split]; simpl; [|done|done].
    intros t [Hin'|Hin']%elem_of_app; [by apply Ht|].
    apply list_elem_of_singleton in Hin' as ->. by apply Hk.
  - by apply keys_below_cleanUp.
  - destruct (Jsonp.timeouts s) as [|[k r] rest] eqn:Et; [done|]. simpl.
    apply keys_below_cleanUp. destruct H as (Ht & Hk & Hr).
    split; [|split]; simpl; [|done|done].
    intros t Hin. apply Ht. rewrite Et. by right.
  - by apply keys_below_cleanUp.
Qed.

(** The next callback key is fresh: no deferred callback waits for it. *)
Lemma keys_below_fresh (s : Jsonp.state) :
  keys_below s → timers_of (Jsonp.nextNumber s) s = 0.
Proof.
  intros (Ht & _). unfold timers_of.
  induction (Jsonp.timeouts s) as [|t l IH]; [done|]. simpl.
  rewrite bool_decide_false.
  - apply IH. intros t' H. apply Ht. by right.
  - specialize (Ht t (list_elem_of_here _ _)). lia.
Qed.

(** What holds of the callbacks of a request that has been sent:
    [cancel()] calls none; each call of its success or error callback
    answers one completion signal of its exchange; and when [cancel()] is
    called before the provider script has called the registered callback,
    the success callback is never called, nor any callback after the cancel
    unless the script element still signals an error. *)
Lemma sent_request_callbacks (s0 : Jsonp.state) (f : nat) (g : option nat)
    (Hfresh : timers_of (Jsonp.nextNumber s0) s0 = 0) :
  let k := Jsonp.nextNumber s0 in
  let s := (Jsonp.sendRequest f g s0).2 in
  (∀ s', (Jsonp.step s' (Jsonp.Cancel k)).2 = [])
  ∧ (∀ es, (count_if (is_call_of k) (Jsonp.run s es).2 ≤ count_if (is_signal k) es)%nat)
  ∧ (∀ pre post, existsb (is_provider_call k) pre = false →
       count_if (is_success k) (Jsonp.run s (pre ++ Jsonp.Cancel k :: post)).2 = 0
       ∧ (existsb (is_script_error k) post = false →
          count_if (is_call_of k)
            (Jsonp.run (Jsonp.run s (pre ++ [Jsonp.Cancel k])).1 post).2 = 0)).
Proof.
  intros k s.
  assert (Ht : timers_of k s = 0) by exact Hfresh.
  assert (Hl : live k s).
  { eexists _, k. split; [apply lookup_insert_eq | done]. }
  clearbody s.
  split; [done|split].
  - intros es. pose proof (calls_bounded k es s) as H. rewrite Ht in H. exact H.
  - intros pre post Hpre.
    pose proof (run_before_response k pre s (or_introl Hl) Ht Hpre) as (Hs & Htp & Hsp).
    set (sp := (Jsonp.run s pre).1) in *.
    pose proof (step_state k sp (Jsonp.Cancel k)) as (_ & _ & Hc).
    assert (Hoff : off k (Jsonp.step sp (Jsonp.Cancel k)).1).
    { apply Hc; [done|]. simpl. by apply bool_decide_eq_true. }
    pose proof (step_timers k sp (Jsonp.Cancel k) Htp (or_introl eq_refl))
      as (Htc & _ & _).
    pose proof (run_off k post _ Hoff Htc) as (Hpost1 & Hpost2).
    split.
    + rewrite run_app. simpl. fold sp.
      destruct (Jsonp.run (Jsonp.cleanUp k sp) post) as [s2 c2] eqn:E.
      simpl in *. rewrite E in Hpost1. simpl in Hpost1.
      by rewrite count_if_app, Hsp, Hpost1.
    + intros Hpost. rewrite run_app. simpl. fold sp. by apply Hpost2.
Qed.

(** A deferred callback that is already waiting when [cancel()] is called
    still runs: the function given to [setTimeout] is not withdrawn. *)
Lemma deferred_callback_outlives_cancel (s0 : Jsonp.state) (f : nat) (g : option nat)
    (r : ref) :
  Jsonp.timeouts s0 = [] →
  (Jsonp.run (Jsonp.sendRequest f g s0).2
     [Jsonp.ProviderCalls (Jsonp.nextNumber s0) r; Jsonp.Cancel (Jsonp.nextNumber s0);
      Jsonp.Timeout]).2
  = [Jsonp.Callback (Jsonp.nextNumber s0) f r].
Proof.
  intros Ht. set (k := Jsonp.nextNumber s0).
  set (s := (Jsonp.sendRequest f g s0).2).
  assert (Hin : k ∈ Jsonp.jsonpCallbacks s) by (simpl; set_solver).
  assert (Hreq : Jsonp.requests s !! k =
            Some {| Jsonp.scriptElement := Some k; Jsonp.callback := f;
                    Jsonp.errorCallback := g |}) by apply lookup_insert_eq.
  assert (Hts : Jsonp.timeouts s = []) by exact Ht.
  clearbody s.
  assert (E1 : Jsonp.step s (Jsonp.ProviderCalls k r) = (Jsonp.jsonpCallback k r s, []))
    by (simpl; by rewrite decide_True).
  set (s2 := Jsonp.cleanUp k (Jsonp.jsonpCallback k r s)).
  assert (Ht2 : Jsonp.timeouts s2 = [(k, r)]).
  { unfold s2. rewrite cleanUp_timeouts. simpl. by rewrite Hts. }
  assert (Hr2 : ∃ c, Jsonp.requests s2 !! k = Some c ∧ Jsonp.callback c = f).
  { unfold s2, Jsonp.cleanUp. simpl. rewrite Hreq. simpl.
    eexists. split; [apply lookup_insert_eq|done]. }
  destruct Hr2 as (c & Hc & Hf).
  rewrite run_step, E1. cbn [fst snd]. rewrite run_step.
  change (Jsonp.step (Jsonp.jsonpCallback k r s) (Jsonp.Cancel k)) with (s2, @nil Jsonp.call).
  cbn [fst snd]. rewrite run_step. clearbody s2.
  simpl. rewrite Ht2. unfold Jsonp.deferred. simpl. rewrite Hc, Hf.
  reflexivity.
Qed.

(** C5 fails on the code: the provider script has called the registered
    callback, so that the success callback waits in a timer; [cancel()] is
    called; then the timer runs and the success callback is called, after
    [cancel()]. The call of [cancel()] has cleaned the request up (its
    callback is out of the registry and its script is out of the body), but
    it does not withdraw the timer. It is so for every request that is sent
    while no timer waits. What holds: [cancel()] itself calls nothing; a
    callback of the request is called only in answer to a completion signal
    of its exchange; and when [cancel()] is called before the provider
    script has called the registered callback, the success callback is
    never called. *)
Theorem callback_fires_after_cancel :
  (Jsonp.run sample_sent [Jsonp.ProviderCalls 0 5; Jsonp.Cancel 0]).2 = []
  ∧ off 0 (Jsonp.run sample_sent [Jsonp.ProviderCalls 0 5; Jsonp.Cancel 0]).1
  ∧ (Jsonp.run sample_sent [Jsonp.ProviderCalls 0 5; Jsonp.Cancel 0; Jsonp.Timeout]).2
    = [Jsonp.Callback 0 0 5]
  ∧ (∀ (s0 : Jsonp.state) (f : nat) (g : option nat) (r : ref),
       Jsonp.timeouts s0 = [] →
       (Jsonp.run (Jsonp.sendRequest f g s0).2
          [Jsonp.ProviderCalls (Jsonp.nextNumber s0) r;
           Jsonp.Cancel (Jsonp.nextNumber s0); Jsonp.Timeout]).2
       = [Jsonp.Callback (Jsonp.nextNumber s0) f r])
  ∧ (∀ (s : Jsonp.state) (k : nat), (Jsonp.step s (Jsonp.Cancel k)).2 = [])
  ∧ (∀ (s0 : Jsonp.state) (f : nat) (g : option nat),
       timers_of (Jsonp.nextNumber s0) s0 = 0 →
       (∀ es, (count_if (is_call_of (Jsonp.nextNumber s0))
                 (Jsonp.run (Jsonp.sendRequest f g s0).2 es).2
               ≤ count_if (is_signal (Jsonp.nextNumber s0)) es)%nat)
       ∧ (∀ pre post, existsb (is_provider_call (Jsonp.nextNumber s0)) pre = false →
            count_if (is_success (Jsonp.nextNumber s0))
              (Jsonp.run (Jsonp.sendRequest f g s0).2
                 (pre ++ Jsonp.Cancel (Jsonp.nextNumber s0) :: post)).2 = 0)).
Proof.
  split; [vm_compute; reflexivity|]. split.
  { split.
    - eexists. split; [vm_compute; reflexivity|reflexivity].
    - apply (bool_decide_eq_false_1 (0 ∈ _)). vm_compute. reflexivity. }
  split; [vm_compute; reflexivity|].
  split; [apply deferred_callback_outlives_cancel|].
  split; [done|].
  intros s0 f g Hfresh.
  destruct (sent_request_callbacks s0 f g Hfresh) as (_ & H2 & H3).
  split; [exact H2|]. intros pre post Hpre. by destruct (H3 pre post Hpre).
Qed.

(** ** The cache of frame contents *)

(** The liveness check answers [true] for every element and every page:
    [window] holds the negation of the wrapper, that is [false], whose
    property [$] is [undefined]. *)
Lemma isDetached_always (p : FrameCache.page) (element : nat) :
  FrameCache.isDetached p element = Normal true.
Proof. reflexivity. Qed.

(** Popping returns the oldest entry of the list and removes it, whatever
    the page. *)
Lemma getCachedFrameContents_oldest (p : FrameCache.page) (url : string)
    (e : nat) (l : list nat) (c : gmap string (list nat)) :
  c !! url = Some (e :: l) →
  FrameCache.getCachedFrameContents p url c = (Normal (Some e), <[url := l]> c).
Proof.
  intros H. unfold FrameCache.getCachedFrameContents. rewrite H. simpl.
  rewrite decide_True by done. reflexivity.
Qed.


(** ** The response cache *)

(** C4 fails on the code: the response that is cached for the URL is
    rewritten once more each time the URL is loaded from the cache, so its
    [html] changes after it has been cached. *)
Theorem cached_response_is_rewritten_again :
  _cache sample_loaded !! "https://vid.example/1" = Some 0
  ∧ _cache sample_reloaded !! "https://vid.example/1" = Some 0
  ∧ (heap sample_loaded !! 0) ≫= r_html
    = Some ("<iframe tabindex=" +:+ dquote +:+ "-1" +:+ dquote +:+ " src=" +:+ dquote
            +:+ "//vid.example/embed/1" +:+ dquote +:+ "></iframe>")
  ∧ (heap sample_reloaded !! 0) ≫= r_html
    = Some ("<iframe tabindex=" +:+ dquote +:+ "-1" +:+ dquote +:+ " tabindex=" +:+ dquote
            +:+ "-1" +:+ dquote +:+ " src=" +:+ dquote
            +:+ "//vid.example/embed/1" +:+ dquote +:+ "></iframe>")
  ∧ heap sample_reloaded !! 0 ≠ heap sample_loaded !! 0.
Proof. vm_compute. repeat split; discriminate. Qed.

(** ** The progress aggregator *)

Lemma isFinished_outstanding (ts : list Aggregator.task) :
  Aggregator.isFinished ts = (outstanding ts =? 0)%nat.
Proof.
  unfold Aggregator.isFinished, outstanding.
  induction ts as [|t ts IH]; [done|]. simpl. rewrite IH. by destruct t.
Qed.

Lemma outstanding_replicate (n : nat) :
  outstanding (replicate n Aggregator.Outstanding) = n.
Proof. unfold outstanding. induction n as [|n IH]; simpl; [done|]. by rewrite IH. Qed.

Lemma outstanding_insert (ts : list Aggregator.task) (i : nat) (o : Aggregator.task) :
  ts !! i = Some Aggregator.Outstanding → o ≠ Aggregator.Outstanding →
  outstanding ts = S (outstanding (<[i := o]> ts)).
Proof.
  unfold outstanding. revert i. induction ts as [|t ts IH]; intros i Hi Ho; [done|].
  destruct i as [|i]; simpl in *.
  - simplify_eq. simpl. by destruct o.
  - rewrite (IH i Hi Ho). lia.
Qed.

Lemma outstanding_zero (ts : list Aggregator.task) :
  outstanding ts = 0 ↔ ∀ j, ts !! j ≠ Some Aggregator.Outstanding.
Proof.
  unfold outstanding. induction ts as [|t ts IH]; simpl.
  - split; [intros _ j; by rewrite lookup_nil | done].
  - split.
    + intros H j. destruct t; simpl in H; try lia.
      all: destruct j as [|j]; simpl; [done|]; apply IH; lia.
    + intros H. pose proof (H 0) as H0. simpl in H0.
      destruct t; [done| |]; simpl; apply IH; intros j; apply (H (S j)).
Qed.

(** What [_createTask] does when a new aggregator is due, and when the
    current one is reused. *)
Lemma createTask_new (w : world) :
  match aggregator w with
  | None => True
  | Some a => ∃ ts, aggregators w !! a = Some ts ∧ Aggregator.isFinished ts = true
  end →
  _createTask w =
    (Some (length (aggregators w), 0),
     with_aggregator (Some (length (aggregators w)))
       (aggregators w ++ [[Aggregator.Outstanding]]) w).
Proof.
  intros H. unfold _createTask.
  assert (Hn : match aggregator w with
               | Some a => match aggregators w !! a with
                           | Some tasks => if Aggregator.isFinished tasks
                                           then new_aggregator w else w
                           | None => new_aggregator w
                           end
               | None => new_aggregator w
               end = new_aggregator w).
  { destruct (aggregator w) as [a|]; [|done].
    destruct H as (ts & -> & ->). done. }
  rewrite Hn. simpl.
  rewrite lookup_app_r, Nat.sub_diag by lia. simpl.
  rewrite insert_app_r_alt, Nat.sub_diag by lia. simpl.
  by destruct w.
Qed.

Lemma createTask_reuse (w : world) (a : nat) (ts : list Aggregator.task) :
  aggregator w = Some a → aggregators w !! a = Some ts →
  Aggregator.isFinished ts = false →
  _createTask w =
    (Some (a, length ts),
     with_aggregator (Some a)
       (<[a := ts ++ [Aggregator.Outstanding]]> (aggregators w)) w).
Proof.
  intros Ha Hts Hf. unfold _createTask. rewrite Ha, Hts, Hf. simpl.
  by rewrite Ha, Hts.
Qed.

(** [loadContent] for a URL for which the lookup finds a value. *)
Lemma loadContent_found (w : world) (t : nat) (url : string) (o : opts) (x : ref) :
  (_getCachedResponse url w).1 = Some x →
  aggregator (loadContent t url o w).2 = aggregator w
  ∧ aggregators (loadContent t url o w).2 = aggregators w
  ∧ ∃ i, calls (loadContent t url o w).2 !! length (calls w) = Some i
         ∧ req_task (inv_request i) = None.
Proof.
  intros Hx. pose proof (getCachedResponse_frame url w) as (_ & _ & Hc & _ & Ha & Has & _).
  unfold loadContent. destruct (_getCachedResponse url w) as [[y|] wl]; [|done].
  simpl in *. rewrite Hc. split; [done|]. split; [done|].
  eexists. split; [by rewrite lookup_app_r, Nat.sub_diag by lia|done].
Qed.

(** [loadContent] for a URL for which the lookup finds nothing, with
    notifications. *)
Lemma loadContent_miss (t : nat) (url : string) (o : opts) (w : world) :
  (_getCachedResponse url w).1 = None → opt_noNotifications o = false →
  (loadContent t url o w).2 =
    {| heap := heap w; _cache := _cache w;
       jsonp := (Jsonp.sendRequest (length (calls w)) (Some (length (calls w))) (jsonp w)).2;
       calls := calls w ++
         [{| that := t; inv_url := url; inv_opts := o;
             inv_request :=
               {| req_noNotifications := false; req_url := url;
                  req_task := (_createTask w).1; req_response := None;
                  req_cancel := Some (Jsonp.nextNumber (jsonp w)) |} |}];
       pending := pending w;
       aggregator := aggregator (_createTask w).2;
       aggregators := aggregators (_createTask w).2;
       instances := instances w; effects := effects w |}.
Proof.
  intros [Hc Hi]%getCachedResponse_none Hn.
  unfold loadContent. rewrite (getCachedResponse_miss url w Hc Hi), Hn. simpl.
  set (i0 := {| that := t; inv_url := url; inv_opts := o;
                inv_request := {| req_noNotifications := false; req_url := url;
                                  req_task := None; req_response := None;
                                  req_cancel := None |} |}).
  set (w0 := with_calls (calls w ++ [i0]) w).
  assert (Hct : _createTask w0 =
            ((_createTask w).1,
             with_calls (calls w ++ [i0]) (_createTask w).2)).
  { unfold _createTask, new_aggregator. simpl.
    repeat (case_match; simpl in *; simplify_eq); done. }
  rewrite Hct.
  assert (Hl : ∀ w1, calls w1 = calls w ++ [i0] →
                     calls w1 !! length (calls w) = Some i0).
  { intros w1 ->. by rewrite lookup_app_r, Nat.sub_diag by lia. }
  rewrite (update_request_eq _ _ _ i0) by (by apply Hl).
  simpl. rewrite insert_app_r_alt, Nat.sub_diag by lia. simpl.
  unfold _sendRequest. simpl.
  rewrite (update_request_eq _ _ _ (with_request (set_task (_createTask w).1) i0))
    by (simpl; by rewrite lookup_app_r, Nat.sub_diag by lia).
  simpl. rewrite insert_app_r_alt, Nat.sub_diag by lia. simpl.
  pose proof (createTask_frame w) as (H1 & H2 & H3 & H4 & H5 & H6 & H7).
  unfold with_calls, with_jsonp. simpl. rewrite H2.
  f_equal; done.
Qed.

Lemma finishes_trans (x y z : nat) :
  (z ≤ y)%nat → (y ≤ x)%nat → finishes x y + finishes y z = finishes x z.
Proof.
  unfold finishes. intros H1 H2.
  destruct (Nat.ltb_spec 0 x), (Nat.ltb_spec 0 y), (Nat.eqb_spec y 0), (Nat.eqb_spec z 0);
    simpl; lia.
Qed.

Lemma count_finished_app (a : nat) (l1 l2 : list effect) :
  count_finished a (l1 ++ l2) = count_finished a l1 + count_finished a l2.
Proof. apply count_if_app. Qed.

(** One [done()] or [cancel()] on a task of the aggregator [a]. *)
Lemma resolve_task_step (o : Aggregator.task) (a i : nat) (w : world)
    (ts : list Aggregator.task) :
  o ≠ Aggregator.Outstanding → aggregators w !! a = Some ts →
  ∃ ts', aggregators (resolve_task o (a, i) w) !! a = Some ts'
    ∧ length ts' = length ts
    ∧ (∀ j, ts !! j ≠ Some Aggregator.Outstanding → ts' !! j ≠ Some Aggregator.Outstanding)
    ∧ ts' !! i ≠ Some Aggregator.Outstanding
    ∧ (outstanding ts' ≤ outstanding ts)%nat
    ∧ count_finished a (effects (resolve_task o (a, i) w)) =
        count_finished a (effects w) + finishes (outstanding ts) (outstanding ts').
Proof.
  intros Ho Ha. unfold resolve_task. simpl. rewrite Ha.
  assert (Hlt : a < length (aggregators w)) by (by eapply lookup_lt_Some).
  unfold Aggregator.resolve.
  destruct (ts !! i) as [[| |]|] eqn:Hi.
  - pose proof (outstanding_insert ts i o Hi Ho) as Hout.
    exists (<[i := o]> ts).
    assert (Hl : <[a := <[i := o]> ts]> (aggregators w) !! a = Some (<[i := o]> ts))
      by (by apply list_lookup_insert_eq).
    assert (Hi' : i < length ts) by (by eapply lookup_lt_Some).
    rewrite isFinished_outstanding.
    split; [by destruct (outstanding (<[i:=o]> ts) =? 0)%nat|].
    split; [by rewrite length_insert|].
    split.
    { intros j Hj. destruct (decide (j = i)) as [->|Hne]; [congruence|].
      by rewrite list_lookup_insert_ne. }
    split; [rewrite list_lookup_insert_eq by done; congruence|].
    split; [lia|].
    rewrite Hout. unfold finishes. simpl.
    destruct (outstanding (<[i:=o]> ts) =? 0)%nat; simpl.
    + rewrite count_finished_app. unfold count_finished at 2. simpl.
      rewrite bool_decide_true by done. destruct (aggregator w); simpl; lia.
    + lia.
  - exists ts. simpl. rewrite list_lookup_insert_eq by done.
    repeat split; try done; [congruence|].
    unfold finishes. destruct (0 <? outstanding ts)%nat eqn:E1,
      (outstanding ts =? 0)%nat eqn:E2; simpl; try lia.
    apply Nat.ltb_lt in E1. apply Nat.eqb_eq in E2. lia.
  - exists ts. simpl. rewrite list_lookup_insert_eq by done.
    repeat split; try done; [congruence|].
    unfold finishes. destruct (0 <? outstanding ts)%nat eqn:E1,
      (outstanding ts =? 0)%nat eqn:E2; simpl; try lia.
    apply Nat.ltb_lt in E1. apply Nat.eqb_eq in E2. lia.
  - exists ts. simpl. rewrite list_lookup_insert_eq by done.
    repeat split; try done; [congruence|].
    unfold finishes. destruct (0 <? outstanding ts)%nat eqn:E1,
      (outstanding ts =? 0)%nat eqn:E2; simpl; try lia.
    apply Nat.ltb_lt in E1. apply Nat.eqb_eq in E2. lia.
Qed.

(** A sequence of [done()] and [cancel()] on tasks of the aggregator [a]. *)
Lemma resolve_all_spec (a : nat) (ops : list (bool * nat)) (w : world)
    (ts : list Aggregator.task) :
  aggregators w !! a = Some ts →
  ∃ ts', aggregators (resolve_all a ops w) !! a = Some ts'
    ∧ length ts' = length ts
    ∧ (∀ j, ts !! j ≠ Some Aggregator.Outstanding ∨ (∃ b, (b, j) ∈ ops) →
            ts' !! j ≠ Some Aggregator.Outstanding)
    ∧ (outstanding ts' ≤ outstanding ts)%nat
    ∧ count_finished a (effects (resolve_all a ops w)) =
        count_finished a (effects w) + finishes (outstanding ts) (outstanding ts').
Proof.
  revert w ts. induction ops as [|[b i] ops IH]; intros w ts Ha.
  - exists ts. simpl. repeat split; try done.
    + intros j [H|[b' H]]; [done|]. by apply elem_of_nil in H.
    + unfold finishes. destruct (0 <? outstanding ts)%nat eqn:E1,
        (outstanding ts =? 0)%nat eqn:E2; simpl; try lia.
      apply Nat.ltb_lt in E1. apply Nat.eqb_eq in E2. lia.
  - change (resolve_all a ((b, i) :: ops) w) with
      (resolve_all a ops
         (resolve_task (if b then Aggregator.Done else Aggregator.Canceled) (a, i) w)).
    assert (Ho : (if b then Aggregator.Done else Aggregator.Canceled)
                 ≠ Aggregator.Outstanding) by (by destruct b).
    destruct (resolve_task_step _ a i w ts Ho Ha)
      as (ts1 & Ha1 & Hlen1 & Hkeep1 & Hi1 & Hle1 & Hc1).
    destruct (IH _ ts1 Ha1) as (ts' & Ha' & Hlen' & Hkeep' & Hle' & Hc').
    exists ts'. split; [exact Ha'|]. split; [congruence|].
    split; [|split; [lia|]].
    + intros j [H|[b' H]].
      * apply Hkeep'. left. by apply Hkeep1.
      * apply elem_of_cons in H as [H|H].
        -- simplify_eq. apply Hkeep'. by left.
        -- apply Hkeep'. right. by exists b'.
    + rewrite Hc', Hc1.
      pose proof (finishes_trans (outstanding ts) (outstanding ts1) (outstanding ts')
                    Hle' Hle1). lia.
Qed.

Lemma isFinished_snoc (ts : list Aggregator.task) :
  Aggregator.isFinished (ts ++ [Aggregator.Outstanding]) = false.
Proof.
  unfold Aggregator.isFinished. rewrite forallb_app. simpl. by rewrite andb_false_r.
Qed.

(** Calls that find an aggregator with an outstanding task add their tasks
    to it. *)
Lemma load_all_reuse (reqs : list (nat * string * opts)) :
  ∀ (w : world) (pre : list (list Aggregator.task)) (ts : list Aggregator.task),
  (∀ r, r ∈ reqs → opt_noNotifications r.2 = false
                    ∧ (_getCachedResponse r.1.2 w).1 = None) →
  aggregator w = Some (length pre) → aggregators w = pre ++ [ts] →
  Aggregator.isFinished ts = false →
  aggregator (load_all reqs w) = Some (length pre)
  ∧ aggregators (load_all reqs w) =
      pre ++ [ts ++ replicate (length reqs) Aggregator.Outstanding]
  ∧ _cache (load_all reqs w) = _cache w
  ∧ effects (load_all reqs w) = effects w
  ∧ ∃ l, calls (load_all reqs w) = calls w ++ l ∧ length l = length reqs
         ∧ ∀ j i, l !! j = Some i →
                  req_task (inv_request i) = Some (length pre, length ts + j).
Proof.
  induction reqs as [|r reqs IH]; intros w pre ts Hreqs Ha Has Hf.
  - simpl. rewrite app_nil_r. split; [done|]. split; [done|].
    split; [done|]. split; [done|].
    exists []. rewrite app_nil_r. split; [done|]. split; [done|].
    intros j i H. by rewrite lookup_nil in H.
  - change (load_all (r :: reqs) w) with
      (load_all reqs (loadContent r.1.1 r.1.2 r.2 w).2).
    destruct (Hreqs r) as [Hn Hm]; [by left|].
    assert (Hlk : aggregators w !! length pre = Some ts).
    { rewrite Has. by rewrite lookup_app_r, Nat.sub_diag by lia. }
    pose proof (loadContent_miss r.1.1 r.1.2 r.2 w Hm Hn) as Hw1.
    rewrite (createTask_reuse w _ ts Ha Hlk Hf) in Hw1. simpl in Hw1.
    rewrite Has, insert_app_r_alt, Nat.sub_diag in Hw1 by lia. simpl in Hw1.
    set (w1 := (loadContent r.1.1 r.1.2 r.2 w).2) in *.
    assert (Hc1 : _cache w1 = _cache w) by (by rewrite Hw1).
    assert (He1 : effects w1 = effects w) by (by rewrite Hw1).
    assert (Hag1 : aggregator w1 = Some (length pre)) by (by rewrite Hw1).
    assert (Hags1 : aggregators w1 = pre ++ [ts ++ [Aggregator.Outstanding]])
      by (by rewrite Hw1).
    assert (Hcalls1 : ∃ i0, calls w1 = calls w ++ [i0]
              ∧ req_task (inv_request i0) = Some (length pre, length ts))
      by (rewrite Hw1; by eexists).
    clearbody w1. clear Hw1. destruct Hcalls1 as (i0 & Hcalls1 & Htask).
    destruct (IH w1 pre (ts ++ [Aggregator.Outstanding]))
      as (H1 & H2 & H3 & H4 & l & H5 & H6 & H7).
    + intros r' Hr'. destruct (Hreqs r') as [? ?]; [by right|].
      split; [done|]. by apply (getCachedResponse_none_cache _ w).
    + done.
    + done.
    + apply isFinished_snoc.
    + split; [exact H1|]. split.
      { rewrite H2. simpl. by rewrite <- app_assoc. }
      split; [congruence|]. split; [congruence|].
      rewrite Hcalls1, <- app_assoc in H5.
      eexists. split; [exact H5|]. split; [simpl; by rewrite H6|].
      intros [|j] i Hj; simpl in Hj.
      * simplify_eq. by rewrite Nat.add_0_r.
      * rewrite (H7 j i Hj). rewrite length_app. simpl.
        f_equal. f_equal. lia.
Qed.

(** C9, amended: [loadContent] calls for which the lookup in the response
    cache finds nothing (neither a cached response nor an inherited
    property), made one after the other without [noNotifications] while
    there is no aggregator or the current one is finished: the first makes
    one new aggregator, all the tasks belong to it, and no effect is seen;
    any such call made while the current aggregator has an outstanding task
    adds its task to that aggregator; when afterwards every one of these
    tasks has been resolved by [done()] or [cancel()], in any order and any
    number of times, the aggregator is finished and has announced it exactly
    once. A call for which the lookup finds a value makes neither a task
    nor an aggregator. *)
Theorem concurrent_loads_share_one_aggregator (w : world)
    (reqs : list (nat * string * opts))
    (Hne : reqs ≠ [])
    (Hreqs : ∀ r, r ∈ reqs → opt_noNotifications r.2 = false
                             ∧ (_getCachedResponse r.1.2 w).1 = None)
    (Hagg : match aggregator w with
            | None => True
            | Some a => ∃ ts, aggregators w !! a = Some ts
                              ∧ Aggregator.isFinished ts = true
            end) :
  let w' := load_all reqs w in
  let a := length (aggregators w) in
  let n := length reqs in
  aggregator w' = Some a
  ∧ aggregators w' = aggregators w ++ [replicate n Aggregator.Outstanding]
  ∧ effects w' = effects w
  ∧ (∃ l, calls w' = calls w ++ l ∧ length l = n
          ∧ ∀ j i, l !! j = Some i → req_task (inv_request i) = Some (a, j))
  ∧ (∀ (w2 : world) (t : nat) (url : string) (o : opts) (a2 : nat)
       (ts : list Aggregator.task),
       aggregator w2 = Some a2 → aggregators w2 !! a2 = Some ts →
       Aggregator.isFinished ts = false →
       (_getCachedResponse url w2).1 = None → opt_noNotifications o = false →
       aggregator (loadContent t url o w2).2 = Some a2
       ∧ aggregators (loadContent t url o w2).2 =
           <[a2 := ts ++ [Aggregator.Outstanding]]> (aggregators w2)
       ∧ ∃ i, calls (loadContent t url o w2).2 !! length (calls w2) = Some i
              ∧ req_task (inv_request i) = Some (a2, length ts))
  ∧ (∀ ops, (∀ j, j < n → ∃ b, (b, j) ∈ ops) →
      count_finished a (effects (resolve_all a ops w')) = count_finished a (effects w) + 1
      ∧ ∃ ts, aggregators (resolve_all a ops w') !! a = Some ts
              ∧ length ts = n ∧ Aggregator.isFinished ts = true)
  ∧ ∀ (w2 : world) (t : nat) (url : string) (o : opts) (x : ref),
      (_getCachedResponse url w2).1 = Some x →
      aggregator (loadContent t url o w2).2 = aggregator w2
      ∧ aggregators (loadContent t url o w2).2 = aggregators w2
      ∧ ∃ i, calls (loadContent t url o w2).2 !! length (calls w2) = Some i
             ∧ req_task (inv_request i) = None.
Proof.
  simpl. destruct reqs as [|r reqs]; [done|]. clear Hne.
  change (load_all (r :: reqs) w) with
    (load_all reqs (loadContent r.1.1 r.1.2 r.2 w).2).
  destruct (Hreqs r) as [Hn Hm]; [by left|].
  pose proof (loadContent_miss r.1.1 r.1.2 r.2 w Hm Hn) as Hw1.
  rewrite (createTask_new w Hagg) in Hw1. simpl in Hw1.
  set (w1 := (loadContent r.1.1 r.1.2 r.2 w).2) in *.
  assert (Hc1 : _cache w1 = _cache w) by (by rewrite Hw1).
  assert (He1 : effects w1 = effects w) by (by rewrite Hw1).
  assert (Hag1 : aggregator w1 = Some (length (aggregators w))) by (by rewrite Hw1).
  assert (Hags1 : aggregators w1 = aggregators w ++ [[Aggregator.Outstanding]])
    by (by rewrite Hw1).
  assert (Hcalls1 : ∃ i0, calls w1 = calls w ++ [i0]
            ∧ req_task (inv_request i0) = Some (length (aggregators w), 0))
    by (rewrite Hw1; by eexists).
  clearbody w1. clear Hw1. destruct Hcalls1 as (i0 & Hcalls1 & Htask).
  destruct (load_all_reuse reqs w1 (aggregators w) [Aggregator.Outstanding])
    as (H1 & H2 & H3 & H4 & l & H5 & H6 & H7); [|done|done|done|].
  { intros r' Hr'. destruct (Hreqs r') as [? ?]; [by right|].
    split; [done|]. by apply (getCachedResponse_none_cache _ w). }
  set (w' := load_all reqs w1) in *. simpl in H2.
  split; [exact H1|]. split; [exact H2|]. split; [congruence|]. split.
  { rewrite Hcalls1, <- app_assoc in H5.
    eexists. split; [exact H5|]. split; [simpl; by rewrite H6|].
    intros [|j] i Hj; simpl in Hj; [by simplify_eq|].
    by rewrite (H7 j i Hj). }
  split.
  { intros w2 t url o a2 ts Ha2 Hts Hnf Hmiss Hnot.
    rewrite (loadContent_miss t url o w2 Hmiss Hnot).
    rewrite (createTask_reuse w2 a2 ts Ha2 Hts Hnf). simpl.
    split; [done|]. split; [done|].
    eexists. split; [by rewrite lookup_app_r, Nat.sub_diag by lia|done]. }
  split; [|apply loadContent_found].
  intros ops Hops.
  set (ts0 := Aggregator.Outstanding :: replicate (length reqs) Aggregator.Outstanding) in *.
  assert (Hlk : aggregators w' !! length (aggregators w) = Some ts0).
  { rewrite H2. by rewrite lookup_app_r, Nat.sub_diag by lia. }
  destruct (resolve_all_spec (length (aggregators w)) ops w' ts0 Hlk)
    as (ts' & Ha' & Hlen' & Hkeep' & Hle' & Hc').
  assert (Hlen0 : length ts0 = S (length reqs))
    by (unfold ts0; simpl; by rewrite length_replicate).
  assert (Hzero : outstanding ts' = 0).
  { apply outstanding_zero. intros j.
    destruct (decide (j < S (length reqs))) as [Hj|Hj].
    - apply Hkeep'. right. by apply Hops.
    - rewrite lookup_ge_None_2 by lia. done. }
  assert (Hout0 : outstanding ts0 = S (length reqs)).
  { change ts0 with (replicate (S (length reqs)) Aggregator.Outstanding).
    apply outstanding_replicate. }
  split.
  - rewrite Hc', Hzero, Hout0, H4, He1. done.
  - exists ts'. split; [done|]. split; [by rewrite Hlen', Hlen0|].
    rewrite isFinished_outstanding, Hzero. done.
Qed.

Lemma concurrent_loads_share_one_aggregator_witness :
  aggregators (load_all [(7, "a", sample_opts); (7, "b", sample_opts); (8, "a", sample_opts)]
                 initial)
  = [[Aggregator.Outstanding; Aggregator.Outstanding; Aggregator.Outstanding]]
  ∧ count_finished 0
      (effects (resolve_all 0 [(true, 1); (false, 0); (true, 1); (true, 2)]
                  (load_all [(7, "a", sample_opts); (7, "b", sample_opts);
                             (8, "a", sample_opts)] initial)))
    = 1.
Proof.
  destruct (concurrent_loads_share_one_aggregator initial
              [(7, "a", sample_opts); (7, "b", sample_opts); (8, "a", sample_opts)])
    as (_ & H2 & _ & _ & _ & H5 & _).
  - discriminate.
  - intros r Hr.
    repeat (apply elem_of_cons in Hr as [->|Hr]; [split; reflexivity|]).
    by apply elem_of_nil in Hr.
  - exact I.
  - split; [exact H2|].
    apply (H5 [(true, 1); (false, 0); (true, 1); (true, 2)]).
    intros j Hj. simpl in Hj.
    destruct j as [|[|[|j]]]; [exists false|exists true|exists true|lia];
      repeat first [apply list_elem_of_here | apply list_elem_of_further].
Defined.

(** C9 as stated fails: the aggregator of the page is finished, the call is
    made without [noNotifications], and yet no aggregator is made and the
    request gets no task, because the URL is found in the response cache.
    On a new page it is the same for a URL that names an inherited
    property. *)
Lemma cache_hit_makes_no_aggregator :
  aggregators (load_all [(7, "constructor", sample_opts)] initial) = []
  ∧ aggregator sample_loaded = Some 0
  ∧ aggregators sample_loaded = [[Aggregator.Done]]
  ∧ Aggregator.isFinished [Aggregator.Done] = true
  ∧ opt_noNotifications sample_opts = false
  ∧ aggregators (load_all [(7, "https://vid.example/1", sample_opts)] sample_loaded)
    = aggregators sample_loaded
  ∧ aggregators (load_all [(7, "https://vid.example/1", sample_opts)] sample_loaded)
    ≠ aggregators sample_loaded ++ [replicate 1 Aggregator.Outstanding]
  ∧ (calls (load_all [(7, "https://vid.example/1", sample_opts)] sample_loaded) !! 1)
      ≫= (λ i, req_task (inv_request i)) = None.
Proof. vm_compute. repeat split; discriminate. Qed.

(** The cached URL of the sample page is loaded once more: the call itself
    has no effect, and the turn of the scheduler that follows installs the
    content and calls the success callback. *)
Lemma cache_hit_succeeds_in_a_later_turn :
  effects (step entity_encode (λ _, None) false sample_loaded
             (Load 7 "https://vid.example/1" sample_opts))
  = effects sample_loaded
  ∧ drop (length (effects sample_loaded)) (effects sample_reloaded)
    = [SetContent 7 "https://vid.example/1"
         ("<iframe tabindex=" +:+ dquote +:+ "-1" +:+ dquote +:+ " tabindex=" +:+ dquote
          +:+ "-1" +:+ dquote +:+ " src=" +:+ dquote
          +:+ "//vid.example/embed/1" +:+ dquote +:+ "></iframe>");
       OptsCallback 1;
       AddContent 7
         (Some ("<iframe tabindex=" +:+ dquote +:+ "-1" +:+ dquote +:+ " tabindex=" +:+ dquote
                +:+ "-1" +:+ dquote +:+ " src=" +:+ dquote
                +:+ "//vid.example/embed/1" +:+ dquote +:+ "></iframe>"))].
Proof. vm_compute. split; reflexivity. Qed.

(** ** What the pipeline changes in a response *)

Lemma keeps_refl (h : gmap nat provider_response) : keeps h h.
Proof. intros y r H. by exists r. Qed.

Lemma keeps_trans (h1 h2 h3 : gmap nat provider_response) :
  keeps h1 h2 → keeps h2 h3 → keeps h1 h3.
Proof.
  intros H12 H23 y r H. destruct (H12 y r H) as (r2 & Hr2 & (? & ? & ?)).
  destruct (H23 y r2 Hr2) as (r3 & Hr3 & (? & ? & ?)).
  exists r3. split; [done|]. unfold same_but_html. split; [|split]; congruence.
Qed.

Lemma responseToHtml_keeps (enc : prop → string) (url : string) (x : nat)
    (h : gmap nat provider_response) :
  keeps h (_responseToHtml enc url x h).2.
Proof.
  unfold _responseToHtml. destruct (h !! x) as [r|] eqn:Hx; [|apply keeps_refl].
  destruct (loose_eq (r_type r) "photo"); [apply keeps_refl|].
  destruct (loose_eq (r_type r) "video" || loose_eq (r_type r) "rich");
    [|apply keeps_refl].
  destruct (r_html r) as [html|]; [|apply keeps_refl].
  intros y r0 Hy. simpl. destruct (decide (x = y)) as [->|Hne].
  - rewrite lookup_insert_eq. eexists. split; [done|]. by simplify_eq.
  - rewrite lookup_insert_ne by done. by exists r0.
Qed.

Lemma request_errorCallback_heap (call : nat) (msg : prop) (w : world) :
  heap (request_errorCallback call msg w) = heap w.
Proof.
  unfold request_errorCallback, _handleError.
  destruct (calls w !! call) as [i|]; [|done].
  destruct (req_task (inv_request i)) as [t|].
  - pose proof (resolve_task_cache Aggregator.Canceled t w) as (_ & H & _).
    by destruct (opt_errorCallback (inv_opts i)), (negb (req_noNotifications (inv_request i))).
  - by destruct (opt_errorCallback (inv_opts i)).
Qed.

Lemma handleResponse_keeps (enc : prop → string) (gen : provider_response → prop)
    (ie : bool) (call : nat) (w : world) :
  keeps (heap w) (heap (_handleResponse enc gen ie call w).2).
Proof.
  unfold _handleResponse. destruct (calls w !! call) as [i|]; [|apply keeps_refl].
  unfold handleResponse_listener. simpl.
  destruct (req_response (inv_request i)) as [x|]; [|apply keeps_refl].
  pose proof (responseToHtml_keeps enc (req_url (inv_request i)) x (heap w)) as Hk.
  destruct (_responseToHtml enc (req_url (inv_request i)) x (heap w)) as [[[html|]|e] h'];
    simpl in *.
  - destruct (req_task (inv_request i)) as [t|].
    + pose proof (resolve_task_cache Aggregator.Done t (with_heap h' w)) as (_ & H & _).
      repeat case_match; simpl; by rewrite H.
    + repeat case_match; done.
  - by rewrite request_errorCallback_heap.
  - done.
Qed.

Lemma finishLoading_keeps (enc : prop → string) (gen : provider_response → prop)
    (ie : bool) (call x : nat) (w : world) :
  keeps (heap w) (heap (finishLoading enc gen ie call x w)).
Proof.
  unfold finishLoading. destruct (calls w !! call) as [i|]; [|apply keeps_refl].
  pose proof (update_request_frame call (set_response x) w) as (_ & _ & _ & Hh & _).
  set (w1 := update_request call (set_response x) w) in *.
  case_decide.
  - pose proof (handleResponse_keeps enc gen ie call w1) as Hk. rewrite Hh in Hk.
    destruct (_handleResponse enc gen ie call w1) as [[[|]|e] w2]; simpl in *;
      [|done|done].
    by destruct (opt_callback (inv_opts i)), ie.
  - destruct (req_task (inv_request i)) as [t|]; simpl.
    + pose proof (resolve_task_cache Aggregator.Done t
                    (emit [Warn "embedbase-widget-invalid"] w1)) as (_ & Hr & _).
      rewrite Hr. simpl. rewrite Hh. apply keeps_refl.
    + rewrite Hh. apply keeps_refl.
Qed.

Lemma transport_step_keeps (enc : prop → string) (gen : provider_response → prop)
    (ie : bool) (e : Jsonp.event) (w : world) :
  keeps (heap w) (heap (transport_step enc gen ie e w)).
Proof.
  unfold transport_step. destruct (Jsonp.step (jsonp w) e) as [j cs].
  change (heap w) with (heap (with_jsonp j w)).
  generalize (with_jsonp j w). clear w.
  induction cs as [|c cs IH]; intros w; [apply keeps_refl|]. simpl.
  eapply keeps_trans; [|apply IH].
  destruct c as [k f x|k f]; simpl.
  - apply finishLoading_keeps.
  - rewrite request_errorCallback_heap. apply keeps_refl.
Qed.

(** Whatever happens on the page, a response object stays in the heap and
    keeps its [type], [url] and [title]: the pipeline assigns to [html]
    alone. *)
Lemma step_keeps (enc : prop → string) (gen : provider_response → prop)
    (ie : bool) (w : world) (e : event) :
  keeps (heap w) (heap (step enc gen ie w e)).
Proof.
  destruct e as [t url o|k r|e'| |call|id|id]; simpl.
  - destruct (loadContent_frame t url o w) as (-> & _).
    destruct (getCachedResponse_frame url w) as (_ & _ & _ & _ & _ & _ & _ & _ & [-> | ->]);
      [apply keeps_refl|].
    intros y r0 Hy. exists r0. split; [|done].
    rewrite lookup_insert_ne; [done|].
    intros <-. apply (is_fresh (dom (heap w))). by apply elem_of_dom.
  - eapply keeps_trans; [|apply transport_step_keeps]. simpl.
    intros y r0 Hy. exists r0. split; [|done].
    rewrite lookup_insert_ne; [done|].
    intros <-. apply (is_fresh (dom (heap w))). by apply elem_of_dom.
  - apply transport_step_keeps.
  - destruct (pending w) as [|[call x] rest]; [apply keeps_refl|].
    apply (finishLoading_keeps enc gen ie call x (with_pending rest w)).
  - destruct (calls w !! call) as [i|]; [|apply keeps_refl].
    destruct (req_cancel (inv_request i)); [|apply keeps_refl].
    apply transport_step_keeps.
  - apply keeps_refl.
  - apply keeps_refl.
Qed.

(** ** The transport in use *)

Lemma tidy_initial : tidy Jsonp.initial.
Proof.
  split; [|split; [|split]].
  - intros k. split; [intros H; by apply elem_of_empty in H|].
    intros (c & el & H & _). simpl in H. by rewrite lookup_empty in H.
  - intros k. split; [intros H; by apply elem_of_nil in H|].
    intros (c & el & H & _). simpl in H. by rewrite lookup_empty in H.
  - constructor.
  - intros k c el H. simpl in H. by rewrite lookup_empty in H.
Qed.

Lemma live_sendRequest (f : nat) (g : option nat) (s : Jsonp.state) (k : nat) :
  live k (Jsonp.sendRequest f g s).2 ↔ k = Jsonp.nextNumber s ∨ live k s.
Proof.
  unfold live. simpl. destruct (decide (k = Jsonp.nextNumber s)) as [->|Hne].
  - rewrite lookup_insert_eq. split; [by left|]. intros _. by eexists _, _.
  - rewrite lookup_insert_ne by done. split; [by right|]. by intros [?|?].
Qed.

Lemma tidy_sendRequest (f : nat) (g : option nat) (s : Jsonp.state) :
  keys_below s → tidy s → tidy (Jsonp.sendRequest f g s).2.
Proof.
  intros (_ & _ & Hreq) (Hcb & Hbody & Hnd & Hel).
  split; [|split; [|split]].
  - intros k. rewrite live_sendRequest. simpl.
    rewrite elem_of_union, elem_of_singleton, Hcb. done.
  - intros k. rewrite live_sendRequest. simpl. unfold Jsonp._attachScript.
    rewrite elem_of_app, list_elem_of_singleton, Hbody. tauto.
  - simpl. unfold Jsonp._attachScript. apply NoDup_app. split; [done|].
    split; [|apply NoDup_singleton].
    intros k Hk Hk'. apply list_elem_of_singleton in Hk'. subst k.
    apply Hbody in Hk as (c & el & Hc & _).
    assert (Jsonp.nextNumber s < Jsonp.nextNumber s) by (apply Hreq; by eexists).
    lia.
  - intros k c el. simpl. destruct (decide (k = Jsonp.nextNumber s)) as [->|Hne].
    + rewrite lookup_insert_eq. intros [= <-]. simpl. congruence.
    + rewrite lookup_insert_ne by done. apply Hel.
Qed.

Lemma live_cleanUp (k k' : nat) (s : Jsonp.state) :
  live k' (Jsonp.cleanUp k s) ↔ k' ≠ k ∧ live k' s.
Proof.
  unfold Jsonp.cleanUp, live.
  destruct (Jsonp.requests s !! k) as [c|] eqn:Hc.
  - destruct (Jsonp.scriptElement c) as [el|] eqn:Hs; simpl.
    + destruct (decide (k' = k)) as [->|Hne].
      * rewrite lookup_insert_eq. split.
        -- intros (c' & el' & ? & ?). by simplify_eq.
        -- by intros [? _].
      * rewrite lookup_insert_ne by done. tauto.
    + split; [|by intros [_ ?]]. intros (c' & el' & H1 & H2). split; [|by eexists _, _].
      intros ->. by simplify_eq.
  - split; [|by intros [_ ?]]. intros (c' & el' & H1 & H2). split; [|by eexists _, _].
    intros ->. by simplify_eq.
Qed.

Lemma tidy_cleanUp (k : nat) (s : Jsonp.state) : tidy s → tidy (Jsonp.cleanUp k s).
Proof.
  intros (Hcb & Hbody & Hnd & Hel).
  split; [|split; [|split]].
  - intros k'. rewrite live_cleanUp. unfold Jsonp.cleanUp.
    destruct (Jsonp.requests s !! k) as [c|] eqn:Hc.
    + destruct (Jsonp.scriptElement c) as [el|] eqn:Hs; simpl.
      * rewrite elem_of_difference, elem_of_singleton, Hcb. tauto.
      * rewrite Hcb. split; [|by intros [_ ?]]. intros Hl. split; [|done].
        intros ->. destruct Hl as (c' & el' & ? & ?). by simplify_eq.
    + rewrite Hcb. split; [|by intros [_ ?]]. intros Hl. split; [|done].
      intros ->. destruct Hl as (c' & el' & ? & ?). by simplify_eq.
  - intros k'. rewrite live_cleanUp. unfold Jsonp.cleanUp.
    destruct (Jsonp.requests s !! k) as [c|] eqn:Hc.
    + destruct (Jsonp.scriptElement c) as [el|] eqn:Hs; simpl.
      * rewrite (Hel k c el Hc Hs).
        rewrite list_elem_of_filter, Hbody. tauto.
      * rewrite Hbody. split; [|by intros [_ ?]]. intros Hl. split; [|done].
        intros ->. destruct Hl as (c' & el' & ? & ?). by simplify_eq.
    + rewrite Hbody. split; [|by intros [_ ?]]. intros Hl. split; [|done].
      intros ->. destruct Hl as (c' & el' & ? & ?). by simplify_eq.
  - unfold Jsonp.cleanUp. destruct (Jsonp.requests s !! k) as [c|]; [|done].
    destruct (Jsonp.scriptElement c); [|done]. simpl. by apply NoDup_filter.
  - intros k' c' el'. unfold Jsonp.cleanUp.
    destruct (Jsonp.requests s !! k) as [c|] eqn:Hc; [|apply Hel].
    destruct (Jsonp.scriptElement c) as [el|] eqn:Hs; [|apply Hel]. simpl.
    destruct (decide (k' = k)) as [->|Hne].
    + rewrite lookup_insert_eq. intros [= <-]. simpl. congruence.
    + rewrite lookup_insert_ne by done. apply Hel.
Qed.

Lemma tidy_step (s : Jsonp.state) (e : Jsonp.event) : tidy s → tidy (Jsonp.step s e).1.
Proof.
  intros Ht. destruct e as [k r|k| |k]; simpl.
  - by case_decide.
  - by apply tidy_cleanUp.
  - destruct (Jsonp.timeouts s) as [|[k r] rest]; [done|]. simpl.
    by apply tidy_cleanUp.
  - by apply tidy_cleanUp.
Qed.

Lemma exec_invariant (os : list jsonp_op) (s : Jsonp.state) :
  keys_below s → tidy s →
  keys_below (jsonp_exec s os).1 ∧ tidy (jsonp_exec s os).1.
Proof.
  revert s. induction os as [|o os IH]; intros s Hk Ht; [done|]. simpl.
  destruct (jsonp_do s o) as [s1 c1] eqn:E1.
  assert (H1 : keys_below s1 ∧ tidy s1).
  { destruct o as [f g|e]; simpl in E1.
    - simplify_eq. split; [by apply keys_below_sendRequest|by apply tidy_sendRequest].
    - pose proof (keys_below_step s e Hk) as A. pose proof (tidy_step s e Ht) as B.
      rewrite E1 in A, B. done. }
  destruct H1 as [Hk1 Ht1]. specialize (IH s1 Hk1 Ht1).
  by destruct (jsonp_exec s1 os) as [s2 c2].
Qed.

(** X1: however the transport has been used since the page was loaded, the
    callback key that [sendRequest] takes is new: it is not in the registry,
    no earlier request has it, no script element has it, and no deferred
    callback waits under it; the registrations and the requests that exist
    are left as they are, and the new request is registered with its script
    in place. *)
Theorem sendRequest_key_is_fresh (os : list jsonp_op) (f : nat) (g : option nat) :
  let s := (jsonp_exec Jsonp.initial os).1 in
  let k := (Jsonp.sendRequest f g s).1 in
  let s' := (Jsonp.sendRequest f g s).2 in
  (k ∉ Jsonp.jsonpCallbacks s) ∧ Jsonp.requests s !! k = None ∧ (k ∉ Jsonp.body s)
  ∧ timers_of k s = 0
  ∧ (∀ k', k' ≠ k →
       Jsonp.requests s' !! k' = Jsonp.requests s !! k'
       ∧ (k' ∈ Jsonp.jsonpCallbacks s' ↔ k' ∈ Jsonp.jsonpCallbacks s)
       ∧ (k' ∈ Jsonp.body s' ↔ k' ∈ Jsonp.body s))
  ∧ (k ∈ Jsonp.jsonpCallbacks s') ∧ (k ∈ Jsonp.body s')
  ∧ Jsonp.requests s' !! k =
      Some {| Jsonp.scriptElement := Some k; Jsonp.callback := f;
              Jsonp.errorCallback := g |}.
Proof.
  destruct (exec_invariant os Jsonp.initial keys_below_initial tidy_initial)
    as [Hk (Hcb & Hbody & _ & _)].
  set (s := (jsonp_exec Jsonp.initial os).1) in *. simpl.
  assert (Hnone : Jsonp.requests s !! Jsonp.nextNumber s = None).
  { destruct (Jsonp.requests s !! Jsonp.nextNumber s) eqn:E; [|done].
    destruct Hk as (_ & _ & Hreq).
    assert (Jsonp.nextNumber s < Jsonp.nextNumber s) by (apply Hreq; by eexists).
    lia. }
  assert (Hnl : ¬ live (Jsonp.nextNumber s) s).
  { intros (c & el & H & _). by rewrite Hnone in H. }
  split; [by rewrite Hcb|]. split; [done|]. split; [by rewrite Hbody|].
  split; [by apply keys_below_fresh|]. split.
  { intros k' Hne. rewrite lookup_insert_ne by done. split; [done|].
    unfold Jsonp._attachScript.
    rewrite elem_of_union, elem_of_singleton, elem_of_app, list_elem_of_singleton.
    tauto. }
  split; [apply elem_of_union; left; by apply elem_of_singleton|].
  split; [unfold Jsonp._attachScript; apply elem_of_app; right;
          by apply list_elem_of_singleton|].
  by rewrite lookup_insert_eq.
Qed.

(** X2: however the transport has been used since the page was loaded, it
    holds nothing of a finished request: a callback is in the registry
    exactly when the script element of its request is in the body, that is
    exactly when the request has not been cleaned up; no script is in the
    body twice; and a request that has been cleaned up has neither. *)
Theorem transport_leaves_nothing_behind (os : list jsonp_op) (k : nat) :
  let s := (jsonp_exec Jsonp.initial os).1 in
  (k ∈ Jsonp.jsonpCallbacks s ↔ k ∈ Jsonp.body s)
  ∧ (k ∈ Jsonp.body s ↔ live k s)
  ∧ NoDup (Jsonp.body s)
  ∧ (cleaned k s ∨ Jsonp.requests s !! k = None →
     (k ∉ Jsonp.jsonpCallbacks s) ∧ (k ∉ Jsonp.body s)).
Proof.
  destruct (exec_invariant os Jsonp.initial keys_below_initial tidy_initial)
    as [_ (Hcb & Hbody & Hnd & _)].
  set (s := (jsonp_exec Jsonp.initial os).1) in *. simpl.
  split; [by rewrite Hcb, Hbody|]. split; [apply Hbody|]. split; [done|].
  intros Hoff.
  assert (Hnl : ¬ live k s).
  { intros (c & el & H1 & H2). destruct Hoff as [(c' & H3 & H4)|H3]; by simplify_eq. }
  by rewrite Hcb, Hbody.
Qed.

Lemma run_provider_calls (k : nat) (rs : list nat) (s : Jsonp.state) :
  k ∈ Jsonp.jsonpCallbacks s →
  Jsonp.run s (map (Jsonp.ProviderCalls k) rs) =
    ({| Jsonp.nextNumber := Jsonp.nextNumber s;
        Jsonp.jsonpCallbacks := Jsonp.jsonpCallbacks s;
        Jsonp.body := Jsonp.body s; Jsonp.requests := Jsonp.requests s;
        Jsonp.timeouts := Jsonp.timeouts s ++ map (pair k) rs |}, []).
Proof.
  revert s. induction rs as [|r rs IH]; intros s Hreg.
  - simpl. rewrite app_nil_r. by destruct s.
  - simpl. rewrite decide_True by done.
    rewrite (IH (Jsonp.jsonpCallback k r s)) by done. simpl.
    by rewrite <- app_assoc.
Qed.

Lemma cleanUp_callback (k : nat) (c : Jsonp.closure) (s : Jsonp.state) :
  Jsonp.requests s !! k = Some c →
  ∃ c', Jsonp.requests (Jsonp.cleanUp k s) !! k = Some c'
        ∧ Jsonp.callback c' = Jsonp.callback c
        ∧ Jsonp.errorCallback c' = Jsonp.errorCallback c.
Proof.
  intros Hk. unfold Jsonp.cleanUp. rewrite Hk.
  destruct (Jsonp.scriptElement c); [|by exists c].
  simpl. rewrite lookup_insert_eq. by eexists.
Qed.

Lemma run_timeouts (k : nat) (rs : list nat) (c : Jsonp.closure) (s : Jsonp.state) :
  Jsonp.requests s !! k = Some c → Jsonp.timeouts s = map (pair k) rs →
  (Jsonp.run s (replicate (length rs) Jsonp.Timeout)).2
  = map (Jsonp.Callback k (Jsonp.callback c)) rs.
Proof.
  revert c s. induction rs as [|r rs IH]; intros c s Hk Ht; [done|].
  simpl. rewrite Ht. simpl. unfold Jsonp.deferred. simpl. rewrite Hk.
  match goal with |- context [Jsonp.cleanUp k ?s0] => set (s1 := s0) end.
  destruct (cleanUp_callback k c s1 Hk) as (c' & Hk' & Hcb & _).
  specialize (IH c' (Jsonp.cleanUp k s1) Hk').
  rewrite cleanUp_timeouts in IH. specialize (IH eq_refl).
  destruct (Jsonp.run (Jsonp.cleanUp k s1) (replicate (length rs) Jsonp.Timeout))
    as [s2 c2]. simpl in *. rewrite IH. by rewrite Hcb.
Qed.

(** X3: the registered callback is not used up by a call. While the request
    is registered and no timer waits, every call that the provider script
    makes to the callback of the request defers one call of the success
    callback: nothing is called during the calls of the script, and the
    turns of the scheduler that follow hand the responses to the success
    callback one by one, each of them, in the order of the calls. *)
Theorem every_provider_call_is_delivered (s : Jsonp.state) (k : nat)
    (c : Jsonp.closure) (rs : list nat)
    (Hk : Jsonp.requests s !! k = Some c)
    (Hreg : k ∈ Jsonp.jsonpCallbacks s)
    (Hidle : Jsonp.timeouts s = []) :
  (Jsonp.run s (map (Jsonp.ProviderCalls k) rs)).2 = []
  ∧ (Jsonp.run s (map (Jsonp.ProviderCalls k) rs
                  ++ replicate (length rs) Jsonp.Timeout)).2
    = map (Jsonp.Callback k (Jsonp.callback c)) rs.
Proof.
  rewrite run_app, (run_provider_calls k rs s Hreg). simpl. split; [done|].
  apply run_timeouts; simpl; [done|by rewrite Hidle].
Qed.

Lemma every_provider_call_is_delivered_witness :
  (Jsonp.run sample_sent
     (map (Jsonp.ProviderCalls 0) [5; 6] ++ replicate (length [5; 6]) Jsonp.Timeout)).2
  = map (Jsonp.Callback 0 0) [5; 6].
Proof.
  apply (every_provider_call_is_delivered sample_sent 0
           {| Jsonp.scriptElement := Some 0; Jsonp.callback := 0;
              Jsonp.errorCallback := Some 0 |} [5; 6]).
  - vm_compute. reflexivity.
  - vm_compute. reflexivity.
  - reflexivity.
Defined.

(** X4: when the browser reports an error on the script of a request that
    is still waiting, the error callback, if one was given, is called once
    and at once, the callback is deregistered and the script is removed;
    from then on the success callback of the request is never called,
    whatever happens, and no callback of the request is called at all
    unless the browser reports an error on that script again, in which case
    the error callback is called again: its listener is never removed. *)
Theorem script_error_ends_the_request (s : Jsonp.state) (k el : nat)
    (c : Jsonp.closure) (es : list Jsonp.event)
    (Hk : Jsonp.requests s !! k = Some c)
    (Hel : Jsonp.scriptElement c = Some el)
    (Hidle : timers_of k s = 0) :
  let s1 := (Jsonp.step s (Jsonp.ScriptError k)).1 in
  let called := match Jsonp.errorCallback c with
                | Some g => [Jsonp.ErrorCallback k g]
                | None => []
                end in
  (Jsonp.step s (Jsonp.ScriptError k)).2 = called
  ∧ (k ∉ Jsonp.jsonpCallbacks s1) ∧ (el ∉ Jsonp.body s1) ∧ cleaned k s1
  ∧ count_if (is_success k) (Jsonp.run s1 es).2 = 0
  ∧ (existsb (is_script_error k) es = false →
     count_if (is_call_of k) (Jsonp.run s1 es).2 = 0)
  ∧ (Jsonp.step (Jsonp.run s1 es).1 (Jsonp.ScriptError k)).2 = called.
Proof.
  simpl. rewrite Hk.
  destruct (cleanUp_cleans k el c s Hk Hel) as (H1 & H2 & H3).
  assert (Hoff : off k (Jsonp.cleanUp k s)) by done.
  assert (Ht : timers_of k (Jsonp.cleanUp k s) = 0).
  { unfold timers_of. by rewrite cleanUp_timeouts. }
  destruct (run_off k es (Jsonp.cleanUp k s) Hoff Ht) as [H4 H5].
  repeat (split; [done|]).
  assert (Hc : ∀ es' s', (∃ c', Jsonp.requests s' !! k = Some c'
                           ∧ Jsonp.errorCallback c' = Jsonp.errorCallback c) →
             ∃ c', Jsonp.requests (Jsonp.run s' es').1 !! k = Some c'
                   ∧ Jsonp.errorCallback c' = Jsonp.errorCallback c).
  { clear. induction es' as [|e es' IH]; intros s' Hs'; [done|]. simpl.
    destruct (Jsonp.step s' e) as [s1 c1] eqn:E1.
    specialize (IH s1). destruct (Jsonp.run s1 es') as [s2 c2]. simpl in *.
    apply IH. clear IH.
    assert (Hcl : ∀ k' s0, (∃ c', Jsonp.requests s0 !! k = Some c'
                              ∧ Jsonp.errorCallback c' = Jsonp.errorCallback c) →
              ∃ c', Jsonp.requests (Jsonp.cleanUp k' s0) !! k = Some c'
                    ∧ Jsonp.errorCallback c' = Jsonp.errorCallback c).
    { intros k' s0 (c0 & Hc0 & He0). destruct (decide (k' = k)) as [->|Hne].
      - destruct (cleanUp_callback k c0 s0 Hc0) as (c' & ? & _ & ?).
        exists c'. split; [done|congruence].
      - exists c0. split; [|done]. unfold Jsonp.cleanUp.
        destruct (Jsonp.requests s0 !! k') as [ck|]; [|done].
        destruct (Jsonp.scriptElement ck); [|done]. simpl.
        by rewrite lookup_insert_ne. }
    destruct e as [k' r| k'| |k']; simpl in E1.
    - case_decide; by simplify_eq.
    - unfold Jsonp.onError in E1. simplify_eq. by apply Hcl.
    - destruct (Jsonp.timeouts s') as [|[k' r] rest]; [by simplify_eq|].
      unfold Jsonp.deferred in E1. simplify_eq. by apply Hcl.
    - simplify_eq. by apply Hcl. }
  destruct (Hc es (Jsonp.cleanUp k s)) as (c' & Hc' & He').
  { destruct (cleanUp_callback k c s Hk) as (c' & ? & _ & ?). by exists c'. }
  rewrite Hc', He'. done.
Qed.

Lemma script_error_ends_the_request_witness :
  (Jsonp.step sample_sent (Jsonp.ScriptError 0)).2 = [Jsonp.ErrorCallback 0 0]
  ∧ count_if (is_success 0)
      (Jsonp.run (Jsonp.step sample_sent (Jsonp.ScriptError 0)).1
         [Jsonp.ProviderCalls 0 5; Jsonp.Timeout]).2 = 0.
Proof.
  destruct (script_error_ends_the_request sample_sent 0 0
              {| Jsonp.scriptElement := Some 0; Jsonp.callback := 0;
                 Jsonp.errorCallback := Some 0 |}
              [Jsonp.ProviderCalls 0 5; Jsonp.Timeout])
    as (H1 & _ & _ & _ & H2 & _).
  - vm_compute. reflexivity.
  - reflexivity.
  - reflexivity.
  - split; [exact H1|exact H2].
Defined.

(** ** The cache of frame contents in use *)

Lemma cacheFrameContents_eq (url : string) (e : nat) (c : gmap string (list nat)) :
  FrameCache.cacheFrameContents url e c = <[url := default [] (c !! url) ++ [e]]> c.
Proof. unfold FrameCache.cacheFrameContents. by destruct (c !! url). Qed.

Lemma cache_all_eq (url : string) (e : nat) (es : list nat) (c : gmap string (list nat)) :
  cache_all url (e :: es) c = <[url := default [] (c !! url) ++ e :: es]> c.
Proof.
  revert e c. induction es as [|e' es IH]; intros e c.
  - simpl. apply cacheFrameContents_eq.
  - change (cache_all url (e :: e' :: es) c) with
      (cache_all url (e' :: es) (FrameCache.cacheFrameContents url e c)).
    rewrite IH, cacheFrameContents_eq, lookup_insert_eq. simpl.
    rewrite insert_insert_eq. by rewrite <- app_assoc.
Qed.

Lemma take_n_all (p : FrameCache.page) (url : string) (l : list nat)
    (c : gmap string (list nat)) :
  c !! url = Some l →
  take_n p url (length l) c = (map (λ e, Normal (Some e)) l, <[url := []]> c).
Proof.
  revert c. induction l as [|e l IH]; intros c Hc.
  - simpl. by rewrite insert_id.
  - simpl. rewrite (getCachedFrameContents_oldest p url e l c Hc).
    rewrite (IH (<[url := l]> c)) by apply lookup_insert_eq.
    by rewrite insert_insert_eq.
Qed.

(** X5: for a URL that names no inherited property,
    [getCachedFrameContents] never throws, whatever the page is like. When
    nothing was cached for the URL, or when its array is empty, it returns
    [null] and changes nothing; otherwise it returns the entry that was
    cached first for the URL and removes that entry alone. The arrays of
    the other URLs are never touched. (For the name of an inherited
    property without an entry of its own, [cache] is the inherited value
    and not an array: that case is left out.) *)
Theorem getCachedFrameContents_pops_the_oldest (p : FrameCache.page) (url : string)
    (c : gmap string (list nat))
    (Hname : inherited url = false) :
  FrameCache.getCachedFrameContents p url c =
    match c !! url with
    | Some (e :: l) => (Normal (Some e), <[url := l]> c)
    | _ => (Normal None, c)
    end
  ∧ (∀ e, (FrameCache.getCachedFrameContents p url c).1 ≠ Throw e)
  ∧ (∀ url', url' ≠ url →
       (FrameCache.getCachedFrameContents p url c).2 !! url' = c !! url').
Proof.
  assert (H : FrameCache.getCachedFrameContents p url c =
              match c !! url with
              | Some (e :: l) => (Normal (Some e), <[url := l]> c)
              | _ => (Normal None, c)
              end).
  { destruct (c !! url) as [[|e l]|] eqn:Hc.
    - unfold FrameCache.getCachedFrameContents. by rewrite Hc.
    - by apply getCachedFrameContents_oldest.
    - unfold FrameCache.getCachedFrameContents. by rewrite Hc. }
  split; [exact H|]. rewrite H. split.
  - intros e. by destruct (c !! url) as [[|? ?]|].
  - intros url' Hne. destruct (c !! url) as [[|? ?]|]; simpl; [done| |done].
    by rewrite lookup_insert_ne.
Qed.

Lemma getCachedFrameContents_pops_the_oldest_witness :
  FrameCache.getCachedFrameContents attached_page "u" {["u" := [4; 5]]}
  = (Normal (Some 4), <["u" := [5]]> {["u" := [4; 5]]}).
Proof.
  exact (proj1 (getCachedFrameContents_pops_the_oldest attached_page "u"
                  {["u" := [4; 5]]} eq_refl)).
Defined.

(** X6: the frame contents cached for one URL, which names no inherited
    property, come back first in, first out. After the elements [e], [es]
    have been cached for a URL, as many calls of [getCachedFrameContents]
    as the URL has entries return what was there before and then [e], [es],
    in the order of caching; the URL keeps an empty array, and one more
    call returns [null]. *)
Theorem frame_contents_come_back_in_order (p : FrameCache.page) (url : string)
    (e : nat) (es : list nat) (c : gmap string (list nat))
    (Hname : inherited url = false) :
  let l := default [] (c !! url) ++ e :: es in
  cache_all url (e :: es) c = <[url := l]> c
  ∧ take_n p url (length l) (cache_all url (e :: es) c) =
      (map (λ x, Normal (Some x)) l, <[url := []]> c)
  ∧ FrameCache.getCachedFrameContents p url (<[url := []]> c) =
      (Normal None, <[url := []]> c).
Proof.
  cbv zeta. rewrite cache_all_eq. split; [done|]. split.
  - rewrite (take_n_all p url _ _ (lookup_insert_eq _ _ _)).
    by rewrite insert_insert_eq.
  - unfold FrameCache.getCachedFrameContents. by rewrite lookup_insert_eq.
Qed.

Lemma frame_contents_come_back_in_order_witness :
  FrameCache.getCachedFrameContents attached_page "u" (<["u" := []]> ∅) =
    (Normal None, <["u" := []]> ∅).
Proof.
  exact (proj2 (proj2 (frame_contents_come_back_in_order attached_page "u" 4 [5] ∅
                         eq_refl))).
Defined.

(** ** The response cache in use *)

Lemma extends_refl (h : gmap nat provider_response) : extends h h.
Proof. intros y r H. by exists r. Qed.

Lemma extends_trans (h1 h2 h3 : gmap nat provider_response) :
  extends h1 h2 → extends h2 h3 → extends h1 h3.
Proof.
  intros H12 H23 y r H. destruct (H12 y r H) as (r2 & Hr2 & ? & ?).
  destruct (H23 y r2 Hr2) as (r3 & Hr3 & ? & ?).
  exists r3. split; [done|]. split; [congruence|tauto].
Qed.

Lemma convertible_extends (h h' : gmap nat provider_response) (x : nat)
    (r : provider_response) :
  extends h h' → h !! x = Some r → convertible r →
  ∃ r', h' !! x = Some r' ∧ convertible r'.
Proof.
  intros He Hx Hc. destruct (He x r Hx) as (r' & Hr' & Ht & Hh).
  exists r'. split; [done|]. unfold convertible in *. rewrite Ht.
  destruct Hc as [?|[? ?]]; [by left|right; split; [done|by apply Hh]].
Qed.

Lemma cache_sound_extends (w w' : world) :
  cache_sound w → extends (heap w) (heap w') → _cache w' = _cache w → cache_sound w'.
Proof.
  intros Hs He Hc url x Hx. rewrite Hc in Hx.
  destruct (Hs url x Hx) as (r & Hr & Hcv). by eapply convertible_extends.
Qed.

Lemma responseToHtml_extends (enc : prop → string) (url : string) (x : nat)
    (h : gmap nat provider_response) :
  extends h (_responseToHtml enc url x h).2.
Proof.
  unfold _responseToHtml. destruct (h !! x) as [r|] eqn:Hx; [|apply extends_refl].
  destruct (loose_eq (r_type r) "photo"); [apply extends_refl|].
  destruct (loose_eq (r_type r) "video" || loose_eq (r_type r) "rich");
    [|apply extends_refl].
  destruct (r_html r) as [html|]; [|apply extends_refl].
  intros y r0 Hy. simpl. destruct (decide (x = y)) as [->|Hne].
  - rewrite lookup_insert_eq. eexists. split; [done|]. simplify_eq. simpl.
    split; [done|]. intros _. by eexists.
  - rewrite lookup_insert_ne by done. by exists r0.
Qed.

Lemma responseToHtml_converts (enc : prop → string) (url : string) (x : nat)
    (h h' : gmap nat provider_response) (markup : string) :
  _responseToHtml enc url x h = (Normal (Some markup), h') →
  ∃ r', h' !! x = Some r' ∧ convertible r'.
Proof.
  unfold _responseToHtml. destruct (h !! x) as [r|] eqn:Hx; [|done].
  destruct (loose_eq (r_type r) "photo") eqn:Hp.
  { intros [= _ <-]. exists r. split; [done|]. by left. }
  destruct (loose_eq (r_type r) "video" || loose_eq (r_type r) "rich") eqn:Hv; [|done].
  destruct (r_html r) as [html|]; [|done].
  intros [= _ <-]. rewrite lookup_insert_eq. eexists. split; [done|].
  right. simpl. split; [done|]. by eexists.
Qed.

Lemma request_errorCallback_cache (call : nat) (msg : prop) (w : world) :
  _cache (request_errorCallback call msg w) = _cache w.
Proof.
  unfold request_errorCallback, _handleError.
  destruct (calls w !! call) as [i|]; [|done].
  destruct (req_task (inv_request i)) as [t|].
  - pose proof (resolve_task_cache Aggregator.Canceled t w) as (H & _).
    by destruct (opt_errorCallback (inv_opts i)), (negb (req_noNotifications (inv_request i))).
  - by destruct (opt_errorCallback (inv_opts i)).
Qed.

Lemma handleResponse_sound (enc : prop → string) (gen : provider_response → prop)
    (ie : bool) (call : nat) (w : world) :
  extends (heap w) (heap (_handleResponse enc gen ie call w).2)
  ∧ _cache (_handleResponse enc gen ie call w).2 = _cache w
  ∧ ((_handleResponse enc gen ie call w).1 = Normal true →
     ∃ i x r', calls w !! call = Some i ∧ req_response (inv_request i) = Some x
               ∧ heap (_handleResponse enc gen ie call w).2 !! x = Some r'
               ∧ convertible r').
Proof.
  unfold _handleResponse. destruct (calls w !! call) as [i|] eqn:Hi;
    [|split; [apply extends_refl|done]].
  unfold handleResponse_listener. simpl.
  destruct (req_response (inv_request i)) as [x|] eqn:Hx;
    [|split; [apply extends_refl|done]].
  pose proof (responseToHtml_extends enc (req_url (inv_request i)) x (heap w)) as He.
  pose proof (responseToHtml_converts enc (req_url (inv_request i)) x (heap w)) as Hc.
  destruct (_responseToHtml enc (req_url (inv_request i)) x (heap w)) as [[[html|]|e] h'];
    simpl in *.
  - destruct (Hc h' html eq_refl) as (r' & Hr' & Hcv).
    assert (Hw2 : ∀ w2 : world, heap w2 = h' → _cache w2 = _cache w →
              (extends (heap w) (heap w2) ∧ _cache w2 = _cache w
               ∧ ∃ i0 x0 r0, Some i = Some i0 ∧ req_response (inv_request i0) = Some x0
                             ∧ heap w2 !! x0 = Some r0 ∧ convertible r0)).
    { intros w2 Hh2 Hc2. rewrite Hh2. split; [done|]. split; [done|].
      exists i, x, r'. done. }
    clear Hr' Hc Hcv He.
    destruct (req_task (inv_request i)) as [t|].
    + pose proof (resolve_task_cache Aggregator.Done t (with_heap h' w)) as (H1 & H2 & _).
      repeat case_match; simpl;
        (destruct (Hw2 (resolve_task Aggregator.Done t (with_heap h' w)) H2 H1)
           as (A & B & C); split; [exact A|]; split; [exact B|]; intros _; exact C).
    + repeat case_match; simpl;
        (destruct (Hw2 (with_heap h' w) eq_refl eq_refl) as (A & B & C);
         split; [exact A|]; split; [exact B|]; intros _; exact C).
  - rewrite request_errorCallback_heap, request_errorCallback_cache. simpl.
    split; [done|]. split; [done|]. done.
  - split; [done|]. split; [done|]. done.
Qed.

Lemma finishLoading_sound (enc : prop → string) (gen : provider_response → prop)
    (ie : bool) (call x : nat) (w : world) :
  cache_sound w → cache_sound (finishLoading enc gen ie call x w).
Proof.
  intros Hs. unfold finishLoading. destruct (calls w !! call) as [i|] eqn:Hi; [|done].
  pose proof (update_request_frame call (set_response x) w)
    as (_ & _ & _ & Hh & Hc & _).
  pose proof (update_request_lookup call (set_response x) w i Hi) as Hl.
  set (w1 := update_request call (set_response x) w) in *.
  assert (Hs1 : cache_sound w1).
  { apply (cache_sound_extends w); [done| |done]. rewrite Hh. apply extends_refl. }
  case_decide.
  - pose proof (handleResponse_sound enc gen ie call w1) as (He & Hc2 & Hok).
    destruct (_handleResponse enc gen ie call w1) as [[[|]|e] w2]; simpl in *.
    + destruct (Hok eq_refl) as (i0 & x0 & r' & Hi0 & Hx0 & Hr' & Hcv).
      rewrite Hl in Hi0. simplify_eq. simpl in Hx0. simplify_eq.
      assert (Hs3 : cache_sound (_cacheResponse (inv_url i) x0 w2)).
      { intros url y Hy. simpl in *. destruct (decide (url = inv_url i)) as [->|Hne].
        - rewrite lookup_insert_eq in Hy. simplify_eq. by exists r'.
        - rewrite lookup_insert_ne in Hy by done. rewrite Hc2 in Hy.
          destruct (Hs1 url y Hy) as (r & Hr & Hcr). by eapply convertible_extends. }
      by destruct (opt_callback (inv_opts i)), ie.
    + by apply (cache_sound_extends w1).
    + by apply (cache_sound_extends w1).
  - destruct (req_task (inv_request i)) as [t|]; simpl.
    + pose proof (resolve_task_cache Aggregator.Done t
                    (emit [Warn "embedbase-widget-invalid"] w1)) as (Hrc & Hrh & _).
      apply (cache_sound_extends w1); [done| |done].
      rewrite Hrh. apply extends_refl.
    + done.
Qed.

Lemma transport_step_sound (enc : prop → string) (gen : provider_response → prop)
    (ie : bool) (e : Jsonp.event) (w : world) :
  cache_sound w → cache_sound (transport_step enc gen ie e w).
Proof.
  unfold transport_step. destruct (Jsonp.step (jsonp w) e) as [j cs].
  intros Hs. assert (Hs' : cache_sound (with_jsonp j w)) by done.
  revert Hs'. generalize (with_jsonp j w). clear.
  induction cs as [|c cs IH]; intros w Hs; [done|]. simpl. apply IH.
  destruct c as [k f x|k f]; simpl.
  - by apply finishLoading_sound.
  - apply (cache_sound_extends w); [done| |apply request_errorCallback_cache].
    rewrite request_errorCallback_heap. apply extends_refl.
Qed.

Lemma getCachedResponse_extends (url : string) (w : world) :
  extends (heap w) (heap (_getCachedResponse url w).2).
Proof.
  destruct (getCachedResponse_frame url w) as (_ & _ & _ & _ & _ & _ & _ & _ & [-> | ->]);
    [apply extends_refl|].
  intros y r0 Hy. exists r0. split; [|done].
  rewrite lookup_insert_ne; [done|].
  intros <-. apply (is_fresh (dom (heap w))). by apply elem_of_dom.
Qed.

(** What [loadContent] leaves as it is when the lookup finds nothing. *)
Lemma loadContent_frame_miss (t : nat) (url : string) (o : opts) (w : world) :
  (_getCachedResponse url w).1 = None →
  heap (loadContent t url o w).2 = heap w
  ∧ _cache (loadContent t url o w).2 = _cache w
  ∧ effects (loadContent t url o w).2 = effects w
  ∧ instances (loadContent t url o w).2 = instances w.
Proof.
  intros [Hc Hn]%getCachedResponse_none.
  destruct (loadContent_frame t url o w) as (Hh & ? & ? & ?).
  rewrite (getCachedResponse_miss url w Hc Hn) in Hh. done.
Qed.

Lemma step_sound (enc : prop → string) (gen : provider_response → prop)
    (ie : bool) (w : world) (e : event) :
  cache_sound w → cache_sound (step enc gen ie w e).
Proof.
  intros Hs. destruct e as [t url o|k r|e'| |call|id|id]; simpl.
  - pose proof (loadContent_frame t url o w) as (Hh & Hc & _).
    apply (cache_sound_extends w); [done| |done]. rewrite Hh.
    apply getCachedResponse_extends.
  - apply transport_step_sound.
    apply (cache_sound_extends w); [done| |done]. simpl.
    intros y r0 Hy. exists r0. split; [|done].
    rewrite lookup_insert_ne; [done|].
    intros <-. apply (is_fresh (dom (heap w))). by apply elem_of_dom.
  - by apply transport_step_sound.
  - destruct (pending w) as [|[call x] rest]; [done|].
    by apply (finishLoading_sound enc gen ie call x (with_pending rest w)).
  - destruct (calls w !! call) as [i|]; [|done].
    destruct (req_cancel (inv_request i)); [|done].
    by apply (transport_step_sound enc gen ie (Jsonp.Cancel n) w).
  - done.
  - done.
Qed.

Lemma initial_sound : cache_sound initial.
Proof. intros url x Hx. simpl in Hx. by rewrite lookup_empty in Hx. Qed.

Lemma run_sound (enc : prop → string) (gen : provider_response → prop)
    (ie : bool) (es : list event) (w : world) :
  cache_sound w → cache_sound (run enc gen ie w es).
Proof.
  unfold run. revert w. induction es as [|e es IH]; intros w Hw; [done|].
  simpl. apply IH. by apply step_sound.
Qed.

(** X7: whatever happens on the page, and in whatever order, every entry of
    the response cache is a response object that the conversion accepts: a
    photo, or a video or rich response that has its [html]. So an object
    that the conversion does not accept is under no URL of the cache. *)
Theorem only_converted_responses_are_cached (enc : prop → string)
    (gen : provider_response → prop) (ie : bool) (es : list event) :
  cache_sound (run enc gen ie initial es)
  ∧ ∀ x r, heap (run enc gen ie initial es) !! x = Some r → ¬ convertible r →
      ∀ url, _cache (run enc gen ie initial es) !! url ≠ Some x.
Proof.
  pose proof (run_sound enc gen ie es initial initial_sound) as Hs.
  split; [exact Hs|]. intros x r Hx Hn url Hu.
  destruct (Hs url x Hu) as (r' & Hr' & Hc). congruence.
Qed.

(** X8: whatever happens on the page, a response object stays in the heap
    and keeps its [type], [url] and [title]: the pipeline assigns to [html]
    alone. *)
Theorem responses_keep_their_type (enc : prop → string)
    (gen : provider_response → prop) (ie : bool) (w : world) (es : list event) :
  keeps (heap w) (heap (run enc gen ie w es)).
Proof.
  unfold run. revert w. induction es as [|e es IH]; intros w; [apply keeps_refl|].
  simpl. eapply keeps_trans; [apply step_keeps|apply IH].
Qed.

Lemma finishLoading_success (enc : prop → string) (gen : provider_response → prop)
    (ie : bool) (call x : nat) (w : world) (i : invocation) (markup : string)
    (h' : gmap nat provider_response) :
  calls w !! call = Some i → that i ∈ instances w →
  _responseToHtml enc (req_url (inv_request i)) x (heap w) = (Normal (Some markup), h') →
  ∃ l, Forall (λ e, is_delivery e = false) l
    ∧ (req_task (inv_request i) = None →
       l = [] ∧ aggregators (finishLoading enc gen ie call x w) = aggregators w)
    ∧ effects (finishLoading enc gen ie call x w) =
        effects w ++ l
          ++ installs gen ie (that i) (req_url (inv_request i)) markup (h' !! x)
          ++ (if opt_callback (inv_opts i) then [OptsCallback call] else [])
          ++ (if ie then [] else [AddContent (that i) ((h' !! x) ≫= r_html)])
    ∧ heap (finishLoading enc gen ie call x w) = h'
    ∧ _cache (finishLoading enc gen ie call x w) = <[inv_url i := x]> (_cache w)
    ∧ jsonp (finishLoading enc gen ie call x w) = jsonp w.
Proof.
  intros Hi Hin Hresp. unfold finishLoading. rewrite Hi.
  pose proof (update_request_frame call (set_response x) w)
    as (Hj & He & _ & Hh & Hc & Hinst & _ & Hags).
  pose proof (update_request_lookup call (set_response x) w i Hi) as Hl.
  set (w1 := update_request call (set_response x) w) in *.
  rewrite decide_True by (by rewrite Hinst).
  unfold _handleResponse. rewrite Hl. simpl.
  unfold handleResponse_listener. simpl. rewrite Hh, Hresp. simpl.
  set (w2 := match req_task (inv_request i) with
             | Some t => resolve_task Aggregator.Done t (with_heap h' w1)
             | None => with_heap h' w1
             end).
  assert (Hw2 : ∃ l, Forall (λ e, is_delivery e = false) l
            ∧ (req_task (inv_request i) = None →
               l = [] ∧ aggregators w2 = aggregators w)
            ∧ effects w2 = effects w ++ l ∧ heap w2 = h'
            ∧ _cache w2 = _cache w ∧ jsonp w2 = jsonp w).
  { unfold w2. destruct (req_task (inv_request i)) as [t|].
    - destruct (resolve_task_effects Aggregator.Done t (with_heap h' w1))
        as (l & Hl1 & Hl2).
      pose proof (resolve_task_cache Aggregator.Done t (with_heap h' w1))
        as (A & B & _ & D).
      exists l. simpl in *. rewrite Hl1, He, A, B, D, Hc, Hj. done.
    - exists []. rewrite app_nil_r. simpl. by rewrite He, Hc, Hj. }
  clearbody w2. destruct Hw2 as (l & Hf & Hn & Hew & Hhw & Hcw & Hjw). exists l.
  split; [done|]. unfold installs.
  destruct ie; simpl.
  - destruct (h' !! x) as [r|]; simpl.
    + destruct (gen r) as [[|c s]|]; destruct (opt_callback (inv_opts i)); simpl;
        rewrite ?Hew, ?Hhw, ?Hcw, ?Hjw, <- ?app_assoc; done.
    + destruct (opt_callback (inv_opts i)); simpl;
        rewrite ?Hew, ?Hhw, ?Hcw, ?Hjw, <- ?app_assoc; done.
  - destruct (opt_callback (inv_opts i)); simpl;
      rewrite ?Hew, ?Hhw, ?Hcw, ?Hjw, <- ?app_assoc; done.
Qed.

Lemma responseToHtml_of_convertible (enc : prop → string) (url : string) (x : nat)
    (h : gmap nat provider_response) (r : provider_response) :
  h !! x = Some r → convertible r →
  ∃ markup, (_responseToHtml enc url x h).1 = Normal (Some markup).
Proof.
  intros Hx Hc. unfold _responseToHtml. rewrite Hx.
  destruct (loose_eq (r_type r) "photo") eqn:Hp; [by eexists|].
  destruct Hc as [?|[Hv [html Hh]]]; [congruence|].
  rewrite Hv, Hh. by eexists.
Qed.

(** X9: on a page in any state it can reach on which no deferred
    [finishLoading] is waiting, a widget that is still there asks for a URL
    that is in the response cache, and the scheduler runs the deferred
    function: the content is installed (the converted markup or, on
    Internet Explorer, the card when one is made), the success callback, if
    one was given, is called and then, outside Internet Explorer,
    [addContent] is called with the [html] of the cached object; the error
    callback is not called, no request goes to the provider, there is no
    notification and no progress task, and the cache is left as it was. The
    markup is what [_responseToHtml] gives for the cached object at that
    moment. For a cached photo without [html], [addContent] is called with
    [undefined], and the function it gives to the promise throws when it
    runs. *)
Theorem cached_url_loads_without_the_provider (enc : prop → string)
    (gen : provider_response → prop) (ie : bool) (es : list event)
    (that0 : nat) (url : string) (o : opts) (x : ref)
    (Hhit : _cache (run enc gen ie initial es) !! url = Some x)
    (Hlive : that0 ∈ instances (run enc gen ie initial es))
    (Hidle : pending (run enc gen ie initial es) = []) :
  let w := run enc gen ie initial es in
  let call := length (calls w) in
  let w' := run enc gen ie w [Load that0 url o; CachedTimeout] in
  ∃ markup,
    _responseToHtml enc url x (heap w) = (Normal (Some markup), heap w')
    ∧ effects w' =
        effects w
          ++ installs gen ie that0 url markup (heap w' !! x)
          ++ (if opt_callback o then [OptsCallback call] else [])
          ++ (if ie then [] else [AddContent that0 ((heap w' !! x) ≫= r_html)])
    ∧ _cache w' = _cache w ∧ jsonp w' = jsonp w
    ∧ aggregators w' = aggregators w
    ∧ (ie = false →
       ∀ r0, heap w !! x = Some r0 → r_type r0 = Some "photo" → r_html r0 = None →
         last (effects w') = Some (AddContent that0 None)
         ∧ ∀ d c, addContent_then that0 url None d c = Throw TypeError).
Proof.
  pose proof (run_sound enc gen ie es initial initial_sound) as Hs.
  set (w := run enc gen ie initial es) in *. cbv zeta.
  destruct (Hs url x Hhit) as (r & Hr & Hcv).
  destruct (responseToHtml_of_convertible enc url x (heap w) r Hr Hcv) as (markup & Hm).
  destruct (_responseToHtml enc url x (heap w)) as [res h'] eqn:Hresp.
  simpl in Hm. subst res. exists markup.
  unfold run. simpl. unfold loadContent. rewrite (getCachedResponse_hit url w x Hhit).
  simpl. rewrite Hidle. simpl.
  match goal with
  | |- context [finishLoading enc gen ie ?c x ?w0] => set (w1 := w0)
  end.
  destruct (finishLoading_success enc gen ie (length (calls w)) x w1
              {| that := that0; inv_url := url; inv_opts := o;
                 inv_request := {| req_noNotifications := opt_noNotifications o;
                                   req_url := url; req_task := None;
                                   req_response := None; req_cancel := None |} |}
              markup h')
    as (l & _ & Hl & He & Hh & Hc & Hj).
  - unfold w1. simpl. by rewrite lookup_app_r, Nat.sub_diag by lia.
  - done.
  - done.
  - destruct (Hl eq_refl) as [-> Hags]. simpl in *.
    rewrite Hh, He, Hc, Hj, Hags. split; [done|]. split; [done|].
    split; [by apply insert_id|]. split; [done|]. split; [done|].
    intros -> r0 Hr0 Hphoto Hnone. split; [|done].
    assert (Hsame : h' = heap w).
    { unfold _responseToHtml in Hresp. rewrite Hr0, Hphoto in Hresp. simpl in Hresp.
      congruence. }
    rewrite Hsame, Hr0. simpl. rewrite Hnone.
    rewrite app_comm_cons, !app_assoc. apply last_snoc.
Qed.

Lemma cached_url_loads_without_the_provider_witness :
  ∃ markup,
    _responseToHtml entity_encode "https://vid.example/1" 0 (heap sample_loaded) =
      (Normal (Some markup),
       heap (run entity_encode (λ _, None) false sample_loaded
               [Load 7 "https://vid.example/1" sample_opts; CachedTimeout]))
    ∧ effects (run entity_encode (λ _, None) false sample_loaded
                 [Load 7 "https://vid.example/1" sample_opts; CachedTimeout]) =
        effects sample_loaded
          ++ installs (λ _, None) false 7 "https://vid.example/1" markup
               (heap (run entity_encode (λ _, None) false sample_loaded
                        [Load 7 "https://vid.example/1" sample_opts; CachedTimeout]) !! 0)
          ++ [OptsCallback (length (calls sample_loaded))]
          ++ [AddContent 7
                ((heap (run entity_encode (λ _, None) false sample_loaded
                          [Load 7 "https://vid.example/1" sample_opts; CachedTimeout]) !! 0)
                   ≫= r_html)]
    ∧ _cache (run entity_encode (λ _, None) false sample_loaded
                [Load 7 "https://vid.example/1" sample_opts; CachedTimeout]) =
        _cache sample_loaded
    ∧ jsonp (run entity_encode (λ _, None) false sample_loaded
               [Load 7 "https://vid.example/1" sample_opts; CachedTimeout]) =
        jsonp sample_loaded
    ∧ aggregators (run entity_encode (λ _, None) false sample_loaded
                     [Load 7 "https://vid.example/1" sample_opts; CachedTimeout]) =
        aggregators sample_loaded
    ∧ (false = false →
       ∀ r0, heap sample_loaded !! 0 = Some r0 → r_type r0 = Some "photo" →
         r_html r0 = None →
         last (effects (run entity_encode (λ _, None) false sample_loaded
                          [Load 7 "https://vid.example/1" sample_opts; CachedTimeout]))
         = Some (AddContent 7 None)
         ∧ ∀ d c, addContent_then 7 "https://vid.example/1" None d c = Throw TypeError).
Proof.
  unfold sample_loaded.
  apply (cached_url_loads_without_the_provider entity_encode (λ _, None) false
           [WidgetCreated 7; Load 7 "https://vid.example/1" sample_opts;
            ProviderResponds 0 sample_video; Transport Jsonp.Timeout]
           7 "https://vid.example/1" sample_opts 0).
  - vm_compute. reflexivity.
  - vm_compute. reflexivity.
  - vm_compute. reflexivity.
Defined.

Lemma loadContent_sends (t : nat) (url : string) (o : opts) (w : world) :
  (_getCachedResponse url w).1 = None →
  ∃ task,
    (opt_noNotifications o = true →
     task = None ∧ aggregators (loadContent t url o w).2 = aggregators w
     ∧ aggregator (loadContent t url o w).2 = aggregator w)
    ∧ (opt_noNotifications o = false →
       task = (_createTask w).1
       ∧ aggregators (loadContent t url o w).2 = aggregators (_createTask w).2
       ∧ aggregator (loadContent t url o w).2 = aggregator (_createTask w).2)
    ∧ calls (loadContent t url o w).2 =
        calls w ++
          [{| that := t; inv_url := url; inv_opts := o;
              inv_request :=
                {| req_noNotifications := opt_noNotifications o; req_url := url;
                   req_task := task; req_response := None;
                   req_cancel := Some (Jsonp.nextNumber (jsonp w)) |} |}]
    ∧ jsonp (loadContent t url o w).2 =
        (Jsonp.sendRequest (length (calls w)) (Some (length (calls w))) (jsonp w)).2
    ∧ pending (loadContent t url o w).2 = pending w.
Proof.
  intros Hmiss. pose proof Hmiss as [Hc Hi]%getCachedResponse_none.
  destruct (opt_noNotifications o) eqn:Hn.
  - exists None. split; [|split; [done|]].
    + intros _. split; [done|].
      unfold loadContent. rewrite (getCachedResponse_miss url w Hc Hi), Hn. simpl.
      unfold _sendRequest. simpl.
      match goal with
      | |- context [update_request ?c ?f ?w'] =>
          pose proof (update_request_frame c f w') as (_ & _ & _ & _ & _ & _ & -> & ->)
      end. done.
    + unfold loadContent. rewrite (getCachedResponse_miss url w Hc Hi), Hn. simpl.
      match goal with
      | |- context [_sendRequest ?c ?w'] =>
          rewrite (sendRequest_eq c w'
                     {| that := t; inv_url := url; inv_opts := o;
                        inv_request :=
                          {| req_noNotifications := true; req_url := url;
                             req_task := None; req_response := None;
                             req_cancel := None |} |})
            by (simpl; by rewrite lookup_app_r, Nat.sub_diag by lia)
      end. simpl.
      rewrite insert_app_r_alt, Nat.sub_diag by lia. done.
  - exists (_createTask w).1. split; [done|].
    rewrite (loadContent_miss t url o w Hmiss Hn). simpl. done.
Qed.

Lemma step_provider_responds (enc : prop → string) (gen : provider_response → prop)
    (ie : bool) (w : world) (k : nat) (r : provider_response) :
  k ∈ Jsonp.jsonpCallbacks (jsonp w) →
  step enc gen ie w (ProviderResponds k r) =
    with_jsonp (Jsonp.jsonpCallback k (fresh (dom (heap w))) (jsonp w))
      (with_heap (<[fresh (dom (heap w)) := r]> (heap w)) w).
Proof.
  intros Hk. unfold step, transport_step.
  generalize (fresh (dom (heap w))). intros x.
  change (jsonp (with_heap (<[x:=r]> (heap w)) w)) with (jsonp w).
  unfold Jsonp.step. rewrite decide_True by done. reflexivity.
Qed.

Lemma step_timeout_delivers (enc : prop → string) (gen : provider_response → prop)
    (ie : bool) (w : world) (k x : nat) (rest : list (nat * nat)) (c : Jsonp.closure) :
  Jsonp.timeouts (jsonp w) = (k, x) :: rest →
  Jsonp.requests (jsonp w) !! k = Some c →
  step enc gen ie w (Transport Jsonp.Timeout) =
    finishLoading enc gen ie (Jsonp.callback c) x
      (with_jsonp
         (Jsonp.cleanUp k
            {| Jsonp.nextNumber := Jsonp.nextNumber (jsonp w);
               Jsonp.jsonpCallbacks := Jsonp.jsonpCallbacks (jsonp w);
               Jsonp.body := Jsonp.body (jsonp w);
               Jsonp.requests := Jsonp.requests (jsonp w);
               Jsonp.timeouts := rest |}) w).
Proof.
  intros Ht Hc. unfold step, transport_step, Jsonp.step. rewrite Ht.
  unfold Jsonp.deferred. cbn [Jsonp.requests]. rewrite Hc. reflexivity.
Qed.

Lemma run_cons (enc : prop → string) (gen : provider_response → prop) (ie : bool)
    (w : world) (e : event) (es : list event) :
  run enc gen ie w (e :: es) = run enc gen ie (step enc gen ie w e) es.
Proof. reflexivity. Qed.

Lemma run_nil (enc : prop → string) (gen : provider_response → prop) (ie : bool)
    (w : world) :
  run enc gen ie w [] = w.
Proof. reflexivity. Qed.

Lemma step_load (enc : prop → string) (gen : provider_response → prop) (ie : bool)
    (w : world) (t : nat) (url : string) (o : opts) :
  step enc gen ie w (Load t url o) = (loadContent t url o w).2.
Proof. reflexivity. Qed.

(** X10: a widget asks for a URL for which the lookup in the response cache
    finds nothing, the provider answers the request with a response that
    [_responseToHtml] converts, and the scheduler runs the deferred callback
    while the widget is still there: the content is installed (the
    converted markup or, on Internet Explorer, the card when one is made),
    then the success callback is called if one was given and, outside
    Internet Explorer, [addContent] is called with the [html] of the
    response; the response object is cached under the URL, and the callback
    and the script of the request are gone. Apart from the end of the
    progress task nothing else is seen; without notifications there is no
    such task. For a photo without [html], [addContent] is called with
    [undefined], and the function it gives to the promise throws when it
    runs. *)
Theorem provider_response_is_installed_and_cached (enc : prop → string)
    (gen : provider_response → prop) (ie : bool) (w : world)
    (that0 : nat) (url : string) (o : opts) (r : provider_response)
    (markup : string) (h' : gmap ref provider_response)
    (Hmiss : (_getCachedResponse url w).1 = None)
    (Hlive : that0 ∈ instances w)
    (Hidle : Jsonp.timeouts (jsonp w) = [])
    (Hconv : _responseToHtml enc url (fresh (dom (heap w)))
               (<[fresh (dom (heap w)) := r]> (heap w)) = (Normal (Some markup), h')) :
  let call := length (calls w) in
  let k := Jsonp.nextNumber (jsonp w) in
  let x := fresh (dom (heap w)) in
  let w' := run enc gen ie w
              [Load that0 url o; ProviderResponds k r; Transport Jsonp.Timeout] in
  ∃ l, Forall (λ e, is_delivery e = false) l
    ∧ (opt_noNotifications o = true → l = [] ∧ aggregators w' = aggregators w)
    ∧ effects w' =
        effects w ++ l
          ++ installs gen ie that0 url markup (h' !! x)
          ++ (if opt_callback o then [OptsCallback call] else [])
          ++ (if ie then [] else [AddContent that0 ((h' !! x) ≫= r_html)])
    ∧ heap w' = h' ∧ _cache w' = <[url := x]> (_cache w)
    ∧ (k ∉ Jsonp.jsonpCallbacks (jsonp w')) ∧ (k ∉ Jsonp.body (jsonp w'))
    ∧ (ie = false → r_type r = Some "photo" → r_html r = None →
       last (effects w') = Some (AddContent that0 None)
       ∧ ∀ d c, addContent_then that0 url None d c = Throw TypeError).
Proof.
  cbv zeta. rewrite !run_cons, run_nil, step_load.
  destruct (loadContent_sends that0 url o w Hmiss)
    as (task & Hquiet & _ & Hcalls & Hjsonp & _).
  pose proof (loadContent_frame_miss that0 url o w Hmiss) as (Hh & Hc & He & Hi).
  set (wa := (loadContent that0 url o w).2) in *.
  set (k := Jsonp.nextNumber (jsonp w)) in *.
  set (call := length (calls w)) in *.
  set (c := {| Jsonp.scriptElement := Some k; Jsonp.callback := call;
               Jsonp.errorCallback := Some call |}).
  assert (Hreq : Jsonp.requests (jsonp wa) !! k = Some c).
  { rewrite Hjsonp. unfold Jsonp.sendRequest. cbn [snd Jsonp.requests].
    apply lookup_insert_eq. }
  assert (Hreg : k ∈ Jsonp.jsonpCallbacks (jsonp wa)).
  { rewrite Hjsonp. unfold Jsonp.sendRequest. cbn [snd Jsonp.jsonpCallbacks].
    apply elem_of_union. left. by apply elem_of_singleton. }
  assert (Hta : Jsonp.timeouts (jsonp wa) = []).
  { rewrite Hjsonp. unfold Jsonp.sendRequest. by cbn [snd Jsonp.timeouts]. }
  rewrite (step_provider_responds enc gen ie wa k r Hreg). rewrite Hh.
  set (x := fresh (dom (heap w))) in *. clearbody x.
  rewrite (step_timeout_delivers enc gen ie _ k x [] c);
    [|cbn [jsonp with_jsonp Jsonp.jsonpCallback Jsonp.timeouts]; by rewrite Hta
     |cbn [jsonp with_jsonp Jsonp.jsonpCallback Jsonp.requests]; done].
  cbn [jsonp with_jsonp with_heap Jsonp.jsonpCallback Jsonp.nextNumber
       Jsonp.jsonpCallbacks Jsonp.body Jsonp.requests Jsonp.callback c
       heap _cache calls pending aggregator aggregators instances effects].
  match goal with
  | |- context [finishLoading enc gen ie call x ?w0] => set (wc := w0)
  end.
  set (i := {| that := that0; inv_url := url; inv_opts := o;
               inv_request :=
                 {| req_noNotifications := opt_noNotifications o; req_url := url;
                    req_task := task; req_response := None;
                    req_cancel := Some k |} |}) in *.
  assert (Hwc : calls wc = calls wa ∧ instances wc = instances wa
                ∧ heap wc = <[x := r]> (heap w) ∧ effects wc = effects wa
                ∧ _cache wc = _cache wa ∧ aggregators wc = aggregators wa)
    by (repeat split; reflexivity).
  destruct Hwc as (Hwc1 & Hwc2 & Hwc3 & Hwc4 & Hwc5 & Hwc6).
  assert (Hwj : (k ∉ Jsonp.jsonpCallbacks (jsonp wc)) ∧ (k ∉ Jsonp.body (jsonp wc))).
  { unfold wc. cbn [jsonp with_jsonp].
    match goal with
    | |- context [Jsonp.cleanUp k ?s0] =>
        destruct (cleanUp_cleans k k c s0) as (H1 & H2 & _); [exact Hreq|done|]
    end. done. }
  clearbody wc.
  destruct (finishLoading_success enc gen ie call x wc i markup h')
    as (l & Hf & Hl & Hew & Hhw & Hcw & Hjw).
  { rewrite Hwc1, Hcalls. unfold call.
    by rewrite lookup_app_r, Nat.sub_diag by lia. }
  { by rewrite Hwc2, Hi. }
  { rewrite Hwc3. exact Hconv. }
  exists l. split; [done|]. split.
  { intros Hn. destruct (Hquiet Hn) as (Ht & Hags & _).
    destruct (Hl Ht) as [-> ->]. split; [done|]. by rewrite Hwc6. }
  rewrite Hew, Hhw, Hcw, Hjw, Hwc4, Hwc5, He, Hc.
  destruct Hwj as [Hwj1 Hwj2]. do 5 (split; [done|]).
  intros -> Hphoto Hnone. split; [|done].
  assert (Hsame : h' = <[x := r]> (heap w)).
  { unfold _responseToHtml in Hconv. rewrite lookup_insert_eq, Hphoto in Hconv.
    simpl in Hconv. congruence. }
  rewrite Hsame, lookup_insert_eq. simpl. rewrite Hnone.
  rewrite app_comm_cons, !app_assoc. apply last_snoc.
Qed.

Lemma provider_response_is_installed_and_cached_witness :
  _cache (run entity_encode (λ _, None) false sample_created
            [Load 7 "https://vid.example/1" sample_opts;
             ProviderResponds (Jsonp.nextNumber (jsonp sample_created)) sample_video;
             Transport Jsonp.Timeout])
  = <["https://vid.example/1" := fresh (dom (heap sample_created))]>
      (_cache sample_created).
Proof.
  edestruct (provider_response_is_installed_and_cached entity_encode (λ _, None) false
               sample_created 7 "https://vid.example/1" sample_opts sample_video)
    as (l & _ & _ & _ & _ & Hc & _).
  - reflexivity.
  - vm_compute. reflexivity.
  - reflexivity.
  - vm_compute. reflexivity.
  - exact Hc.
Defined.

Lemma createTask_outstanding (w : world) :
  ∃ a t ts, (_createTask w).1 = Some (a, t)
            ∧ aggregators (_createTask w).2 !! a = Some ts
            ∧ ts !! t = Some Aggregator.Outstanding.
Proof.
  assert (Hnew : ∃ a t ts, (let w1 := new_aggregator w in
            match aggregator w1 with
            | Some a =>
                match aggregators w1 !! a with
                | Some tasks =>
                    let '(i, tasks') := Aggregator.createTask tasks in
                    (Some (a, i),
                     with_aggregator (Some a) (<[a := tasks']> (aggregators w1)) w1)
                | None => (None, w1)
                end
            | None => (None, w1)
            end) = (Some (a, t),
                    with_aggregator (Some a)
                      (<[a := ts]> (aggregators (new_aggregator w))) (new_aggregator w))
            ∧ a = length (aggregators w) ∧ ts !! t = Some Aggregator.Outstanding).
  { exists (length (aggregators w)), 0, [Aggregator.Outstanding].
    cbn [new_aggregator with_aggregator aggregator aggregators].
    rewrite lookup_app_r, Nat.sub_diag by lia. done. }
  destruct Hnew as (a0 & t0 & ts0 & Hnew & Ha0 & Hts0).
  assert (Hgoal : ∀ res : option (nat * nat) * world,
            res = (Some (a0, t0),
                   with_aggregator (Some a0)
                     (<[a0 := ts0]> (aggregators (new_aggregator w))) (new_aggregator w)) →
            ∃ a t ts, res.1 = Some (a, t) ∧ aggregators res.2 !! a = Some ts
                      ∧ ts !! t = Some Aggregator.Outstanding).
  { intros res ->. exists a0, t0, ts0. split; [done|]. split; [|done].
    cbn [snd with_aggregator aggregators new_aggregator]. apply list_lookup_insert_eq.
    rewrite length_app. simpl. lia. }
  unfold _createTask.
  destruct (aggregator w) as [a|] eqn:Ha; [|by apply Hgoal].
  destruct (aggregators w !! a) as [tasks|] eqn:Hts; [|by apply Hgoal].
  destruct (Aggregator.isFinished tasks); [by apply Hgoal|].
  cbv zeta. rewrite Ha, Hts. unfold Aggregator.createTask.
  exists a, (length tasks), (tasks ++ [Aggregator.Outstanding]).
  split; [done|]. split.
  - cbn [snd with_aggregator aggregators]. apply list_lookup_insert_eq.
    by eapply lookup_lt_Some.
  - by rewrite lookup_app_r, Nat.sub_diag by lia.
Qed.

Lemma step_script_error (enc : prop → string) (gen : provider_response → prop)
    (ie : bool) (w : world) (k call : nat) (c : Jsonp.closure) :
  Jsonp.requests (jsonp w) !! k = Some c → Jsonp.errorCallback c = Some call →
  step enc gen ie w (Transport (Jsonp.ScriptError k)) =
    request_errorCallback call (Some "fetchingFailed")
      (with_jsonp (Jsonp.cleanUp k (jsonp w)) w).
Proof.
  intros Hc He. unfold step, transport_step, Jsonp.step, Jsonp.onError.
  rewrite Hc, He. reflexivity.
Qed.

Lemma resolve_task_outcome (o : Aggregator.task) (a t : nat) (w : world)
    (ts : list Aggregator.task) :
  aggregators w !! a = Some ts → ts !! t = Some Aggregator.Outstanding →
  ∃ ts', aggregators (resolve_task o (a, t) w) !! a = Some ts' ∧ ts' !! t = Some o.
Proof.
  intros Ha Ht. unfold resolve_task. cbn [fst snd]. rewrite Ha.
  unfold Aggregator.resolve. rewrite Ht.
  exists (<[t := o]> ts).
  assert (Hl : <[a := <[t := o]> ts]> (aggregators w) !! a = Some (<[t := o]> ts)).
  { apply list_lookup_insert_eq. by eapply lookup_lt_Some. }
  split.
  - by destruct (Aggregator.isFinished (<[t := o]> ts)).
  - apply list_lookup_insert_eq. by eapply lookup_lt_Some.
Qed.

(** X11: a widget asks for a URL for which the lookup in the response cache
    finds nothing, and the browser reports an error on the script of the
    request: the progress task
    of the request is canceled, one notification of kind [fetchingFailed] is
    shown for the URL, and then the error callback of the caller, if one was
    given, is called with [fetchingFailed]. With [noNotifications] there is
    no task and no notification, only the error callback. Nothing is cached,
    no response object is touched, and the callback and the script of the
    request are gone. *)
Theorem failed_fetch_is_reported (enc : prop → string)
    (gen : provider_response → prop) (ie : bool) (w : world)
    (that0 : nat) (url : string) (o : opts)
    (Hmiss : (_getCachedResponse url w).1 = None) :
  let call := length (calls w) in
  let k := Jsonp.nextNumber (jsonp w) in
  let w' := run enc gen ie w [Load that0 url o; Transport (Jsonp.ScriptError k)] in
  ∃ l, Forall (λ e, is_delivery e = false) l
    ∧ effects w' =
        effects w ++ l
          ++ (if opt_noNotifications o then []
              else [ShowNotification (Some "fetchingFailed") url])
          ++ (if opt_errorCallback o
              then [OptsErrorCallback call (Some "fetchingFailed")] else [])
    ∧ (opt_noNotifications o = true → l = [] ∧ aggregators w' = aggregators w)
    ∧ (opt_noNotifications o = false →
       ∃ a t ts, (calls w' !! call) ≫= (λ i, req_task (inv_request i)) = Some (a, t)
                 ∧ aggregators w' !! a = Some ts
                 ∧ ts !! t = Some Aggregator.Canceled)
    ∧ heap w' = heap w ∧ _cache w' = _cache w
    ∧ (k ∉ Jsonp.jsonpCallbacks (jsonp w')) ∧ (k ∉ Jsonp.body (jsonp w')).
Proof.
  cbv zeta. rewrite !run_cons, run_nil, step_load.
  destruct (loadContent_sends that0 url o w Hmiss)
    as (task & Hquiet & Hloud & Hcalls & Hjsonp & _).
  pose proof (loadContent_frame_miss that0 url o w Hmiss) as (Hh & Hc & He & Hi).
  set (wa := (loadContent that0 url o w).2) in *.
  set (k := Jsonp.nextNumber (jsonp w)) in *.
  set (call := length (calls w)) in *.
  set (c := {| Jsonp.scriptElement := Some k; Jsonp.callback := call;
               Jsonp.errorCallback := Some call |}).
  assert (Hreq : Jsonp.requests (jsonp wa) !! k = Some c).
  { rewrite Hjsonp. unfold Jsonp.sendRequest. cbn [snd Jsonp.requests].
    apply lookup_insert_eq. }
  rewrite (step_script_error enc gen ie wa k call c Hreq eq_refl).
  set (wc := with_jsonp (Jsonp.cleanUp k (jsonp wa)) wa).
  assert (Hwc : calls wc = calls wa ∧ heap wc = heap wa ∧ effects wc = effects wa
                ∧ _cache wc = _cache wa ∧ aggregators wc = aggregators wa)
    by (repeat split; reflexivity).
  destruct Hwc as (Hwc1 & Hwc3 & Hwc4 & Hwc5 & Hwc6).
  assert (Hwj : (k ∉ Jsonp.jsonpCallbacks (jsonp wc)) ∧ (k ∉ Jsonp.body (jsonp wc))).
  { unfold wc. cbn [jsonp with_jsonp].
    destruct (cleanUp_cleans k k c (jsonp wa)) as (H1 & H2 & _); done. }
  clearbody wc.
  set (i := {| that := that0; inv_url := url; inv_opts := o;
               inv_request :=
                 {| req_noNotifications := opt_noNotifications o; req_url := url;
                    req_task := task; req_response := None;
                    req_cancel := Some k |} |}) in *.
  assert (Hlk : calls wc !! call = Some i).
  { rewrite Hwc1, Hcalls. unfold call. by rewrite lookup_app_r, Nat.sub_diag by lia. }
  unfold request_errorCallback. rewrite Hlk. unfold _handleError.
  cbn [i inv_request inv_opts req_task req_noNotifications req_url].
  destruct (opt_noNotifications o) eqn:Hn.
  - destruct (Hquiet eq_refl) as (-> & Hags & _). exists []. split; [done|].
    assert (Hfin : ∀ wf : world,
              effects wf = effects wc
                ++ (if opt_errorCallback o
                    then [OptsErrorCallback call (Some "fetchingFailed")] else []) →
              aggregators wf = aggregators wc → heap wf = heap wc →
              _cache wf = _cache wc → jsonp wf = jsonp wc → calls wf = calls wc →
              effects wf = effects w ++ [] ++ [] ++
                (if opt_errorCallback o
                 then [OptsErrorCallback call (Some "fetchingFailed")] else [])
              ∧ (true = true → @nil effect = [] ∧ aggregators wf = aggregators w)
              ∧ (true = false →
                 ∃ a t ts, (calls wf !! call) ≫= (λ i, req_task (inv_request i))
                           = Some (a, t)
                           ∧ aggregators wf !! a = Some ts
                           ∧ ts !! t = Some Aggregator.Canceled)
              ∧ heap wf = heap w ∧ _cache wf = _cache w
              ∧ (k ∉ Jsonp.jsonpCallbacks (jsonp wf)) ∧ (k ∉ Jsonp.body (jsonp wf))).
    { intros wf E1 E2 E3 E4 E5 E6. rewrite E1, E2, E3, E4, E5.
      rewrite Hwc3, Hwc4, Hwc5, Hwc6, He, Hh, Hc, Hags. done. }
    destruct (opt_errorCallback o); apply Hfin; try done.
    by rewrite app_nil_r.
  - destruct (Hloud eq_refl) as (Ht & Hags & _).
    destruct (createTask_outstanding w) as (a & t & ts & Hct & Hcl & Hout).
    rewrite Hct in Ht. subst task. rewrite <- Hags, <- Hwc6 in Hcl.
    destruct (resolve_task_effects Aggregator.Canceled (a, t) wc) as (l & Hl1 & Hl2).
    pose proof (resolve_task_cache Aggregator.Canceled (a, t) wc) as (A & B & C & D).
    destruct (resolve_task_outcome Aggregator.Canceled a t wc ts Hcl Hout)
      as (ts' & Hts' & Hcan).
    set (wr := resolve_task Aggregator.Canceled (a, t) wc) in *. clearbody wr.
    exists l. split; [done|]. cbn [negb].
    assert (Hfin : ∀ wf : world,
              effects wf = effects wr
                ++ [ShowNotification (Some "fetchingFailed") url]
                ++ (if opt_errorCallback o
                    then [OptsErrorCallback call (Some "fetchingFailed")] else []) →
              aggregators wf = aggregators wr → heap wf = heap wr →
              _cache wf = _cache wr → jsonp wf = jsonp wr → calls wf = calls wr →
              effects wf = effects w ++ l
                ++ [ShowNotification (Some "fetchingFailed") url]
                ++ (if opt_errorCallback o
                    then [OptsErrorCallback call (Some "fetchingFailed")] else [])
              ∧ (false = true → l = [] ∧ aggregators wf = aggregators w)
              ∧ (false = false →
                 ∃ a t ts, (calls wf !! call) ≫= (λ i, req_task (inv_request i))
                           = Some (a, t)
                           ∧ aggregators wf !! a = Some ts
                           ∧ ts !! t = Some Aggregator.Canceled)
              ∧ heap wf = heap w ∧ _cache wf = _cache w
              ∧ (k ∉ Jsonp.jsonpCallbacks (jsonp wf)) ∧ (k ∉ Jsonp.body (jsonp wf))).
    { intros wf E1 E2 E3 E4 E5 E6. rewrite E1, E2, E3, E4, E5, E6.
      rewrite Hl1, A, B, C, D, Hwc3, Hwc4, Hwc5, He, Hh, Hc, Hlk, <- !app_assoc.
      split; [done|]. split; [done|]. split; [|done].
      intros _. exists a, t, ts'. done. }
    destruct (opt_errorCallback o); apply Hfin; try done.
    cbn [emit effects]. by rewrite <- app_assoc.
Qed.

Lemma failed_fetch_is_reported_witness :
  ∃ l, effects (run entity_encode (λ _, None) false sample_created
                  [Load 7 "https://vid.example/1" sample_opts;
                   Transport (Jsonp.ScriptError (Jsonp.nextNumber (jsonp sample_created)))])
       = effects sample_created ++ l
           ++ [ShowNotification (Some "fetchingFailed") "https://vid.example/1"]
           ++ [OptsErrorCallback (length (calls sample_created)) (Some "fetchingFailed")].
Proof.
  destruct (failed_fetch_is_reported entity_encode (λ _, None) false sample_created
              7 "https://vid.example/1" sample_opts) as (l & _ & He & _).
  - reflexivity.
  - exists l. exact He.
Defined.

(** ** The validation of a URL *)

Lemma starts_with_i_app (pat s rest : string) :
  starts_with_i pat s = true → starts_with_i pat (s +:+ rest) = true.
Proof.
  revert s. induction pat as [|a p IH]; intros s; [done|].
  destruct s as [|b t]; [done|]. rewrite append_cons. simpl.
  intros H. apply andb_true_iff in H as [-> H]. by apply IH.
Qed.

Lemma to_lower_upper (c : ascii) : to_lower (to_upper c) = to_lower c.
Proof. destruct c as [[] [] [] [] [] [] [] []]; reflexivity. Qed.

Lemma to_lower_lower (c : ascii) : to_lower (to_lower c) = to_lower c.
Proof. destruct c as [[] [] [] [] [] [] [] []]; reflexivity. Qed.

Lemma starts_with_i_upper (pat s : string) :
  starts_with_i pat (upper_string s) = starts_with_i pat s.
Proof.
  revert s. induction pat as [|a p IH]; intros s; [done|].
  destruct s as [|b t]; [done|]. cbn [upper_string starts_with_i].
  unfold eqb_i. by rewrite to_lower_upper, IH.
Qed.

Lemma starts_with_i_lower (pat s : string) :
  starts_with_i pat (lower_string s) = starts_with_i pat s.
Proof.
  revert s. induction pat as [|a p IH]; intros s; [done|].
  destruct s as [|b t]; [done|]. cbn [lower_string starts_with_i].
  unfold eqb_i. by rewrite to_lower_lower, IH.
Qed.

(** X12: the validation of a URL reads its beginning only and ignores the
    case of the letters. A URL that passes the pattern still passes with
    anything appended to it; a URL passes exactly when its upper-case or
    lower-case form does; the empty text, and any text whose first character
    is none of [h], [H], [w], [W] and [/], is refused. [isUrlValid] is true
    only when the pattern matches and no listener of [validateUrl] cancels,
    and the event is not fired at all for a URL that the pattern refuses. *)
Theorem url_validation_reads_the_prefix (validateUrl : string → bool)
    (url rest : string) (c : ascii) :
  (urlRegExp_test url = true → urlRegExp_test (url +:+ rest) = true)
  ∧ urlRegExp_test (upper_string url) = urlRegExp_test url
  ∧ urlRegExp_test (lower_string url) = urlRegExp_test url
  ∧ urlRegExp_test EmptyString = false
  ∧ (urlRegExp_test (String c rest) = true →
     to_lower c = "h"%char ∨ to_lower c = "w"%char ∨ c = "/"%char)
  ∧ ((isUrlValid validateUrl url).1 = true ↔
     urlRegExp_test url = true ∧ validateUrl url = true)
  ∧ (urlRegExp_test url = false → isUrlValid validateUrl url = (false, []))
  ∧ (urlRegExp_test url = true → (isUrlValid validateUrl url).2 = [url]).
Proof.
  split.
  { unfold urlRegExp_test. rewrite !orb_true_iff.
    intros [[[H|H]|H]|H]; apply (starts_with_i_app _ _ rest) in H; rewrite H;
      rewrite ?orb_true_r; tauto. }
  split; [unfold urlRegExp_test; by rewrite !starts_with_i_upper|].
  split; [unfold urlRegExp_test; by rewrite !starts_with_i_lower|].
  split; [done|]. split.
  { unfold urlRegExp_test. cbn [starts_with_i]. unfold eqb_i.
    change (to_lower "h") with "h"%char. change (to_lower "/") with "/"%char.
    change (to_lower "w") with "w"%char.
    rewrite !orb_true_iff, !andb_true_iff.
    intros [[[[H _]|[H _]]|[H _]]|[H _]]; apply Ascii.eqb_eq in H.
    - by left.
    - by left.
    - right. right. revert H. clear.
      destruct c as [[] [] [] [] [] [] [] []]; vm_compute; congruence.
    - right. by left. }
  unfold isUrlValid. destruct (urlRegExp_test url); simpl.
  - split; [tauto|]. done.
  - split; [|done]. split; [done|]. by intros [? _].
Qed.

(** ** The height of the frame *)

(** X13: the height given to the frame is never more than the scroll height
    of its body: it is the smaller of the two scroll heights when the
    container has a height, and the height of the body when the container
    has none; it is positive whenever the body has a height. *)
Theorem frame_height_is_bounded_by_the_body (elHeight docHeight : Z) :
  (getHeight elHeight docHeight ≤ docHeight)%Z
  ∧ ((0 < elHeight)%Z → getHeight elHeight docHeight = Z.min elHeight docHeight)
  ∧ ((elHeight ≤ 0)%Z → getHeight elHeight docHeight = docHeight)
  ∧ ((0 < docHeight)%Z → (0 < getHeight elHeight docHeight)%Z).
Proof.
  unfold getHeight.
  destruct (Z.ltb_spec elHeight docHeight), (Z.ltb_spec 0 elHeight);
    simpl; repeat split; intros; lia.
Qed.

Lemma well_locked_app (es1 es2 : list editor_event) (b : bool) :
  well_locked b es1 = true → well_locked false es2 = true →
  well_locked b (es1 ++ es2) = true.
Proof.
  revert b. induction es1 as [|e es1 IH]; intros b H1 H2.
  - simpl in *. by destruct b.
  - destruct e; simpl in *; apply andb_true_iff in H1 as [-> H1]; simpl; by apply IH.
Qed.

Lemma interval_tick_locked (last : option Z) (r : Z * Z) :
  well_locked false (interval_tick last r).2 = true.
Proof.
  unfold interval_tick. destruct last as [l|]; [|done].
  by destruct (r.1 =? l)%Z.
Qed.

Lemma poll_locked (rs : list (Z * Z)) (last : option Z) :
  well_locked false (poll last rs).2 = true.
Proof.
  revert last. induction rs as [|r rs IH]; intros last; [done|]. simpl.
  pose proof (interval_tick_locked last r) as H1.
  destruct (interval_tick last r) as [l1 e1]. specialize (IH l1).
  destruct (poll l1 rs) as [l2 e2]. simpl in *. by apply well_locked_app.
Qed.

Lemma poll_constant (rs : list (Z * Z)) (h : Z) :
  Forall (λ r, r.1 = h) rs → poll (Some h) rs = (Some h, []).
Proof.
  induction rs as [|r rs IH]; intros H; [done|].
  apply Forall_cons in H as [Hr H]. simpl. rewrite Hr, Z.eqb_refl.
  by rewrite (IH H).
Qed.

Lemma poll_count (rs : list (Z * Z)) (last : option Z) :
  (count_if is_set_height (poll last rs).2 ≤ length rs)%nat.
Proof.
  revert last. induction rs as [|r rs IH]; intros last; [done|]. simpl.
  assert (H1 : (count_if is_set_height (interval_tick last r).2 ≤ 1)%nat).
  { unfold interval_tick. destruct last as [l|]; [|done].
    destruct (r.1 =? l)%Z; simpl; lia. }
  destruct (interval_tick last r) as [l1 e1]. specialize (IH l1).
  destruct (poll l1 rs) as [l2 e2]. simpl in *. rewrite count_if_app. lia.
Qed.

(** X14: the interval that watches the height of the content. Whatever the
    heights are when it runs, the snapshot lock is released each time it was
    taken, the height of the frame is set only while the lock is held, and
    the snapshot is updated only after the lock is released; each run sets
    the height at most once. While the height of the container stays what
    it was, nothing is done, whatever the height of the body becomes. The
    first run after [addResizeListener] always resizes once more, for any
    heights, because the height of the first [resize()] is not remembered. *)
Theorem resize_poll_is_well_locked (rs : list (Z * Z)) (last : option Z)
    (h : Z) (r : Z * Z) :
  well_locked false (poll last rs).2 = true
  ∧ (count_if is_set_height (poll last rs).2 ≤ length rs)%nat
  ∧ (Forall (λ r, r.1 = h) rs → poll (Some h) rs = (Some h, []))
  ∧ well_locked false (addResizeListener r).2 = true
  ∧ interval_tick (addResizeListener r).1 r = (Some r.1, resize r.1 r.2)
  ∧ (r.1 ≠ h → interval_tick (Some h) r = (Some r.1, resize r.1 r.2)).
Proof.
  split; [apply poll_locked|]. split; [apply poll_count|].
  split; [apply poll_constant|]. split; [done|]. split; [done|].
  intros Hne. unfold interval_tick.
  destruct (r.1 =? h)%Z eqn:E; [|done]. apply Z.eqb_eq in E. done.
Qed.

(** ** The style sheet of the plugin *)

Lemma init_all_loaded (editors : list (nat * bool * string)) (l : list style_effect) :
  init_all editors (true, l) =
    (true, l ++ omap (λ e : nat * bool * string,
                        if e.1.2
                        then Some (AddContentsCss e.1.1 (e.2 +:+ "styles/embedbase.css"))
                        else None) editors).
Proof.
  revert l. induction editors as [|[[ed has] path] editors IH]; intros l.
  - simpl. by rewrite app_nil_r.
  - unfold init_all in *. cbn [foldl]. unfold loadStyles at 2. simpl.
    destruct has; simpl.
    + rewrite IH. by rewrite <- app_assoc.
    + by rewrite IH.
Qed.

(** X15: however many editors the plugin is initialised for, the style
    sheet is appended to the document once, by the first [loadStyles], with
    the path of that call; after it, each editor that has [addContentsCss]
    gets the style sheet added to its contents, in the order of the calls,
    and nothing else is done. *)
Theorem style_sheet_is_appended_once (ed : nat) (has : bool) (path : string)
    (editors : list (nat * bool * string)) :
  init_all ((ed, has, path) :: editors) (false, []) =
    (true,
     AppendStyleSheet (path +:+ "styles/embedbase.css")
       :: omap (λ e : nat * bool * string,
                  if e.1.2
                  then Some (AddContentsCss e.1.1 (e.2 +:+ "styles/embedbase.css"))
                  else None) ((ed, has, path) :: editors))
  ∧ count_if is_append (init_all ((ed, has, path) :: editors) (false, [])).2 = 1.
Proof.
  assert (H : init_all ((ed, has, path) :: editors) (false, []) =
    (true,
     AppendStyleSheet (path +:+ "styles/embedbase.css")
       :: omap (λ e : nat * bool * string,
                  if e.1.2
                  then Some (AddContentsCss e.1.1 (e.2 +:+ "styles/embedbase.css"))
                  else None) ((ed, has, path) :: editors))).
  { unfold init_all. cbn [foldl]. unfold loadStyles at 2. simpl.
    destruct has; simpl.
    - pose proof (init_all_loaded editors) as H. unfold init_all in H. by rewrite H.
    - pose proof (init_all_loaded editors) as H. unfold init_all in H. by rewrite H. }
  split; [exact H|]. rewrite H. cbn [snd count_if is_append].
  match goal with |- 1 + count_if _ ?l = 1 => assert (count_if is_append l = 0) as ->; [|done] end.
  generalize ((ed, has, path) :: editors). clear.
  induction l as [|[[e h] p] l IH]; [done|]. simpl. by destruct h.
Qed.

(** ** Canceling a request *)

Lemma step_request_cancel (enc : prop → string) (gen : provider_response → prop)
    (ie : bool) (w : world) (call k : nat) (i : invocation) :
  calls w !! call = Some i → req_cancel (inv_request i) = Some k →
  step enc gen ie w (RequestCancel call) =
    emit [RequestCanceled call] (with_jsonp (Jsonp.cleanUp k (jsonp w)) w).
Proof.
  intros Hi Hk. unfold step. rewrite Hi, Hk. reflexivity.
Qed.

Lemma step_provider_ignored (enc : prop → string) (gen : provider_response → prop)
    (ie : bool) (w : world) (k : nat) (r : provider_response) :
  k ∉ Jsonp.jsonpCallbacks (jsonp w) →
  step enc gen ie w (ProviderResponds k r) =
    with_jsonp (jsonp w) (with_heap (<[fresh (dom (heap w)) := r]> (heap w)) w).
Proof.
  intros Hk. unfold step, transport_step.
  generalize (fresh (dom (heap w))). intros x.
  change (jsonp (with_heap (<[x:=r]> (heap w)) w)) with (jsonp w).
  unfold Jsonp.step. rewrite decide_False by done. reflexivity.
Qed.

Lemma outstanding_not_finished (ts : list Aggregator.task) (t : nat) :
  ts !! t = Some Aggregator.Outstanding → Aggregator.isFinished ts = false.
Proof.
  intros Ht. rewrite isFinished_outstanding.
  destruct (outstanding ts) eqn:E; [|done].
  pose proof (proj1 (outstanding_zero ts) E t) as Hz. done.
Qed.

(** X16: [cancel()] of a request cancels the transport and announces it, and
    that is all. After a widget has asked for a URL for which the lookup in
    the response cache finds nothing, and the holder of the request has
    called [cancel()], the
    callback and the script of the request are gone, [requestCanceled] has
    been fired and nothing else is seen; an answer of the provider that
    comes later is ignored. The progress task of the request is neither
    done nor canceled: it stays outstanding and its aggregator is not
    finished. *)
Theorem cancel_leaves_the_task_outstanding (enc : prop → string)
    (gen : provider_response → prop) (ie : bool) (w : world)
    (that0 : nat) (url : string) (o : opts) (r : provider_response)
    (Hmiss : (_getCachedResponse url w).1 = None) :
  let call := length (calls w) in
  let k := Jsonp.nextNumber (jsonp w) in
  let w' := run enc gen ie w [Load that0 url o; RequestCancel call] in
  effects w' = effects w ++ [RequestCanceled call]
  ∧ (k ∉ Jsonp.jsonpCallbacks (jsonp w')) ∧ (k ∉ Jsonp.body (jsonp w'))
  ∧ heap w' = heap w ∧ _cache w' = _cache w
  ∧ (opt_noNotifications o = false →
     ∃ a t ts, (calls w' !! call) ≫= (λ i, req_task (inv_request i)) = Some (a, t)
               ∧ aggregators w' !! a = Some ts
               ∧ ts !! t = Some Aggregator.Outstanding
               ∧ Aggregator.isFinished ts = false)
  ∧ effects (step enc gen ie w' (ProviderResponds k r)) = effects w'
  ∧ jsonp (step enc gen ie w' (ProviderResponds k r)) = jsonp w'
  ∧ _cache (step enc gen ie w' (ProviderResponds k r)) = _cache w'.
Proof.
  cbv zeta. rewrite !run_cons, run_nil, step_load.
  destruct (loadContent_sends that0 url o w Hmiss)
    as (task & _ & Hloud & Hcalls & Hjsonp & _).
  pose proof (loadContent_frame_miss that0 url o w Hmiss) as (Hh & Hc & He & Hi).
  set (wa := (loadContent that0 url o w).2) in *.
  set (k := Jsonp.nextNumber (jsonp w)) in *.
  set (call := length (calls w)) in *.
  set (c := {| Jsonp.scriptElement := Some k; Jsonp.callback := call;
               Jsonp.errorCallback := Some call |}).
  assert (Hreq : Jsonp.requests (jsonp wa) !! k = Some c).
  { rewrite Hjsonp. unfold Jsonp.sendRequest. cbn [snd Jsonp.requests].
    apply lookup_insert_eq. }
  set (i := {| that := that0; inv_url := url; inv_opts := o;
               inv_request :=
                 {| req_noNotifications := opt_noNotifications o; req_url := url;
                    req_task := task; req_response := None;
                    req_cancel := Some k |} |}) in *.
  assert (Hlk : calls wa !! call = Some i).
  { rewrite Hcalls. unfold call. by rewrite lookup_app_r, Nat.sub_diag by lia. }
  rewrite (step_request_cancel enc gen ie wa call k i Hlk eq_refl).
  set (wc := emit [RequestCanceled call] (with_jsonp (Jsonp.cleanUp k (jsonp wa)) wa)).
  assert (Hwc : calls wc = calls wa ∧ heap wc = heap wa
                ∧ effects wc = effects wa ++ [RequestCanceled call]
                ∧ _cache wc = _cache wa ∧ aggregators wc = aggregators wa)
    by (repeat split; reflexivity).
  destruct Hwc as (Hwc1 & Hwc3 & Hwc4 & Hwc5 & Hwc6).
  assert (Hwj : (k ∉ Jsonp.jsonpCallbacks (jsonp wc)) ∧ (k ∉ Jsonp.body (jsonp wc))).
  { unfold wc. cbn [jsonp with_jsonp emit].
    destruct (cleanUp_cleans k k c (jsonp wa)) as (H1 & H2 & _); done. }
  clearbody wc. destruct Hwj as [Hwj1 Hwj2].
  rewrite (step_provider_ignored enc gen ie wc k r Hwj1).
  cbn [effects jsonp _cache with_jsonp with_heap].
  rewrite Hwc3, Hwc4, Hwc5, He, Hh, Hc.
  repeat (split; [done|]). split; [|done].
  intros Hn. destruct (Hloud Hn) as (Ht & Hags & _).
  destruct (createTask_outstanding w) as (a & t & ts & Hct & Hcl & Hout).
  rewrite Hct in Ht. subst task. exists a, t, ts.
  rewrite Hwc1, Hlk, Hwc6, Hags. split; [done|]. split; [done|]. split; [done|].
  by eapply outstanding_not_finished.
Qed.

Lemma cancel_leaves_the_task_outstanding_witness :
  effects (run entity_encode (λ _, None) false sample_created
             [Load 7 "https://vid.example/1" sample_opts;
              RequestCancel (length (calls sample_created))])
  = effects sample_created ++ [RequestCanceled (length (calls sample_created))].
Proof.
  destruct (cancel_leaves_the_task_outstanding entity_encode (λ _, None) false
              sample_created 7 "https://vid.example/1" sample_opts sample_video)
    as (He & _).
  - reflexivity.
  - exact He.
Defined.

(** ** The content of the frame *)

Lemma starts_with_next (q s1 rest : string) (c0 : ascii) :
  matches_none q c0 = true → starts_with q s1 = false →
  starts_with q (s1 +:+ String c0 rest) = false.
Proof.
  revert s1. induction q as [|x q IH]; intros s1 Hm H.
  - by destruct s1.
  - cbn [matches_none] in Hm. apply andb_true_iff in Hm as [Hx Hm].
    apply negb_true_iff in Hx. destruct s1 as [|c s1].
    + rewrite append_nil_l, starts_with_cons, Hx. done.
    + rewrite append_cons, starts_with_cons. rewrite starts_with_cons in H.
      destruct (Ascii.eqb x c); [|done]. rewrite andb_true_l in *. by apply IH.
Qed.

Lemma starts_with_i_cons (a b : ascii) (p t : string) :
  starts_with_i (String a p) (String b t) = eqb_i a b && starts_with_i p t.
Proof. reflexivity. Qed.

Lemma starts_with_i_next (q s1 rest : string) (c0 : ascii) :
  matches_none_i q c0 = true → starts_with_i q s1 = false →
  starts_with_i q (s1 +:+ String c0 rest) = false.
Proof.
  revert s1. induction q as [|x q IH]; intros s1 Hm H.
  - by destruct s1.
  - cbn [matches_none_i] in Hm. apply andb_true_iff in Hm as [Hx Hm].
    apply negb_true_iff in Hx. destruct s1 as [|c s1].
    + rewrite append_nil_l, starts_with_i_cons, Hx. done.
    + rewrite append_cons, starts_with_i_cons. rewrite starts_with_i_cons in H.
      destruct (eqb_i x c); [|done]. rewrite andb_true_l in *. by apply IH.
Qed.

Lemma matches_none_app (q1 q2 : string) (c : ascii) :
  matches_none (q1 +:+ q2) c = matches_none q1 c && matches_none q2 c.
Proof.
  induction q1 as [|x q1 IH]; [by rewrite append_nil_l|].
  rewrite append_cons. cbn [matches_none]. by rewrite IH, andb_assoc.
Qed.

Lemma append_nil_r_s (a : string) : a +:+ EmptyString = a.
Proof. induction a as [|x a IH]; [done|]. by rewrite append_cons, IH. Qed.

(** A line terminator does not begin in a text and end in what follows it
    when what follows begins with none of its bytes. *)
Lemma is_line_terminator_app (s1 s2 : string) :
  safe_head s2 = true → is_line_terminator s1 = false →
  is_line_terminator (s1 +:+ s2) = false.
Proof.
  intros Hs2 H. unfold is_line_terminator in *.
  apply orb_false_elim in H as [H H4]. apply orb_false_elim in H as [H H3].
  apply orb_false_elim in H as [H1 H2].
  destruct s2 as [|c rest]; [by rewrite append_nil_r_s, H1, H2, H3, H4|].
  unfold safe_head, terminator_bytes in Hs2. rewrite !matches_none_app in Hs2.
  apply andb_true_iff in Hs2 as [Ha Hs2]. apply andb_true_iff in Hs2 as [Hb Hs2].
  apply andb_true_iff in Hs2 as [Hc Hd].
  by rewrite (starts_with_next _ _ _ _ Ha H1), (starts_with_next _ _ _ _ Hb H2),
    (starts_with_next _ _ _ _ Hc H3), (starts_with_next _ _ _ _ Hd H4).
Qed.

Lemma is_group_stop_line_terminator (s : string) :
  is_line_terminator s = false → is_group_stop s = false.
Proof.
  unfold is_line_terminator, is_group_stop. intros H.
  apply orb_false_elim in H as [H H4]. apply orb_false_elim in H as [H H3].
  apply orb_false_elim in H as [H1 H2]. by rewrite H2, H3, H4.
Qed.

Lemma is_group_stop_app (s1 s2 : string) :
  safe_head s2 = true → is_group_stop s1 = false → is_group_stop (s1 +:+ s2) = false.
Proof.
  intros Hs2 H. unfold is_group_stop in *.
  apply orb_false_elim in H as [H H4]. apply orb_false_elim in H as [H2 H3].
  destruct s2 as [|c rest]; [by rewrite append_nil_r_s, H2, H3, H4|].
  unfold safe_head, terminator_bytes in Hs2. rewrite !matches_none_app in Hs2.
  apply andb_true_iff in Hs2 as [Ha Hs2]. apply andb_true_iff in Hs2 as [Hb Hs2].
  apply andb_true_iff in Hs2 as [Hc Hd].
  by rewrite (starts_with_next _ _ _ _ Hb H2),
    (starts_with_next _ _ _ _ Hc H3), (starts_with_next _ _ _ _ Hd H4).
Qed.

Lemma has_line_terminator_app (a b : string) :
  safe_head b = true → has_line_terminator a = false → has_line_terminator b = false →
  has_line_terminator (a +:+ b) = false.
Proof.
  intros Hs Ha Hb. induction a as [|x a IH]; [by rewrite append_nil_l|].
  cbn [has_line_terminator] in Ha. apply orb_false_elim in Ha as [Hx Ha].
  destruct b as [|y b]; [by rewrite append_nil_r_s; cbn [has_line_terminator]; rewrite Hx|].
  rewrite append_cons. cbn [has_line_terminator]. rewrite (IH Ha), orb_false_r.
  rewrite <- append_cons. by apply is_line_terminator_app.
Qed.

Lemma last_src_free (tail : string) (best : option string) :
  occurs src_attr tail = false → last_src tail best = best.
Proof.
  revert best. induction tail as [|c t IH]; intros best H; [done|].
  cbn [occurs] in H. apply orb_false_elim in H as [H1 H2].
  cbn [last_src]. rewrite H1. destruct (is_line_terminator (String c t)); [done|].
  by apply IH.
Qed.

Lemma last_src_here (tail : string) (best : option string) :
  last_src (src_attr +:+ tail) best = last_src tail (Some tail).
Proof. reflexivity. Qed.

Lemma last_src_found (b tail : string) (best : option string) :
  has_line_terminator b = false → occurs src_attr tail = false →
  last_src (b +:+ src_attr +:+ tail) best = Some tail.
Proof.
  revert best. induction b as [|c b IH]; intros best Hb Ht.
  - rewrite append_nil_l, last_src_here. by apply last_src_free.
  - cbn [has_line_terminator] in Hb. apply orb_false_elim in Hb as [Hc Hb].
    rewrite append_cons. cbn [last_src].
    pose proof (is_line_terminator_app (String c b) (src_attr +:+ tail) eq_refl Hc) as Hlt.
    rewrite append_cons in Hlt. rewrite Hlt. by apply IH.
Qed.

Lemma until_quote_app (u c : string) :
  has_char quote_char u = false → until_quote (u +:+ dquote +:+ c) = u.
Proof.
  induction u as [|a u IH]; intros H; [done|].
  cbn [has_char] in H. apply orb_false_elim in H as [Ha H].
  rewrite append_cons. cbn [until_quote]. rewrite Ha. by rewrite IH.
Qed.

Lemma match_script_src_free (s : string) :
  occurs "<script" s = false → match_script_src s = None.
Proof.
  induction s as [|c t IH]; intros H; [done|].
  cbn [occurs] in H. apply orb_false_elim in H as [H1 H2].
  cbn [match_script_src]. rewrite H1. by apply IH.
Qed.

Lemma match_script_src_last (a b u c : string)
    (Ha : occurs "<script" a = false)
    (Hb : has_line_terminator b = false)
    (Hu : has_char quote_char u = false)
    (Hc : occurs src_attr (u +:+ dquote +:+ c) = false) :
  match_script_src (a +:+ "<script" +:+ b +:+ src_attr +:+ u +:+ dquote +:+ c) = Some u.
Proof.
  induction a as [|c0 a IH].
  - rewrite append_nil_l.
    change ("<script" +:+ b +:+ src_attr +:+ u +:+ dquote +:+ c) with
      (String "<" ("script" +:+ b +:+ src_attr +:+ u +:+ dquote +:+ c)).
    cbn [match_script_src].
    change (starts_with "<script"
              (String "<" ("script" +:+ b +:+ src_attr +:+ u +:+ dquote +:+ c)))
      with true.
    change (drop_string 7 (String "<" ("script" +:+ b +:+ src_attr +:+ u +:+ dquote +:+ c)))
      with (b +:+ src_attr +:+ u +:+ dquote +:+ c).
    rewrite (last_src_found b _ None Hb Hc). by rewrite until_quote_app.
  - cbn [occurs] in Ha. apply orb_false_elim in Ha as [H1 H2].
    rewrite append_cons. cbn [match_script_src].
    assert (Hs : starts_with "<script"
                   (String c0 (a +:+ "<script" +:+ b +:+ src_attr +:+ u +:+ dquote +:+ c))
                 = false).
    { rewrite starts_with_cons. rewrite starts_with_cons in H1.
      destruct (Ascii.eqb "<" c0); [|done]. rewrite andb_true_l in *.
      change ("<script" +:+ b +:+ src_attr +:+ u +:+ dquote +:+ c) with
        (String "<" ("script" +:+ b +:+ src_attr +:+ u +:+ dquote +:+ c)).
      by apply starts_with_next. }
    rewrite Hs. by apply IH.
Qed.


(** X17: the script URL that [addContent] takes from the content is the
    value of the last [src] attribute on the line of the first [<script],
    whatever element that attribute belongs to: when nothing before the
    first [<script] is a [<script], the text [b] between it and a [src]
    attribute has no line terminator (line feed, carriage return, U+2028
    or U+2029) and no [src] attribute follows the value [u], the URL is
    [u], whatever [b] holds besides, tags and other [src] attributes
    included. A content that has no [<script] has no script URL. *)
Theorem script_url_is_the_last_src_of_the_line (a b u c : string)
    (Ha : occurs "<script" a = false)
    (Hb : has_line_terminator b = false)
    (Hu : has_char quote_char u = false)
    (Hc : occurs src_attr (u +:+ dquote +:+ c) = false) :
  match_script_src (a +:+ "<script" +:+ b +:+ src_attr +:+ u +:+ dquote +:+ c) = Some u
  ∧ match_script_src a = None.
Proof.
  split; [by apply match_script_src_last|by apply match_script_src_free].
Qed.

Lemma script_url_is_the_last_src_of_the_line_witness :
  match_script_src
    (EmptyString +:+ "<script"
       +:+ (" " +:+ src_attr +:+ "a.js" +:+ dquote +:+ "></script><img ")
       +:+ src_attr +:+ "b.png" +:+ dquote +:+ ">") = Some "b.png"
  ∧ match_script_src EmptyString = None.
Proof.
  apply (script_url_is_the_last_src_of_the_line EmptyString
           (" " +:+ src_attr +:+ "a.js" +:+ dquote +:+ "></script><img ")
           "b.png" ">"); reflexivity.
Defined.

Lemma length_append (u v : string) :
  String.length (u +:+ v) = String.length u + String.length v.
Proof. induction u as [|c u IH]; [done|]. rewrite append_cons. simpl. by rewrite IH. Qed.

Lemma length_lower_string (s : string) : String.length (lower_string s) = String.length s.
Proof. induction s as [|c s IH]; [done|]. simpl. by rewrite IH. Qed.

Lemma drop_string_app (u v : string) : drop_string (String.length u) (u +:+ v) = v.
Proof.
  induction u as [|c u IH]; [by rewrite append_nil_l; destruct v|].
  rewrite append_cons. simpl. exact IH.
Qed.

Lemma strip_scripts_from_skip (u v : string) :
  strip_scripts_from (String.length u) (u +:+ v) = strip_scripts_from 0 v.
Proof.
  induction u as [|c u IH]; [done|]. rewrite append_cons. simpl. exact IH.
Qed.

Lemma to_lower_lt (c : ascii) : to_lower c = "<"%char → c = "<"%char.
Proof. destruct c as [[] [] [] [] [] [] [] []]; vm_compute; congruence. Qed.

Lemma starts_with_i_tag (pat tag rest : string) :
  lower_string tag = pat → starts_with_i pat (tag +:+ rest) = true.
Proof.
  revert pat. induction tag as [|c tag IH]; intros pat H.
  - simpl in H. by subst pat.
  - simpl in H. subst pat. rewrite append_cons, starts_with_i_cons.
    unfold eqb_i. rewrite to_lower_lower, Ascii.eqb_refl. simpl. by apply IH.
Qed.

Lemma tag_head (tag pat' : string) :
  lower_string tag = String "<" pat' →
  ∃ tag', tag = String "<" tag' ∧ lower_string tag' = pat'.
Proof.
  destruct tag as [|c tag]; [done|]. simpl. intros [= Hc Ht].
  apply to_lower_lt in Hc. subst c. by exists tag.
Qed.

Lemma close_script_found (m close rest : string) :
  has_group_stop m = false → occurs_i "</script>" m = false →
  lower_string close = "</script>" →
  close_script (m +:+ close +:+ rest) = Some (String.length m + 9).
Proof.
  intros Hcr Hm Hclose.
  destruct (tag_head close _ Hclose) as (close' & -> & Hclose').
  induction m as [|c m IH].
  - rewrite append_nil_l.
    assert (H : starts_with_i "</script>" (String "<" close' +:+ rest) = true)
      by (by apply starts_with_i_tag).
    rewrite append_cons in *. cbn [close_script]. by rewrite H.
  - cbn [has_group_stop] in Hcr. apply orb_false_elim in Hcr as [Hc Hcr].
    cbn [occurs_i] in Hm. apply orb_false_elim in Hm as [H1 H2].
    rewrite append_cons.
    assert (Hs : starts_with_i "</script>" (String c (m +:+ String "<" close' +:+ rest))
                 = false).
    { rewrite starts_with_i_cons. rewrite starts_with_i_cons in H1.
      destruct (eqb_i "<" c); [|done]. rewrite andb_true_l in *.
      rewrite append_cons. by apply starts_with_i_next. }
    cbn [close_script]. rewrite Hs.
    pose proof (is_group_stop_app (String c m) (String "<" close' +:+ rest) eq_refl Hc)
      as Hgs.
    rewrite append_cons in Hgs. rewrite Hgs, (IH Hcr H2). done.
Qed.

Lemma strip_scripts_free (s : string) :
  occurs_i "<script" s = false → strip_scripts s = s.
Proof.
  unfold strip_scripts. induction s as [|c t IH]; intros H; [done|].
  cbn [occurs_i] in H. apply orb_false_elim in H as [H1 H2].
  cbn [strip_scripts_from]. rewrite H1. by rewrite IH.
Qed.

Lemma strip_scripts_first (a open m close rest : string)
    (Ha : occurs_i "<script" a = false)
    (Hopen : lower_string open = "<script")
    (Hcr : has_group_stop m = false)
    (Hm : occurs_i "</script>" m = false)
    (Hclose : lower_string close = "</script>") :
  strip_scripts (a +:+ open +:+ m +:+ close +:+ rest) = a +:+ strip_scripts rest.
Proof.
  pose proof (close_script_found m close rest Hcr Hm Hclose) as Hfound.
  assert (Hlen : String.length open = 7).
  { by rewrite <- (length_lower_string open), Hopen. }
  assert (Hlen' : String.length close = 9).
  { by rewrite <- (length_lower_string close), Hclose. }
  pose proof (starts_with_i_tag "<script" open (m +:+ close +:+ rest) Hopen) as Hstart.
  pose proof (drop_string_app open (m +:+ close +:+ rest)) as Hdrop.
  rewrite Hlen in Hdrop.
  destruct (tag_head open _ Hopen) as (open' & -> & Hopen').
  unfold strip_scripts. induction a as [|c0 a IH].
  - rewrite append_nil_l. rewrite append_cons in *.
    cbn [strip_scripts_from]. rewrite Hstart, Hdrop, Hfound.
    assert (Hskip : 6 + (String.length m + 9)
                    = String.length (open' +:+ m +:+ close)).
    { rewrite !length_append, Hlen'. simpl in Hlen. lia. }
    rewrite Hskip.
    replace (open' +:+ m +:+ close +:+ rest) with ((open' +:+ m +:+ close) +:+ rest).
    + apply strip_scripts_from_skip.
    + clear. induction open' as [|x o IH]; [|by rewrite !append_cons, IH].
      rewrite !append_nil_l. induction m as [|y m IHm]; [done|].
      by rewrite !append_cons, IHm.
  - cbn [occurs_i] in Ha. apply orb_false_elim in Ha as [H1 H2].
    rewrite !append_cons. cbn [strip_scripts_from].
    assert (Hs : starts_with_i "<script"
                   (String c0 (a +:+ String "<" (open' +:+ m +:+ close +:+ rest))) = false).
    { rewrite starts_with_i_cons. rewrite starts_with_i_cons in H1.
      destruct (eqb_i "<" c0); [|done]. rewrite andb_true_l in *.
      by apply starts_with_i_next. }
    rewrite Hs. rewrite append_cons in IH. by rewrite (IH H2).
Qed.


(** X18: [addContent] takes the script elements out of the content, up to
    the case of the tags. A content in which [<script] does not occur is
    left as it is. The first script element, from its [<script] to the next
    [</script>], is removed when the text between the two has no carriage
    return and neither of the separators U+2028 and U+2029 (it may have
    line feeds), and what follows it is treated in the same way: the texts
    before and between the script elements are kept unchanged. *)
Theorem script_elements_are_removed (a open m close rest : string)
    (Ha : occurs_i "<script" a = false)
    (Hopen : lower_string open = "<script")
    (Hcr : has_group_stop m = false)
    (Hm : occurs_i "</script>" m = false)
    (Hclose : lower_string close = "</script>") :
  strip_scripts (a +:+ open +:+ m +:+ close +:+ rest) = a +:+ strip_scripts rest
  ∧ strip_scripts a = a.
Proof.
  split; [by apply strip_scripts_first|by apply strip_scripts_free].
Qed.

Lemma script_elements_are_removed_witness :
  strip_scripts ("<p>a</p>" +:+ "<SCRIPT" +:+ (" src=x>" +:+ String "010" "alert(1)")
                 +:+ "</Script>" +:+ "<p>b</p>")
  = "<p>a</p>" +:+ strip_scripts "<p>b</p>"
  ∧ strip_scripts "<p>a</p>" = "<p>a</p>".
Proof.
  apply (script_elements_are_removed "<p>a</p>" "<SCRIPT"
           (" src=x>" +:+ String "010" "alert(1)") "</Script>" "<p>b</p>");
    reflexivity.
Defined.

(** The two separators end a line as the line feed and the carriage return
    do: behind one of them [addContent] finds no [src] attribute, a script
    element that holds one is not removed, and a host that holds one gives
    no provider name. *)
Lemma separators_end_the_line :
  match_script_src ("<script" +:+ line_separator +:+ src_attr +:+ "a.js" +:+ dquote) = None
  ∧ strip_scripts ("a<script>x" +:+ line_separator +:+ "y</script>b")
    = "a<script>x" +:+ line_separator +:+ "y</script>b"
  ∧ exec_script_src ("<script" +:+ paragraph_separator +:+ src_attr +:+ "a.js" +:+ dquote)
    = None
  ∧ exec_provider ("//exa" +:+ paragraph_separator +:+ "mple.com/x") = None.
Proof. vm_compute. repeat split; reflexivity. Qed.

Lemma close_script_cr (m1 m2 : string) :
  occurs_i "</script>" m1 = false → close_script (m1 +:+ String "013" m2) = None.
Proof.
  induction m1 as [|c m1 IH]; intros H.
  - rewrite append_nil_l. reflexivity.
  - cbn [occurs_i] in H. apply orb_false_elim in H as [H1 H2].
    rewrite append_cons.
    assert (Hs : starts_with_i "</script>" (String c (m1 +:+ String "013" m2)) = false).
    { rewrite starts_with_i_cons. rewrite starts_with_i_cons in H1.
      destruct (eqb_i "<" c); [|done]. rewrite andb_true_l in *.
      by apply starts_with_i_next. }
    cbn [close_script]. rewrite Hs, (IH H2).
    by destruct (is_group_stop (String c (m1 +:+ String "013" m2))).
Qed.

Lemma close_script_open (m : string) :
  occurs_i "</script>" m = false → close_script m = None.
Proof.
  induction m as [|c m IH]; intros H; [done|].
  cbn [occurs_i] in H. apply orb_false_elim in H as [H1 H2].
  cbn [close_script]. rewrite H1, (IH H2). by destruct (is_group_stop (String c m)).
Qed.

Lemma none_matches_i_lower (a : ascii) (u : string) :
  none_matches_i a (lower_string u) = none_matches_i a u.
Proof.
  induction u as [|c u IH]; [done|]. cbn [lower_string none_matches_i].
  unfold eqb_i. by rewrite to_lower_lower, IH.
Qed.

Lemma occurs_i_skip (a : ascii) (p u v : string) :
  none_matches_i a u = true →
  occurs_i (String a p) (u +:+ v) = occurs_i (String a p) v.
Proof.
  induction u as [|c u IH]; intros H; [by rewrite append_nil_l|].
  cbn [none_matches_i] in H. apply andb_true_iff in H as [Hc Hu].
  apply negb_true_iff in Hc. rewrite append_cons. cbn [occurs_i].
  rewrite starts_with_i_cons, Hc. simpl. by apply IH.
Qed.

Lemma strip_scripts_unmatched (open tail : string) :
  lower_string open = "<script" → close_script tail = None →
  occurs_i "<script" tail = false →
  strip_scripts (open +:+ tail) = open +:+ tail.
Proof.
  intros Hopen Hclose Htail.
  assert (Hlen : String.length open = 7).
  { by rewrite <- (length_lower_string open), Hopen. }
  pose proof (starts_with_i_tag "<script" open tail Hopen) as Hstart.
  pose proof (drop_string_app open tail) as Hdrop. rewrite Hlen in Hdrop.
  destruct (tag_head open _ Hopen) as (open' & -> & Hopen').
  unfold strip_scripts. rewrite append_cons in *. cbn [strip_scripts_from].
  rewrite Hstart, Hdrop, Hclose. f_equal. apply strip_scripts_free.
  rewrite occurs_i_skip; [done|].
  by rewrite <- none_matches_i_lower, Hopen'.
Qed.

(** X19: what the removal of the script elements leaves in the content. A
    script element whose text has a carriage return before its [</script>],
    and a [<script] that has no [</script>] behind it, are not removed: when
    no other [<script] follows, the content is left as it is, end tag
    included. *)
Theorem unmatched_script_elements_stay (open m1 m2 : string)
    (Hopen : lower_string open = "<script")
    (Hm1 : occurs_i "</script>" m1 = false)
    (Hcr : occurs_i "<script" (m1 +:+ String "013" m2) = false)
    (Hend : occurs_i "<script" m1 = false) :
  strip_scripts (open +:+ m1 +:+ String "013" m2) = open +:+ m1 +:+ String "013" m2
  ∧ strip_scripts (open +:+ m1) = open +:+ m1.
Proof.
  split.
  - apply strip_scripts_unmatched; [done|by apply close_script_cr|done].
  - apply strip_scripts_unmatched; [done|by apply close_script_open|done].
Qed.

Lemma unmatched_script_elements_stay_witness :
  strip_scripts ("<script" +:+ ">var a = 1;" +:+ String "013" (String "010" "a++;</script>"))
  = "<script" +:+ ">var a = 1;" +:+ String "013" (String "010" "a++;</script>")
  ∧ strip_scripts ("<script" +:+ ">var a = 1;") = "<script" +:+ ">var a = 1;".
Proof.
  apply (unmatched_script_elements_stay "<script" ">var a = 1;"
           (String "010" "a++;</script>")); reflexivity.
Defined.

(** X20: the removal of the script elements is not repeated on its result,
    so that the content put into the frame can hold a script element that
    the removal itself put together: when a script element stands inside
    the text [<script], between [<scr] and [ipt], and its text has no
    carriage return and neither of the separators U+2028 and U+2029, it is
    removed and the two pieces around it join to a [<script] that stays. *)
Theorem removal_can_leave_a_script_element (open m close rest : string)
    (Hopen : lower_string open = "<script")
    (Hcr : has_group_stop m = false)
    (Hm : occurs_i "</script>" m = false)
    (Hclose : lower_string close = "</script>")
    (Hrest : occurs_i "<script" ("ipt" +:+ rest) = false) :
  strip_scripts ("<scr" +:+ open +:+ m +:+ close +:+ "ipt" +:+ rest) = "<script" +:+ rest
  ∧ starts_with_i "<script"
      (strip_scripts ("<scr" +:+ open +:+ m +:+ close +:+ "ipt" +:+ rest)) = true.
Proof.
  assert (H : strip_scripts ("<scr" +:+ open +:+ m +:+ close +:+ "ipt" +:+ rest)
              = "<script" +:+ rest).
  { rewrite (strip_scripts_first "<scr" open m close ("ipt" +:+ rest))
      by (done || reflexivity).
    by rewrite (strip_scripts_free _ Hrest). }
  split; [exact H|]. rewrite H. reflexivity.
Qed.

Lemma removal_can_leave_a_script_element_witness :
  strip_scripts ("<scr" +:+ "<script" +:+ ">" +:+ "</script>" +:+ "ipt" +:+ ">alert(1)</script>")
  = "<script" +:+ ">alert(1)</script>"
  ∧ starts_with_i "<script"
      (strip_scripts ("<scr" +:+ "<script" +:+ ">" +:+ "</script>" +:+ "ipt"
                      +:+ ">alert(1)</script>")) = true.
Proof.
  apply (removal_can_leave_a_script_element "<script" ">" "</script>" ">alert(1)</script>");
    reflexivity.
Defined.

Lemma starts_with_starts_with_i (pat s : string) :
  starts_with pat s = true → starts_with_i pat s = true.
Proof.
  revert s. induction pat as [|a p IH]; intros s; [done|].
  destruct s as [|b t]; [done|]. rewrite starts_with_cons, starts_with_i_cons.
  intros [Hab Hp]%andb_true_iff. apply Ascii.eqb_eq in Hab. subst b.
  unfold eqb_i. rewrite Ascii.eqb_refl. simpl. by apply IH.
Qed.

Lemma occurs_i_occurs (pat s : string) :
  occurs_i pat s = false → occurs pat s = false.
Proof.
  induction s as [|c t IH]; simpl.
  - intros H. destruct (starts_with pat EmptyString) eqn:E; [|done].
    apply starts_with_starts_with_i in E. congruence.
  - intros [H1 H2]%orb_false_elim. rewrite (IH H2), orb_false_r.
    destruct (starts_with pat (String c t)) eqn:E; [|done].
    apply starts_with_starts_with_i in E. congruence.
Qed.

(** X21: a photo cannot be shown in the frame. When the response for a
    widget that is still there is a photo without [html], outside Internet
    Explorer: the image markup is installed on the widget, the success
    callback is called if one was given, and then [addContent] is called
    with [undefined]; the function it gives to the promise throws as soon
    as it runs, before the contents of the frame are cached and before
    anything is put into the frame. *)
Theorem photo_makes_addContent_throw (enc : prop → string)
    (gen : provider_response → prop) (call x : nat) (w : world) (i : invocation)
    (r : provider_response)
    (Hi : calls w !! call = Some i) (Hlive : that i ∈ instances w)
    (Hx : heap w !! x = Some r) (Hphoto : r_type r = Some "photo")
    (Hhtml : r_html r = None) :
  let w' := finishLoading enc gen false call x w in
  (∃ l, Forall (λ e, is_delivery e = false) l
      ∧ effects w' =
          effects w ++ l
            ++ [SetContent (that i) (req_url (inv_request i))
                  (img_markup (enc (r_url r)) (enc (Some (or_else (r_title r) EmptyString))))]
            ++ (if opt_callback (inv_opts i) then [OptsCallback call] else [])
            ++ [AddContent (that i) None])
  ∧ last (effects w') = Some (AddContent (that i) None)
  ∧ ∀ url d c, addContent_then (that i) url None d c = Throw TypeError.
Proof.
  cbv zeta.
  destruct (finishLoading_success enc gen false call x w i
              (img_markup (enc (r_url r)) (enc (Some (or_else (r_title r) EmptyString))))
              (heap w) Hi Hlive)
    as (l & Hf & _ & He & _).
  { unfold _responseToHtml. rewrite Hx, Hphoto. reflexivity. }
  rewrite Hx in He. simpl in He. rewrite Hhtml in He. unfold installs in He.
  split; [by exists l|]. split; [|done].
  rewrite He. destruct (opt_callback (inv_opts i)).
  - change (effects w ++ l ++ ?a :: [?b] ++ [?c]) with (effects w ++ l ++ [a; b] ++ [c]).
    rewrite !app_assoc. apply last_snoc.
  - change (effects w ++ l ++ ?a :: [] ++ [?c]) with (effects w ++ l ++ [a] ++ [c]).
    rewrite !app_assoc. apply last_snoc.
Qed.

Lemma photo_makes_addContent_throw_witness :
  last (effects (finishLoading entity_encode (λ _, None) false 0 0
                   (run entity_encode (λ _, None) false (holding sample_photo)
                      [WidgetCreated 7; Load 7 "https://x/p" sample_opts])))
  = Some (AddContent 7 None).
Proof.
  edestruct (photo_makes_addContent_throw entity_encode (λ _, None) 0 0
              (run entity_encode (λ _, None) false (holding sample_photo)
                 [WidgetCreated 7; Load 7 "https://x/p" sample_opts])
              {| that := 7; inv_url := "https://x/p"; inv_opts := sample_opts;
                 inv_request :=
                   {| req_noNotifications := false; req_url := "https://x/p";
                      req_task := Some (0, 0); req_response := None;
                      req_cancel := Some 0 |} |}
              sample_photo) as (_ & H & _).
  - vm_compute. reflexivity.
  - vm_compute. reflexivity.
  - vm_compute. reflexivity.
  - reflexivity.
  - reflexivity.
  - exact H.
Defined.

(** X22: what [addContent] puts into the frame adds up, for a widget whose
    URL names no inherited property. For a content that has no [<script],
    the content itself goes into a new container and a script element is
    appended all the same, with [null] as its [src]; the document element
    of the frame is cached under the URL and one more style element is
    appended. A second [addContent] on the same frame leaves the first
    container, script and style where they are and appends its own behind
    them, and caches the same document element once more. *)
Theorem addContent_adds_up (that0 : nat) (url : string) (t1 t2 : string)
    (d : frame_document) (c : gmap string (list nat))
    (Hname : inherited url = false)
    (Hfree : occurs_i "<script" t1 = false) :
  addContent_then that0 url (Some t1) d c =
    Normal ({| documentElement := documentElement d;
               frame_head := frame_head d ++ [frame_style];
               frame_body := frame_body d ++ [Container t1; ScriptElement None] |},
            <[url := default [] (c !! url) ++ [documentElement d]]> c,
            [RestoreHtml that0; ResizeListener that0])
  ∧ ∀ d1 c1 e1, addContent_then that0 url (Some t1) d c = Normal (d1, c1, e1) →
      addContent_then that0 url (Some t2) d1 c1 =
        Normal ({| documentElement := documentElement d;
                   frame_head := frame_head d ++ [frame_style; frame_style];
                   frame_body := frame_body d
                     ++ [Container t1; ScriptElement None;
                         Container (strip_scripts t2); ScriptElement (match_script_src t2)] |},
                <[url := default [] (c !! url) ++ [documentElement d; documentElement d]]> c,
                [RestoreHtml that0; ResizeListener that0]).
Proof.
  assert (H : addContent_then that0 url (Some t1) d c =
    Normal ({| documentElement := documentElement d;
               frame_head := frame_head d ++ [frame_style];
               frame_body := frame_body d ++ [Container t1; ScriptElement None] |},
            <[url := default [] (c !! url) ++ [documentElement d]]> c,
            [RestoreHtml that0; ResizeListener that0])).
  { unfold addContent_then.
    rewrite (strip_scripts_free t1 Hfree).
    rewrite (match_script_src_free t1 (occurs_i_occurs _ _ Hfree)).
    by rewrite cacheFrameContents_eq. }
  split; [exact H|]. rewrite H. intros d1 c1 e1 [= <- <- <-].
  unfold addContent_then. cbn [documentElement frame_head frame_body].
  rewrite cacheFrameContents_eq, lookup_insert_eq, insert_insert_eq. simpl.
  by rewrite <- !app_assoc.
Qed.

Lemma addContent_adds_up_witness :
  addContent_then 7 "u" (Some "<p>a</p>")
    {| documentElement := 3; frame_head := []; frame_body := [] |} ∅ =
    Normal ({| documentElement := 3;
               frame_head := [] ++ [frame_style];
               frame_body := [] ++ [Container "<p>a</p>"; ScriptElement None] |},
            <["u" := default [] ((∅ : gmap string (list nat)) !! "u") ++ [3]]> ∅,
            [RestoreHtml 7; ResizeListener 7]).
Proof.
  apply (addContent_adds_up 7 "u" "<p>a</p>" "<p>b</p>"
           {| documentElement := 3; frame_head := []; frame_body := [] |} ∅);
    reflexivity.
Defined.

(** ** The preview card *)

Lemma is_empty_append (a b : string) : is_empty (a +:+ b) = is_empty a && is_empty b.
Proof. destruct a; [by rewrite append_nil_l|done]. Qed.

Lemma is_empty_true (s : string) : is_empty s = true → s = EmptyString.
Proof. by destruct s. Qed.

Lemma captionContent_empty (enc : prop → string) (r : card_response) :
  is_empty (captionContent enc r) =
    negb (truthy_text (r_title (c_response r)) || truthy_text (c_description r)
          || truthy_text (providerName r)).
Proof.
  unfold captionContent. rewrite !is_empty_append.
  destruct (truthy_text (r_title (c_response r))),
           (truthy_text (c_description r)), (truthy_text (providerName r)); reflexivity.
Qed.

Lemma exec_script_src_free (s : string) :
  occurs "<script" s = false → exec_script_src s = None.
Proof.
  induction s as [|c t IH]; intros H; [done|].
  cbn [occurs] in H. apply orb_false_elim in H as [H1 H2].
  cbn [exec_script_src]. rewrite H1. by apply IH.
Qed.

Lemma generateContent_none (enc : prop → string) (r : card_response) :
  _generateContent enc r = None ↔
  exec_script_src (to_text (r_html (c_response r))) ≠ Some iframely_script
  ∨ card_shows r = false.
Proof.
  unfold _generateContent, card_shows.
  pose proof (captionContent_empty enc r) as Hcap.
  destruct (bool_decide (exec_script_src (to_text (r_html (c_response r)))
                         = Some iframely_script)) eqn:Hs.
  - apply bool_decide_eq_true in Hs. cbn [negb].
    destruct (truthy_text (c_thumbnail_url r)) eqn:Hth.
    + split; [done|]. intros [H|H]; [done|]. by rewrite !orb_true_l in H.
    + rewrite !orb_false_l.
      destruct (captionContent enc r) as [|c s] eqn:Hc; simpl in Hcap.
      * split; [|done]. intros _. right. symmetry in Hcap.
        by apply negb_true_iff in Hcap.
      * split; [done|]. intros [H|H]; [done|].
        symmetry in Hcap. apply negb_false_iff in Hcap. congruence.
  - apply bool_decide_eq_false in Hs. split; [by left|done].
Qed.

(** X23: [_generateContent] gives a card only for the embed of the one
    script it knows. It returns [null] exactly when the first script URL of
    the [html] is not [//if-cdn.com/embed.js], or when the response has
    nothing to show, that is no thumbnail, no title, no description and no
    provider name; a response without [html], or whose [html] has no
    [<script], gets no card. On Internet Explorer the pipeline then
    installs the converted markup as everywhere else. *)
Theorem card_only_for_the_known_script (enc : prop → string) (r : card_response)
    (that0 : nat) (url markup : string) (r0 : provider_response) :
  (_generateContent enc r = None ↔
   exec_script_src (to_text (r_html (c_response r))) ≠ Some iframely_script
   ∨ card_shows r = false)
  ∧ (occurs "<script" (to_text (r_html (c_response r))) = false →
     _generateContent enc r = None)
  ∧ (r_html (c_response r) = None → _generateContent enc r = None)
  ∧ (occurs "<script" (to_text (r_html r0)) = false →
     installs (λ x, _generateContent enc (plain_card x)) true that0 url markup (Some r0)
     = [SetContent that0 url markup]).
Proof.
  split; [apply generateContent_none|].
  assert (H : occurs "<script" (to_text (r_html (c_response r))) = false →
              _generateContent enc r = None).
  { intros Hfree. apply generateContent_none. left.
    by rewrite (exec_script_src_free _ Hfree). }
  split; [exact H|]. split.
  - intros Hnone. apply H. by rewrite Hnone.
  - intros Hfree. unfold installs. simpl.
    assert (Hn : _generateContent enc (plain_card r0) = None).
    { apply generateContent_none. left. simpl.
      by rewrite (exec_script_src_free _ Hfree). }
    by rewrite Hn.
Qed.

Lemma append_assoc_s (a b c : string) : (a +:+ b) +:+ c = a +:+ b +:+ c.
Proof. induction a as [|x a IH]; [done|]. by rewrite !append_cons, IH. Qed.


Lemma line_until_quote_app (u c : string) :
  has_char quote_char u = false → has_line_terminator u = false →
  line_until_quote (u +:+ dquote +:+ c) = Some u.
Proof.
  induction u as [|a u IH]; intros Hq Hl; [done|].
  cbn [has_char] in Hq. apply orb_false_elim in Hq as [Ha Hq].
  cbn [has_line_terminator] in Hl. apply orb_false_elim in Hl as [Hb Hl].
  rewrite append_cons. cbn [line_until_quote]. rewrite Ha.
  pose proof (is_line_terminator_app (String a u) (dquote +:+ c) eq_refl Hb) as Hlt.
  rewrite append_cons in Hlt. rewrite Hlt, (IH Hq Hl). done.
Qed.

Lemma first_src_found (b tail : string) :
  occurs src_attr b = false → has_line_terminator b = false →
  first_src (b +:+ src_attr +:+ tail) = line_until_quote tail.
Proof.
  induction b as [|c b IH]; intros Ho Hl; [done|].
  cbn [occurs] in Ho. apply orb_false_elim in Ho as [H1 H2].
  cbn [has_line_terminator] in Hl. apply orb_false_elim in Hl as [Hc Hl].
  rewrite append_cons. cbn [first_src].
  assert (Hs : starts_with src_attr (String c (b +:+ src_attr +:+ tail)) = false).
  { unfold src_attr in *. rewrite starts_with_cons. rewrite starts_with_cons in H1.
    destruct (Ascii.eqb "s" c); [|done]. rewrite andb_true_l in *.
    rewrite append_cons. by apply starts_with_next. }
  rewrite Hs.
  pose proof (is_line_terminator_app (String c b) (src_attr +:+ tail) eq_refl Hc) as Hlt.
  rewrite append_cons in Hlt. rewrite Hlt. by apply IH.
Qed.

Lemma exec_script_src_first (a b u c : string) :
  occurs "<script" a = false → occurs src_attr b = false →
  has_line_terminator b = false → has_char quote_char u = false →
  has_line_terminator u = false →
  exec_script_src (a +:+ "<script" +:+ b +:+ src_attr +:+ u +:+ dquote +:+ c) = Some u.
Proof.
  intros Ha Hb1 Hb2 Hu1 Hu2. induction a as [|c0 a IH].
  - rewrite append_nil_l.
    change ("<script" +:+ b +:+ src_attr +:+ u +:+ dquote +:+ c) with
      (String "<" ("script" +:+ b +:+ src_attr +:+ u +:+ dquote +:+ c)).
    cbn [exec_script_src].
    change (starts_with "<script"
              (String "<" ("script" +:+ b +:+ src_attr +:+ u +:+ dquote +:+ c)))
      with true.
    change (drop_string 7 (String "<" ("script" +:+ b +:+ src_attr +:+ u +:+ dquote +:+ c)))
      with (b +:+ src_attr +:+ u +:+ dquote +:+ c).
    by rewrite (first_src_found b _ Hb1 Hb2), line_until_quote_app.
  - cbn [occurs] in Ha. apply orb_false_elim in Ha as [H1 H2].
    rewrite append_cons. cbn [exec_script_src].
    assert (Hs : starts_with "<script"
                   (String c0 (a +:+ "<script" +:+ b +:+ src_attr +:+ u +:+ dquote +:+ c))
                 = false).
    { rewrite starts_with_cons. rewrite starts_with_cons in H1.
      destruct (Ascii.eqb "<" c0); [|done]. rewrite andb_true_l in *.
      change ("<script" +:+ b +:+ src_attr +:+ u +:+ dquote +:+ c) with
        (String "<" ("script" +:+ b +:+ src_attr +:+ u +:+ dquote +:+ c)).
      by apply starts_with_next. }
    rewrite Hs. by apply IH.
Qed.

(** X24: the two places that look for the script URL of a content do not
    agree. When the line of the first [<script] holds two [src] attributes,
    with no line terminator (line feed, carriage return, U+2028 or U+2029)
    before the second of them, [_generateContent] takes the value of the
    first and [addContent] the value of the last. *)
Theorem the_two_script_urls_differ (a b u1 c1 u2 c2 : string)
    (Ha : occurs "<script" a = false)
    (Hb1 : has_line_terminator b = false)
    (Hb2 : occurs src_attr b = false)
    (Hu1 : has_char quote_char u1 = false)
    (Hl1 : has_line_terminator u1 = false)
    (Hc1 : has_line_terminator c1 = false)
    (Hu2 : has_char quote_char u2 = false)
    (Hc2 : occurs src_attr (u2 +:+ dquote +:+ c2) = false) :
  let content := a +:+ "<script" +:+ b +:+ src_attr +:+ u1 +:+ dquote +:+ c1
                   +:+ src_attr +:+ u2 +:+ dquote +:+ c2 in
  exec_script_src content = Some u1 ∧ match_script_src content = Some u2.
Proof.
  cbv zeta. split.
  - by apply exec_script_src_first.
  - pose proof (match_script_src_last a (b +:+ src_attr +:+ u1 +:+ dquote +:+ c1) u2 c2 Ha)
      as H.
    rewrite !append_assoc_s in H. apply H; [|done|done].
    apply has_line_terminator_app; [reflexivity|done|].
    change (has_line_terminator (u1 +:+ dquote +:+ c1) = false).
    apply has_line_terminator_app; [reflexivity|done|].
    change (has_line_terminator c1 = false). done.
Qed.

Lemma the_two_script_urls_differ_witness :
  exec_script_src
    ("<p>" +:+ "<script" +:+ " async " +:+ src_attr +:+ "//if-cdn.com/embed.js" +:+ dquote
     +:+ "></script><img " +:+ src_attr +:+ "x.png" +:+ dquote +:+ ">")
  = Some "//if-cdn.com/embed.js"
  ∧ match_script_src
      ("<p>" +:+ "<script" +:+ " async " +:+ src_attr +:+ "//if-cdn.com/embed.js" +:+ dquote
       +:+ "></script><img " +:+ src_attr +:+ "x.png" +:+ dquote +:+ ">")
    = Some "x.png".
Proof.
  apply (the_two_script_urls_differ "<p>" " async " "//if-cdn.com/embed.js"
           "></script><img " "x.png" ">"); reflexivity.
Defined.

Lemma until_slash_host (host path : string) :
  has_char "/" host = false → has_line_terminator host = false →
  until_slash (host +:+ String "/" path) = Some host ∧ until_slash host = Some host.
Proof.
  induction host as [|c h IH]; intros Hs Hl; [done|].
  cbn [has_char] in Hs. apply orb_false_elim in Hs as [Hc Hs].
  cbn [has_line_terminator] in Hl. apply orb_false_elim in Hl as [Hc' Hl].
  destruct (IH Hs Hl) as [IH1 IH2].
  rewrite append_cons. cbn [until_slash]. rewrite Hc, Hc', IH2.
  pose proof (is_line_terminator_app (String c h) (String "/" path) eq_refl Hc') as Hlt.
  rewrite append_cons in Hlt. by rewrite Hlt, IH1.
Qed.

Lemma exec_provider_at (scheme rest : string) (name : string) :
  occurs "//" (scheme +:+ "/") = false →
  until_slash (if starts_with "www." rest then drop_string 4 rest else rest) = Some name →
  exec_provider (scheme +:+ String "/" (String "/" rest)) = Some name.
Proof.
  intros Hs Hn. induction scheme as [|c s IH].
  - rewrite append_nil_l. cbn [exec_provider].
    change (starts_with "//" (String "/" (String "/" rest))) with true.
    change (drop_string 2 (String "/" (String "/" rest))) with rest.
    by rewrite Hn.
  - rewrite append_cons in Hs. cbn [occurs] in Hs. apply orb_false_elim in Hs as [H1 H2].
    rewrite append_cons. cbn [exec_provider].
    assert (Hsw : starts_with "//" (String c (s +:+ String "/" (String "/" rest))) = false).
    { rewrite starts_with_cons. rewrite starts_with_cons in H1.
      destruct (Ascii.eqb "/" c); [|done]. rewrite andb_true_l in *.
      destruct s as [|c' s']; [done|]. rewrite append_cons in *.
      rewrite starts_with_cons in *. by destruct (Ascii.eqb "/" c'). }
    rewrite Hsw. by apply IH.
Qed.

(** X25: the provider name of the card. A provider name given by the
    response is taken as it is. Without one, the name is read from the URL:
    it is the text between the first two slashes and the next slash, or the
    end of the URL, with one leading [www.] left out, when that text has no
    line terminator (line feed, carriage return, U+2028 or U+2029). *)
Theorem provider_name_is_the_host (scheme host path : string) (r : card_response)
    (Hs : occurs "//" (scheme +:+ "/") = false)
    (Hh : has_char "/" host = false)
    (Hl : has_line_terminator host = false) :
  exec_provider (scheme +:+ "//www." +:+ host +:+ "/" +:+ path) = Some host
  ∧ exec_provider (scheme +:+ "//www." +:+ host) = Some host
  ∧ (starts_with "www." host = false →
     exec_provider (scheme +:+ "//" +:+ host +:+ "/" +:+ path) = Some host
     ∧ exec_provider (scheme +:+ "//" +:+ host) = Some host)
  ∧ (truthy_text (c_provider_name r) = true → providerName r = c_provider_name r)
  ∧ (truthy_text (c_provider_name r) = false →
     providerName r = exec_provider (to_text (r_url (c_response r)))).
Proof.
  destruct (until_slash_host host path Hh Hl) as [H1 H2].
  split; [by apply (exec_provider_at scheme ("www." +:+ host +:+ "/" +:+ path))|].
  split; [by apply (exec_provider_at scheme ("www." +:+ host))|].
  split.
  - intros Hw. split.
    + apply (exec_provider_at scheme (host +:+ "/" +:+ path)); [done|].
      assert (Hw' : starts_with "www." (host +:+ String "/" path) = false)
        by (by apply starts_with_next).
      change (host +:+ "/" +:+ path) with (host +:+ String "/" path).
      by rewrite Hw'.
    + apply (exec_provider_at scheme host); [done|]. by rewrite Hw.
  - unfold providerName. by destruct (truthy_text (c_provider_name r)).
Qed.

Lemma provider_name_is_the_host_witness :
  exec_provider ("https:" +:+ "//www." +:+ "some-site.example.com" +:+ "/" +:+ "subsite/doc?q")
  = Some "some-site.example.com"
  ∧ exec_provider ("https:" +:+ "//www." +:+ "some-site.example.com")
    = Some "some-site.example.com".
Proof.
  destruct (provider_name_is_the_host "https:" "some-site.example.com" "subsite/doc?q"
              (plain_card sample_link)) as (H1 & H2 & _).
  - reflexivity.
  - reflexivity.
  - reflexivity.
  - split; [exact H1|exact H2].
Defined.

(** ** The widget is ready *)

Lemma loadContent_fst (t : nat) (url : string) (o : opts) (w : world) :
  (_getCachedResponse url w).1 = None →
  (loadContent t url o w).1 = Some (length (calls w)).
Proof.
  intros [Hc Hn]%getCachedResponse_none.
  unfold loadContent. by rewrite (getCachedResponse_miss url w Hc Hn).
Qed.

(** X26: what a widget that has a URL, which names no inherited property,
    does when it is ready, outside Internet Explorer, on a page in any state
    it can reach. A frame that has a [src] is left alone. Otherwise nothing is
    thrown and exactly one of three things is done. When frame contents are cached for the URL, the widget takes over
    those that were cached first, whichever frame they come from, and caches
    its own document element behind the others; no content is asked for.
    When there are none but the response is cached, [addContent] is called
    with the [html] of the cached response. Else the content is asked for
    with [loadContent], without notifications: a request is made, and no
    effect and no progress task come with the call. *)
Theorem ready_restores_or_loads (enc : prop → string)
    (gen : provider_response → prop) (es : list event)
    (p : FrameCache.page) (that0 : nat) (url : string) (de : nat)
    (c : gmap string (list nat))
    (Hurl : url ≠ EmptyString)
    (Hname : inherited url = false) :
  let w := run enc gen false initial es in
  ready_then p that0 url true de w c = Normal (w, c, [])
  ∧ match c !! url with
    | Some (e :: l) =>
        ready_then p that0 url false de w c =
          Normal (w, <[url := l ++ [de]]> c,
                  [DataRestoreHtml that0; RestoreContents de e that0])
    | _ =>
        match _cache w !! url with
        | Some x =>
            ∃ r, heap w !! x = Some r
                 ∧ ready_then p that0 url false de w c =
                     Normal (w, c, [AddContentCall that0 (r_html r)])
        | None =>
            ready_then p that0 url false de w c =
              Normal ((loadContent that0 url quiet_opts w).2, c, [])
            ∧ (loadContent that0 url quiet_opts w).1 = Some (length (calls w))
            ∧ effects (loadContent that0 url quiet_opts w).2 = effects w
            ∧ aggregators (loadContent that0 url quiet_opts w).2 = aggregators w
        end
    end.
Proof.
  pose proof (run_sound enc gen false es initial initial_sound) as Hs.
  set (w := run enc gen false initial es) in *. cbv zeta. clearbody w.
  split; [done|].
  assert (Hnone : (c !! url = None ∨ c !! url = Some []) →
            match _cache w !! url with
            | Some x =>
                ∃ r, heap w !! x = Some r
                     ∧ ready_then p that0 url false de w c =
                         Normal (w, c, [AddContentCall that0 (r_html r)])
            | None =>
                ready_then p that0 url false de w c =
                  Normal ((loadContent that0 url quiet_opts w).2, c, [])
                ∧ (loadContent that0 url quiet_opts w).1 = Some (length (calls w))
                ∧ effects (loadContent that0 url quiet_opts w).2 = effects w
                ∧ aggregators (loadContent that0 url quiet_opts w).2 = aggregators w
            end).
  { intros Hc.
    assert (Hg : FrameCache.getCachedFrameContents p url c = (Normal None, c)).
    { unfold FrameCache.getCachedFrameContents. by destruct Hc as [-> | ->]. }
    unfold ready_then. cbn [negb]. rewrite Hg.
    destruct (_cache w !! url) as [x|] eqn:Hx.
    - rewrite (getCachedResponse_hit url w x Hx).
      destruct (Hs url x Hx) as (r & Hr & _). exists r. by rewrite Hr.
    - rewrite (getCachedResponse_miss url w Hx Hname).
      assert (Hmiss : (_getCachedResponse url w).1 = None)
        by (by apply getCachedResponse_none).
      split; [done|]. split; [by apply loadContent_fst|].
      pose proof (loadContent_frame that0 url quiet_opts w) as (_ & _ & He & _).
      split; [done|].
      destruct (loadContent_sends that0 url quiet_opts w Hmiss) as (task & Hq & _).
      by destruct (Hq eq_refl) as (_ & Hags & _). }
  destruct (c !! url) as [[|e l]|] eqn:Hc.
  - apply Hnone. by right.
  - unfold ready_then. cbn [negb].
    rewrite (getCachedFrameContents_oldest p url e l c Hc).
    rewrite cacheFrameContents_eq, lookup_insert_eq, insert_insert_eq. done.
  - apply Hnone. by left.
Qed.

Lemma ready_restores_or_loads_witness :
  ready_then attached_page 7 "u" true 3
    (run entity_encode (λ _, None) false initial [WidgetCreated 7]) ∅
  = Normal (run entity_encode (λ _, None) false initial [WidgetCreated 7], ∅, [])
  ∧ ready_then attached_page 7 "u" false 3
      (run entity_encode (λ _, None) false initial [WidgetCreated 7]) ∅
    = Normal ((loadContent 7 "u" quiet_opts
                 (run entity_encode (λ _, None) false initial [WidgetCreated 7])).2, ∅, []).
Proof.
  assert (Hurl : "u" ≠ EmptyString) by discriminate.
  pose proof (ready_restores_or_loads entity_encode (λ _, None) [WidgetCreated 7]
                attached_page 7 "u" 3 ∅ Hurl eq_refl) as [H1 H2].
  split; [exact H1|]. exact (proj1 H2).
Defined.

(** X27: requests for one URL are not put together. When [loadContent] is
    called twice for a URL for which the lookup in the response cache finds
    nothing, before any answer has come, each call returns a request of its own and sends a
    request of its own to the provider: two callbacks are registered under
    two keys and two scripts are appended, one behind the other; nothing is
    seen and nothing is cached. *)
Theorem same_url_is_requested_twice (w : world) (t1 t2 : nat) (url : string)
    (o1 o2 : opts)
    (Hmiss : (_getCachedResponse url w).1 = None) :
  let w1 := (loadContent t1 url o1 w).2 in
  let w2 := (loadContent t2 url o2 w1).2 in
  (loadContent t1 url o1 w).1 = Some (length (calls w))
  ∧ (loadContent t2 url o2 w1).1 = Some (S (length (calls w)))
  ∧ (∃ k1 k2, k1 ≠ k2
       ∧ (k1 ∈ Jsonp.jsonpCallbacks (jsonp w2)) ∧ (k2 ∈ Jsonp.jsonpCallbacks (jsonp w2))
       ∧ Jsonp.body (jsonp w2) = Jsonp.body (jsonp w) ++ [k1; k2]
       ∧ (∃ c1, Jsonp.requests (jsonp w2) !! k1 = Some c1
                ∧ Jsonp.callback c1 = length (calls w))
       ∧ (∃ c2, Jsonp.requests (jsonp w2) !! k2 = Some c2
                ∧ Jsonp.callback c2 = S (length (calls w))))
  ∧ effects w2 = effects w ∧ _cache w2 = _cache w.
Proof.
  cbv zeta.
  destruct (loadContent_sends t1 url o1 w Hmiss) as (task1 & _ & _ & Hcalls1 & Hj1 & _).
  pose proof (loadContent_frame t1 url o1 w) as (_ & Hc1 & He1 & _).
  pose proof (loadContent_fst t1 url o1 w Hmiss) as Hf1.
  set (w1 := (loadContent t1 url o1 w).2) in *.
  assert (Hmiss1 : (_getCachedResponse url w1).1 = None)
    by (by apply (getCachedResponse_none_cache url w)).
  destruct (loadContent_sends t2 url o2 w1 Hmiss1) as (task2 & _ & _ & Hcalls2 & Hj2 & _).
  pose proof (loadContent_frame t2 url o2 w1) as (_ & Hc2 & He2 & _).
  pose proof (loadContent_fst t2 url o2 w1 Hmiss1) as Hf2.
  set (w2 := (loadContent t2 url o2 w1).2) in *.
  assert (Hlen : length (calls w1) = S (length (calls w))).
  { rewrite Hcalls1, length_app. simpl. lia. }
  split; [done|]. split; [by rewrite Hf2, Hlen|].
  split; [|split; [by rewrite He2, He1|by rewrite Hc2, Hc1]].
  exists (Jsonp.nextNumber (jsonp w)), (S (Jsonp.nextNumber (jsonp w))).
  split; [lia|].
  rewrite Hj2, Hj1, Hlen. unfold Jsonp.sendRequest, Jsonp._attachScript.
  cbn [snd Jsonp.jsonpCallbacks Jsonp.body Jsonp.nextNumber Jsonp.requests].
  split; [apply elem_of_union; right; apply elem_of_union; left;
          by apply elem_of_singleton|].
  split; [apply elem_of_union; left; by apply elem_of_singleton|].
  split; [by rewrite <- app_assoc|]. split.
  - eexists. rewrite lookup_insert_ne by lia. rewrite lookup_insert_eq. done.
  - eexists. rewrite lookup_insert_eq. done.
Qed.

Lemma same_url_is_requested_twice_witness :
  effects (loadContent 8 "u" sample_opts
             (loadContent 7 "u" sample_opts sample_created).2).2
  = effects sample_created
  ∧ _cache (loadContent 8 "u" sample_opts
              (loadContent 7 "u" sample_opts sample_created).2).2
    = _cache sample_created.
Proof.
  destruct (same_url_is_requested_twice sample_created 7 8 "u" sample_opts sample_opts)
    as (_ & _ & _ & H).
  - reflexivity.
  - exact H.
Defined.

(** ** The names in the response cache *)

Lemma update_request_urls (call : nat) (f : request → request) (w : world) :
  urls (update_request call f w) = urls w.
Proof.
  unfold update_request, urls. destruct (calls w !! call) as [i|] eqn:Hi; [|done].
  simpl. rewrite list_fmap_insert. apply list_insert_id.
  by rewrite list_lookup_fmap, Hi.
Qed.

Lemma resolve_task_frame (o : Aggregator.task) (t : nat * nat) (w : world) :
  urls (resolve_task o t w) = urls w ∧ pending (resolve_task o t w) = pending w
  ∧ jsonp (resolve_task o t w) = jsonp w.
Proof.
  unfold resolve_task. destruct (aggregators w !! t.1) as [tasks|]; [|done].
  destruct (Aggregator.resolve o t.2 tasks) as [tasks' [|]]; done.
Qed.

Lemma request_errorCallback_frame (call : nat) (msg : prop) (w : world) :
  urls (request_errorCallback call msg w) = urls w
  ∧ pending (request_errorCallback call msg w) = pending w
  ∧ jsonp (request_errorCallback call msg w) = jsonp w.
Proof.
  unfold request_errorCallback, _handleError.
  destruct (calls w !! call) as [i|]; [|done].
  destruct (req_task (inv_request i)) as [t|].
  - pose proof (resolve_task_frame Aggregator.Canceled t w) as (A & B & C).
    by destruct (opt_errorCallback (inv_opts i)), (negb (req_noNotifications (inv_request i))).
  - by destruct (opt_errorCallback (inv_opts i)).
Qed.

Lemma handleResponse_frame (enc : prop → string) (gen : provider_response → prop)
    (ie : bool) (call : nat) (w : world) :
  urls (_handleResponse enc gen ie call w).2 = urls w
  ∧ pending (_handleResponse enc gen ie call w).2 = pending w
  ∧ jsonp (_handleResponse enc gen ie call w).2 = jsonp w.
Proof.
  unfold _handleResponse. destruct (calls w !! call) as [i|]; [|done].
  destruct (handleResponse_listener enc _ (heap w)) as [[[[|] d']|e] h]; simpl.
  - pose proof (request_errorCallback_frame call (ed_errorMessage d') (with_heap h w))
      as (A & B & C). done.
  - destruct (req_task (inv_request i)) as [t|].
    + pose proof (resolve_task_frame Aggregator.Done t (with_heap h w)) as (A & B & C).
      repeat case_match; done.
    + repeat case_match; done.
  - done.
Qed.

(** What [finishLoading] leaves as it is, and what it caches. *)
Lemma finishLoading_names (enc : prop → string) (gen : provider_response → prop)
    (ie : bool) (call x : nat) (w : world) :
  urls (finishLoading enc gen ie call x w) = urls w
  ∧ pending (finishLoading enc gen ie call x w) = pending w
  ∧ jsonp (finishLoading enc gen ie call x w) = jsonp w
  ∧ (_cache (finishLoading enc gen ie call x w) = _cache w
     ∨ ∃ url r', urls w !! call = Some url
                 ∧ heap (finishLoading enc gen ie call x w) !! x = Some r'
                 ∧ convertible r'
                 ∧ _cache (finishLoading enc gen ie call x w) = <[url := x]> (_cache w)).
Proof.
  unfold finishLoading. destruct (calls w !! call) as [i|] eqn:Hi;
    [|repeat split; by left].
  pose proof (update_request_urls call (set_response x) w) as Hu.
  pose proof (update_request_frame call (set_response x) w)
    as (Hj & _ & Hp & Hh & Hc & _).
  pose proof (update_request_lookup call (set_response x) w i Hi) as Hl.
  set (w1 := update_request call (set_response x) w) in *.
  case_decide.
  - pose proof (handleResponse_frame enc gen ie call w1) as (A & B & C).
    pose proof (handleResponse_sound enc gen ie call w1) as (_ & Hc2 & Hok).
    destruct (_handleResponse enc gen ie call w1) as [[[|]|e] w2]; simpl in *.
    + destruct (Hok eq_refl) as (i0 & x0 & r' & Hi0 & Hx0 & Hr' & Hcv).
      rewrite Hl in Hi0. simplify_eq. simpl in Hx0. simplify_eq.
      assert (Hurl : urls w !! call = Some (inv_url i)).
      { unfold urls. by rewrite list_lookup_fmap, Hi. }
      unfold urls in *.
      destruct (opt_callback (inv_opts i)), ie; simpl;
        (split; [congruence|]; split; [congruence|]; split; [congruence|];
         right; exists (inv_url i), r'; rewrite Hc2, Hc; done).
    + unfold urls in *. simpl. repeat split; try congruence. left. congruence.
    + unfold urls in *. simpl. repeat split; try congruence. left. congruence.
  - destruct (req_task (inv_request i)) as [t|]; simpl.
    + pose proof (resolve_task_frame Aggregator.Done t
                    (emit [Warn "embedbase-widget-invalid"] w1)) as (A & B & C).
      pose proof (resolve_task_cache Aggregator.Done t
                    (emit [Warn "embedbase-widget-invalid"] w1)) as (D & _).
      unfold urls in *. simpl in *. repeat split; try congruence. left. congruence.
    + repeat split; try done. by left.
Qed.

Lemma convertible_type (r : provider_response) : convertible r → r_type r ≠ None.
Proof. intros [H|[H _]] Hn; rewrite Hn in H; done. Qed.

Lemma finishLoading_names_sound (enc : prop → string) (gen : provider_response → prop)
    (ie : bool) (call x : nat) (w : world) :
  names_sound w →
  (∀ url, urls w !! call = Some url → inherited url = true →
          ∃ r, heap w !! x = Some r ∧ r_type r = None) →
  names_sound (finishLoading enc gen ie call x w).
Proof.
  intros (H1 & H2 & H3) Hx.
  pose proof (finishLoading_names enc gen ie call x w) as (Hu & Hp & Hj & Hc).
  pose proof (finishLoading_keeps enc gen ie call x w) as Hk.
  set (w' := finishLoading enc gen ie call x w) in *. clearbody w'.
  split; [|split].
  - intros url y Hy. destruct Hc as [Hc|(url0 & r' & Hurl & Hr' & Hcv & Hc)].
    + rewrite Hc in Hy. by eapply H1.
    + rewrite Hc in Hy. destruct (decide (url = url0)) as [->|Hne].
      * destruct (inherited url0) eqn:Hin; [|done].
        destruct (Hx url0 Hurl Hin) as (r & Hr & Ht).
        destruct (Hk x r Hr) as (r2 & Hr2 & Ht2 & _).
        rewrite Hr' in Hr2. simplify_eq. apply convertible_type in Hcv. congruence.
      * rewrite lookup_insert_ne in Hy by done. by eapply H1.
  - intros k c Hkc. rewrite Hj in Hkc. rewrite Hu. by eapply H2.
  - intros call0 y Hin. rewrite Hp in Hin. rewrite Hu.
    destruct (H3 call0 y Hin) as (url & Hurl & Hb). exists url. split; [done|].
    intros Hi. destruct (Hb Hi) as (r & Hr & Ht).
    destruct (Hk y r Hr) as (r2 & Hr2 & Ht2 & _). exists r2. split; [done|]. congruence.
Qed.

Lemma request_errorCallback_names_sound (call : nat) (msg : prop) (w : world) :
  names_sound w → names_sound (request_errorCallback call msg w).
Proof.
  intros (H1 & H2 & H3).
  pose proof (request_errorCallback_frame call msg w) as (Hu & Hp & Hj).
  pose proof (request_errorCallback_cache call msg w) as Hc.
  pose proof (request_errorCallback_heap call msg w) as Hh.
  unfold names_sound. rewrite Hu, Hp, Hj, Hc, Hh. done.
Qed.

(** The callbacks that the transport calls are those of its requests, and
    a request keeps its callback. *)
Lemma step_requests (s : Jsonp.state) (e : Jsonp.event) :
  (∀ k c, Jsonp.requests (Jsonp.step s e).1 !! k = Some c →
     ∃ c0, Jsonp.requests s !! k = Some c0 ∧ Jsonp.callback c0 = Jsonp.callback c)
  ∧ (∀ k f x, Jsonp.Callback k f x ∈ (Jsonp.step s e).2 →
       ∃ c0, Jsonp.requests s !! k = Some c0 ∧ Jsonp.callback c0 = f).
Proof.
  assert (Hclean : ∀ k' s' k c, Jsonp.requests (Jsonp.cleanUp k' s') !! k = Some c →
            ∃ c0, Jsonp.requests s' !! k = Some c0 ∧ Jsonp.callback c0 = Jsonp.callback c).
  { intros k' s' k c. unfold Jsonp.cleanUp.
    destruct (Jsonp.requests s' !! k') as [c'|] eqn:Hc'; [|by eexists].
    destruct (Jsonp.scriptElement c'); [|by eexists]. simpl.
    destruct (decide (k' = k)) as [->|Hne].
    - rewrite lookup_insert_eq. intros [= <-]. by exists c'.
    - rewrite lookup_insert_ne by done. by eexists. }
  destruct e as [k' r|k'| |k']; simpl.
  - case_decide; simpl; (split; [by eexists|]); intros k f x Hin;
      by apply elem_of_nil in Hin.
  - split; [apply Hclean|]. intros k f x H.
    destruct (Jsonp.requests s !! k') as [c|]; [|by apply elem_of_nil in H].
    destruct (Jsonp.errorCallback c); [|by apply elem_of_nil in H].
    apply list_elem_of_singleton in H. done.
  - destruct (Jsonp.timeouts s) as [|[k' r] rest]; simpl.
    + split; [by eexists|]. intros k f x H. by apply elem_of_nil in H.
    + split; [intros k c H; by apply Hclean in H|]. intros k f x H.
      destruct (Jsonp.requests s !! k') as [c|] eqn:Hc; [|by apply elem_of_nil in H].
      apply list_elem_of_singleton in H. simplify_eq. by exists c.
  - split; [apply Hclean|]. intros k f x H. by apply elem_of_nil in H.
Qed.

Lemma transport_step_names_sound (enc : prop → string) (gen : provider_response → prop)
    (ie : bool) (e : Jsonp.event) (w : world) :
  names_sound w → names_sound (transport_step enc gen ie e w).
Proof.
  intros (H1 & H2 & H3). unfold transport_step.
  pose proof (step_requests (jsonp w) e) as [Hreq Hcalls].
  destruct (Jsonp.step (jsonp w) e) as [j cs]. simpl in *.
  assert (Hs : names_sound (with_jsonp j w)).
  { split; [exact H1|]. split; [|exact H3].
    intros k c Hkc. simpl in Hkc. destruct (Hreq k c Hkc) as (c0 & Hc0 & <-).
    by eapply H2. }
  assert (Hcs : ∀ k f x, Jsonp.Callback k f x ∈ cs →
            ∃ url, urls (with_jsonp j w) !! f = Some url ∧ inherited url = false).
  { intros k f x Hin. destruct (Hcalls k f x Hin) as (c0 & Hc0 & <-). by eapply H2. }
  revert Hs Hcs. generalize (with_jsonp j w). clear.
  induction cs as [|c cs IH]; intros w Hs Hcs; [done|]. simpl. apply IH.
  - destruct c as [k f x|k f]; simpl.
    + apply finishLoading_names_sound; [done|]. intros url Hurl Hin.
      destruct (Hcs k f x) as (url' & Hurl' & Hn); [by left|]. congruence.
    + by apply request_errorCallback_names_sound.
  - intros k f x Hin. destruct (Hcs k f x) as (url & Hurl & Hn); [by right|].
    exists url. split; [|done].
    destruct c as [k0 f0 x0|k0 f0]; simpl.
    + by rewrite (proj1 (finishLoading_names enc gen ie f0 x0 w)).
    + by rewrite (proj1 (request_errorCallback_frame f0 (Some "fetchingFailed") w)).
Qed.

Lemma urls_snoc (w : world) (l : list invocation) (i : invocation) :
  l = calls w ++ [i] →
  map inv_url l !! length (calls w) = Some (inv_url i)
  ∧ ∀ j u, urls w !! j = Some u → map inv_url l !! j = Some u.
Proof.
  intros ->. rewrite map_app. split.
  - rewrite lookup_app_r by (by rewrite length_map).
    by rewrite length_map, Nat.sub_diag.
  - intros j u Hj. by apply lookup_app_l_Some.
Qed.

Lemma loadContent_names_sound (t : nat) (url : string) (o : opts) (w : world) :
  names_sound w → names_sound (loadContent t url o w).2.
Proof.
  intros (H1 & H2 & H3).
  destruct (_cache w !! url) as [x|] eqn:Hc; [|destruct (inherited url) eqn:Hn].
  - unfold loadContent. rewrite (getCachedResponse_hit url w x Hc).
    cbn [snd]. unfold names_sound, urls.
    cbn [_cache jsonp calls pending heap with_pending with_calls].
    destruct (urls_snoc w _ {| that := t; inv_url := url; inv_opts := o;
                inv_request := {| req_noNotifications := opt_noNotifications o;
                                  req_url := url; req_task := None;
                                  req_response := None; req_cancel := None |} |} eq_refl)
      as [Hlast Hold].
    split; [exact H1|]. split.
    + intros k c Hkc. destruct (H2 k c Hkc) as (u & Hu & Hi). exists u. split; [|done].
      by apply Hold.
    + intros call y [Hin|Hin]%elem_of_app.
      * destruct (H3 call y Hin) as (u & Hu & Hb). exists u. split; [|done]. by apply Hold.
      * apply list_elem_of_singleton in Hin. simplify_eq. exists url. split; [done|].
        intros Hi. by rewrite (H1 url x Hc) in Hi.
  - unfold loadContent. rewrite (getCachedResponse_inherited url w Hc Hn).
    cbn [snd]. unfold names_sound, urls.
    cbn [_cache jsonp calls pending heap with_pending with_calls with_heap].
    destruct (urls_snoc w _ {| that := t; inv_url := url; inv_opts := o;
                inv_request := {| req_noNotifications := opt_noNotifications o;
                                  req_url := url; req_task := None;
                                  req_response := None; req_cancel := None |} |} eq_refl)
      as [Hlast Hold].
    split; [exact H1|]. split.
    + intros k c Hkc. destruct (H2 k c Hkc) as (u & Hu & Hi). exists u. split; [|done].
      by apply Hold.
    + intros call y [Hin|Hin]%elem_of_app.
      * destruct (H3 call y Hin) as (u & Hu & Hb). exists u. split; [by apply Hold|].
        intros Hi. destruct (Hb Hi) as (r & Hr & Ht). exists r. split; [|done].
        rewrite lookup_insert_ne; [done|].
        intros <-. apply (is_fresh (dom (heap w))). by apply elem_of_dom.
      * apply list_elem_of_singleton in Hin. simplify_eq. exists url. split; [done|].
        intros _. exists builtin. split; [apply lookup_insert_eq|done].
  - assert (Hmiss : (_getCachedResponse url w).1 = None)
      by (by apply getCachedResponse_none).
    destruct (loadContent_sends t url o w Hmiss) as (task & _ & _ & Hcalls & Hj & Hp).
    pose proof (loadContent_frame_miss t url o w Hmiss) as (Hh & Hcc & _).
    set (w' := (loadContent t url o w).2) in *. clearbody w'.
    destruct (urls_snoc w _ _ Hcalls) as [Hlast Hold].
    unfold names_sound, urls. rewrite Hcc, Hh, Hp, Hj. split; [exact H1|]. split.
    + intros k c. unfold Jsonp.sendRequest. cbn [snd Jsonp.requests].
      destruct (decide (Jsonp.nextNumber (jsonp w) = k)) as [<-|Hne].
      * rewrite lookup_insert_eq. intros [= <-]. exists url. done.
      * rewrite lookup_insert_ne by done. intros Hkc.
        destruct (H2 k c Hkc) as (u & Hu & Hi). exists u. split; [|done]. by apply Hold.
    + intros call y Hin. destruct (H3 call y Hin) as (u & Hu & Hb).
      exists u. split; [|done]. by apply Hold.
Qed.

Lemma step_names_sound (enc : prop → string) (gen : provider_response → prop)
    (ie : bool) (w : world) (e : event) :
  names_sound w → names_sound (step enc gen ie w e).
Proof.
  intros Hs. destruct e as [t url o|k r|e'| |call|id|id]; cbn [step].
  - by apply loadContent_names_sound.
  - apply transport_step_names_sound. destruct Hs as (H1 & H2 & H3).
    split; [exact H1|]. split; [exact H2|].
    intros call y Hin. destruct (H3 call y Hin) as (u & Hu & Hb).
    exists u. split; [done|]. intros Hi. destruct (Hb Hi) as (r0 & Hr0 & Ht).
    exists r0. split; [|done]. cbn [heap with_heap].
    rewrite lookup_insert_ne; [done|].
    intros <-. apply (is_fresh (dom (heap w))). by apply elem_of_dom.
  - by apply transport_step_names_sound.
  - destruct (pending w) as [|[call x] rest] eqn:Hp; [done|].
    destruct Hs as (H1 & H2 & H3).
    apply finishLoading_names_sound.
    + split; [exact H1|]. split; [exact H2|].
      intros call0 y Hin. apply (H3 call0 y). rewrite Hp. by right.
    + intros url Hurl Hi. destruct (H3 call x) as (u & Hu & Hb); [rewrite Hp; by left|].
      change (urls (with_pending rest w)) with (urls w) in Hurl.
      rewrite Hurl in Hu. simplify_eq. by apply Hb.
  - destruct (calls w !! call) as [i|]; [|done].
    destruct (req_cancel (inv_request i)) as [k|]; [|done].
    exact (transport_step_names_sound enc gen ie (Jsonp.Cancel k) w Hs).
  - exact Hs.
  - exact Hs.
Qed.

Lemma initial_names_sound : names_sound initial.
Proof.
  split; [|split].
  - intros url x H. simpl in H. by rewrite lookup_empty in H.
  - intros k c H. simpl in H. by rewrite lookup_empty in H.
  - intros call x H. simpl in H. by apply elem_of_nil in H.
Qed.

Lemma run_names_sound (enc : prop → string) (gen : provider_response → prop)
    (ie : bool) (es : list event) (w : world) :
  names_sound w → names_sound (run enc gen ie w es).
Proof.
  unfold run. revert w. induction es as [|e es IH]; intros w Hw; [done|].
  simpl. apply IH. by apply step_names_sound.
Qed.

(** Whatever happens on the page, no response is cached under a name that
    every object inherits: [_cacheResponse] never assigns to such a name. *)
Lemma cache_keys_are_not_inherited (enc : prop → string)
    (gen : provider_response → prop) (ie : bool) (es : list event)
    (url : string) (x : ref) :
  _cache (run enc gen ie initial es) !! url = Some x → inherited url = false.
Proof.
  apply (proj1 (run_names_sound enc gen ie es initial initial_names_sound)).
Qed.
